(** * risklab: the analytics engine of market-risk-portfolio-analyzer

    A shallow embedding of [risklab/metrics.py], [risklab/var.py],
    [risklab/portfolio.py], [risklab/beta.py] and [risklab/factors.py],
    and the properties of the specification that are settled on it;
    then [risklab/stress.py], the functions of [risklab/data.py] that
    do not fetch, and the weights and the scenario projection of
    [app.py], with further properties of the code.

    Number model.  A Python/NumPy float is modelled by the type [float]
    below: an exact rational, or one of the three IEEE specials [PInf],
    [NInf], [NaN].  Arithmetic on finite values is exact (binary64
    rounding, overflow and the sign of zero are outside the model); the
    specials propagate as IEEE 754 prescribes, so [0/0] is [NaN] and
    [x/0] is an infinity, as NumPy computes them without raising.  A
    missing value of a pandas Series is [NaN]; an entry of an input
    series is a [cell]: a finite rational or missing.

    A value proved in this model is the value of the code up to the
    rounding of binary64.  Where a rounding decides between a number
    and a sentinel, or the order of two results, the functions
    concerned are evaluated a second time on binary64 numbers (module
    [B64]).

    Python exceptions are modelled by the error monad [result]. *)

From Stdlib Require Import String Ascii QArith Qabs Qround ZArith Bool List.
From Stdlib Require Import Lia Lqa Sorted Setoid Morphisms.
From Stdlib Require Floats.
Import ListNotations.
Local Open Scope Q_scope.

(** ** Python exceptions *)

Inductive exn : Type :=
| ZeroDivisionError
| ValueError (msg : string)
| IndexError
| LinAlgError.

Inductive result (A : Type) : Type :=
| Ok (a : A)
| Raise (e : exn).
Arguments Ok {A} a.
Arguments Raise {A} e.

Definition bind {A B : Type} (m : result A) (k : A -> result B) : result B :=
  match m with
  | Ok a => k a
  | Raise e => Raise e
  end.

Notation "x <- m ;; k" := (bind m (fun x => k))
  (at level 61, m at next level, right associativity).

(** ** Floats: exact rationals with the IEEE specials *)

Inductive float : Type :=
| Fin (q : Q)
| PInf
| NInf
| NaN.

Definition Qlt_bool (a b : Q) : bool := negb (Qle_bool b a).

Definition finf (positive : bool) : float := if positive then PInf else NInf.

Definition fneg (a : float) : float :=
  match a with
  | Fin q => Fin (- q)
  | PInf => NInf
  | NInf => PInf
  | NaN => NaN
  end.

Definition fadd (a b : float) : float :=
  match a, b with
  | NaN, _ | _, NaN => NaN
  | Fin x, Fin y => Fin (x + y)
  | PInf, NInf | NInf, PInf => NaN
  | PInf, _ | _, PInf => PInf
  | NInf, _ | _, NInf => NInf
  end.

Definition fsub (a b : float) : float := fadd a (fneg b).

(** [inf * 0] is [NaN]; otherwise the sign of an infinite product is the
    product of the signs. *)
Definition fmul_inf (positive : bool) (q : Q) : float :=
  if Qeq_bool q 0 then NaN else finf (Bool.eqb positive (Qlt_bool 0 q)).

Definition fmul (a b : float) : float :=
  match a, b with
  | NaN, _ | _, NaN => NaN
  | Fin x, Fin y => Fin (x * y)
  | Fin x, PInf | PInf, Fin x => fmul_inf true x
  | Fin x, NInf | NInf, Fin x => fmul_inf false x
  | PInf, PInf | NInf, NInf => PInf
  | PInf, NInf | NInf, PInf => NInf
  end.

(** Float division never raises: [0/0 = NaN], [x/0 = +-inf] (the zero
    divisor counts as [+0]), [x/inf = 0], [inf/inf = NaN]. *)
Definition fdiv (a b : float) : float :=
  match a, b with
  | NaN, _ | _, NaN => NaN
  | Fin x, Fin y =>
      if Qeq_bool y 0
      then (if Qeq_bool x 0 then NaN else finf (Qlt_bool 0 x))
      else Fin (x / y)
  | Fin _, (PInf | NInf) => Fin 0
  | PInf, Fin y => finf (Qle_bool 0 y)
  | NInf, Fin y => finf (negb (Qle_bool 0 y))
  | (PInf | NInf), (PInf | NInf) => NaN
  end.

Declare Scope float_scope.
Delimit Scope float_scope with fl.
Infix "+" := fadd : float_scope.
Infix "-" := fsub : float_scope.
Infix "*" := fmul : float_scope.
Infix "/" := fdiv : float_scope.
Notation "- x" := (fneg x) : float_scope.

(** Python's comparison operators on floats: every comparison with [NaN]
    is false. *)
Definition feqb (a b : float) : bool :=
  match a, b with
  | Fin x, Fin y => Qeq_bool x y
  | PInf, PInf | NInf, NInf => true
  | _, _ => false
  end.

Definition fleb (a b : float) : bool :=
  match a, b with
  | NaN, _ | _, NaN => false
  | Fin x, Fin y => Qle_bool x y
  | NInf, _ | _, PInf => true
  | _, _ => false
  end.

Definition fltb (a b : float) : bool :=
  match a, b with
  | NaN, _ | _, NaN => false
  | _, _ => negb (fleb b a)
  end.

Definition isnan (a : float) : bool :=
  match a with NaN => true | _ => false end.

Definition isfinite (a : float) : bool :=
  match a with Fin _ => true | _ => false end.

(** Two floats denote the same value. *)
Definition feq (a b : float) : Prop :=
  match a, b with
  | Fin x, Fin y => x == y
  | PInf, PInf | NInf, NInf | NaN, NaN => True
  | _, _ => False
  end.

Infix "=f=" := feq (at level 70, no associativity).

(** ** Dates and resampling rules

    The index of a return matrix is a pandas [DatetimeIndex] of daily
    dates.  A date is ordered by [date_key], which is strictly monotone
    on calendar dates. *)

Record Date : Type := mkDate { year : Z; month : Z; day : Z }.

Definition month_number (d : Date) : Z := (year d * 12 + (month d - 1))%Z.

Definition date_key (d : Date) : Z := (month_number d * 32 + day d)%Z.

Definition date_leb (a b : Date) : bool := (date_key a <=? date_key b)%Z.
Definition date_eqb (a b : Date) : bool := (date_key a =? date_key b)%Z.
Definition date_lt (a b : Date) : Prop := (date_key a < date_key b)%Z.
Definition date_le (a b : Date) : Prop := (date_key a <= date_key b)%Z.

Definition is_leap (y : Z) : bool :=
  (((y mod 4 =? 0) && negb (y mod 100 =? 0)) || (y mod 400 =? 0))%Z.

Definition days_in_month (y m : Z) : Z :=
  if (m =? 2)%Z then (if is_leap y then 29 else 28)%Z
  else if ((m =? 4) || (m =? 6) || (m =? 9) || (m =? 11))%Z then 30%Z
  else 31%Z.

Definition valid_date (d : Date) : Prop :=
  (1 <= month d <= 12 /\ 1 <= day d <= days_in_month (year d) (month d))%Z.

(** What [DataFrame.resample(rule)] needs of a rule: the number of the
    bin a date falls in, and the date that labels a bin. *)
Record Binning : Type := mkBinning {
  bin : Date -> Z;
  label : Z -> Date
}.

Definition month_end_of (m : Z) : Date :=
  let y := (m / 12)%Z in
  let mo := (m mod 12 + 1)%Z in
  mkDate y mo (days_in_month y mo).

(** ["ME"]: calendar months, closed and labelled on the month's last day. *)
Definition month_end : Binning :=
  mkBinning month_number month_end_of.

(** ["QE"]: calendar quarters, closed and labelled on the quarter's last
    day. *)
Definition quarter_end : Binning :=
  mkBinning (fun d => (month_number d / 3)%Z)
            (fun k => month_end_of (3 * k + 2)%Z).

(** ** Library functions the repository calls but does not define

    NumPy's elementary functions and a few pandas routines are not code
    of the repository.  What the claims need of them is fixed by the
    definitions further down (sums, products, quantiles, moments of
    order two); the rest is left open as the members of this class, and
    every theorem holds for each implementation of it. *)

Class Lib : Type := {
  (** [np.sqrt] on a positive rational. *)
  np_sqrt : Q -> Q;
  (** [np.log] on a positive rational. *)
  np_log : Q -> Q;
  (** [x ** y] on finite floats. *)
  np_power : Q -> Q -> float;
  (** [Series.skew()] and [Series.kurt()] of the non-missing values. *)
  pd_skew : list Q -> float;
  pd_kurt : list Q -> float;
  (** What [np.quantile] does with an empty array: it depends on the
      NumPy release. *)
  np_quantile_empty : result float;
  (** [np.linalg.lstsq] for a design matrix without full column rank
      (the minimum-norm solution). *)
  np_lstsq_deficient : list (list Q) -> list Q -> list Q;
  (** The binning of a pandas offset alias other than ["ME"] and ["QE"];
      [None] for a string pandas refuses. *)
  pd_offset : string -> option Binning
}.

Section WithLib.
Context {L : Lib}.

(** The library functions are functions of the value of their argument:
    they are applied to the reduced fraction.  [sqrt 0] is exactly [0],
    [sqrt] of a negative number is [NaN] and [log 0] is [-inf], as in
    IEEE 754. *)
Definition fsqrt (a : float) : float :=
  match a with
  | Fin q =>
      if Qlt_bool q 0 then NaN
      else if Qeq_bool q 0 then Fin 0 else Fin (np_sqrt (Qred q))
  | PInf => PInf
  | NInf | NaN => NaN
  end.

Definition flog (a : float) : float :=
  match a with
  | Fin q =>
      if Qlt_bool q 0 then NaN
      else if Qeq_bool q 0 then NInf else Fin (np_log (Qred q))
  | PInf => PInf
  | NInf | NaN => NaN
  end.

Definition fpow (x y : Q) : float := np_power (Qred x) (Qred y).

(** ** pandas Series *)

(** An entry of a return series: a finite value, or missing. *)
Definition cell : Type := option Q.

Definition cell_float (c : cell) : float :=
  match c with Some q => Fin q | None => NaN end.

(** [Series.dropna()] *)
Fixpoint dropna (xs : list cell) : list Q :=
  match xs with
  | [] => []
  | Some x :: t => x :: dropna t
  | None :: t => dropna t
  end.

Definition Qsum (xs : list Q) : Q := fold_right Qplus 0 xs.
Definition Qprod (xs : list Q) : Q := fold_right Qmult 1 xs.
Definition Qlen (xs : list Q) : Q := inject_Z (Z.of_nat (length xs)).

(** [Series.prod()], [Series.mean()] and [Series.std(ddof=0)] skip the
    missing entries; the mean and the deviation of no value are [NaN].
    The deviation is exact here, so it is 0 on every constant sample;
    the binary64 deviation is 0 only when the mean is computed without
    error ([B64.std0] below). *)
Definition pd_prod (xs : list cell) : Q := Qprod (dropna xs).

Definition Qmean (v : list Q) : Q := Qsum v / Qlen v.

Definition Qvar0 (v : list Q) : Q :=
  Qmean (map (fun x => (x - Qmean v) * (x - Qmean v)) v).

Definition pd_mean (xs : list cell) : float :=
  match dropna xs with
  | [] => NaN
  | v => Fin (Qmean v)
  end.

Definition pd_std0 (xs : list cell) : float :=
  match dropna xs with
  | [] => NaN
  | v => fsqrt (Fin (Qvar0 v))
  end.

(** Elementwise [s + c] and [s - c]: a missing entry stays missing. *)
Definition series_add (c : Q) (xs : list cell) : list cell :=
  map (option_map (fun x => c + x)) xs.

Definition series_sub (xs : list cell) (c : Q) : list cell :=
  map (option_map (fun x => x - c)) xs.

(** [Series.cumprod()] and [Series.cummax()] skip a missing entry and
    leave it missing in the result. *)
Fixpoint cumprod_from (acc : Q) (xs : list cell) : list cell :=
  match xs with
  | [] => []
  | None :: t => None :: cumprod_from acc t
  | Some x :: t => Some (acc * x) :: cumprod_from (acc * x) t
  end.

Definition cumprod (xs : list cell) : list cell := cumprod_from 1 xs.

Fixpoint cummax_from (acc : option Q) (xs : list cell) : list cell :=
  match xs with
  | [] => []
  | None :: t => None :: cummax_from acc t
  | Some x :: t =>
      let m := match acc with
               | Some a => if Qle_bool x a then a else x
               | None => x
               end in
      Some m :: cummax_from (Some m) t
  end.

Definition cummax (xs : list cell) : list cell := cummax_from None xs.

(** [Series.min()] of a float series skips [NaN]. *)
Definition fmin2 (a b : float) : float := if fleb a b then a else b.

Definition pd_min (xs : list float) : float :=
  match filter (fun a => negb (isnan a)) xs with
  | [] => NaN
  | a :: t => fold_left fmin2 t a
  end.

(** ** risklab/metrics.py *)

Definition annualize_return (rets : list cell) (periods_per_year : Q)
  : result float :=
  let prod := pd_prod (series_add 1 rets) in
  match rets with
  | [] => Raise ZeroDivisionError
  | _ =>
      Ok (fsub (fpow prod
                  (periods_per_year / inject_Z (Z.of_nat (length rets))))
               (Fin 1))
  end.

Definition annualize_vol (rets : list cell) (periods_per_year : Q) : float :=
  fmul (pd_std0 rets) (fsqrt (Fin periods_per_year)).

Definition sharpe (rets : list cell) (rf periods_per_year : Q)
  : result float :=
  if Qeq_bool periods_per_year 0 then Raise ZeroDivisionError else
  let excess := series_sub rets (rf / periods_per_year) in
  let vol := fmul (pd_std0 excess) (fsqrt (Fin periods_per_year)) in
  if feqb vol (Fin 0) then Ok NaN
  else Ok (fdiv (fmul (pd_mean excess) (Fin periods_per_year)) vol).

Definition negative_part (xs : list cell) : list cell :=
  filter (fun c => fltb (cell_float c) (Fin 0)) xs.

Definition sortino (rets : list cell) (rf periods_per_year : Q)
  : result float :=
  if Qeq_bool periods_per_year 0 then Raise ZeroDivisionError else
  let excess := series_sub rets (rf / periods_per_year) in
  let downside := negative_part excess in
  let dd := fmul (pd_std0 downside) (fsqrt (Fin periods_per_year)) in
  if feqb dd (Fin 0) then Ok NaN
  else Ok (fdiv (fmul (pd_mean excess) (Fin periods_per_year)) dd).

Definition drawdown (rets : list cell) : list float :=
  let wealth := cumprod (series_add 1 rets) in
  let peak := cummax wealth in
  map (fun wp => fsub (fdiv (cell_float (fst wp)) (cell_float (snd wp)))
                      (Fin 1))
      (combine wealth peak).

Definition max_drawdown (rets : list cell) : float :=
  pd_min (drawdown rets).

(** [(rets > 0).mean()]: the comparison is false on a missing entry,
    and the mean is taken over every entry of the boolean series. *)
Definition hit_rate (rets : list cell) : float :=
  let positive := map (fun c => fltb (Fin 0) (cell_float c)) rets in
  match positive with
  | [] => NaN
  | _ => Fin (inject_Z (Z.of_nat (length (filter id positive)))
              / inject_Z (Z.of_nat (length positive)))
  end.

(** ** risklab/var.py *)

Definition ppf_a : list Q :=
  [-3.969683028665376e+01; 2.209460984245205e+02; -2.759285104469687e+02;
   1.383577518672690e+02; -3.066479806614716e+01; 2.506628277459239e+00].
Definition ppf_b : list Q :=
  [-5.447609879822406e+01; 1.615858368580409e+02; -1.556989798598866e+02;
   6.680131188771972e+01; -1.328068155288572e+01].
Definition ppf_c : list Q :=
  [-7.784894002430293e-03; -3.223964580411365e-01; -2.400758277161838e+00;
   -2.549732539343734e+00; 4.374664141464968e+00; 2.938163982698783e+00].
Definition ppf_d : list Q :=
  [7.784695709041462e-03; 3.224671290700398e-01; 2.445134137142996e+00;
   3.754408661907416e+00].

Definition plow : Q := 0.02425.
Definition phigh : Q := 1 - 0.02425.

(** [l[i]] of a coefficient table. *)
Definition item (l : list Q) (i : nat) : Q := nth i l 0.

(** The rational function of the two tails, in [q = sqrt(-2 log p)]. *)
Definition ppf_tail (q : float) : float * float :=
  let c i := Fin (item ppf_c i) in
  let d i := Fin (item ppf_d i) in
  (((((c 0%nat * q + c 1%nat) * q + c 2%nat) * q + c 3%nat) * q + c 4%nat) * q + c 5%nat,
   (((d 0%nat * q + d 1%nat) * q + d 2%nat) * q + d 3%nat) * q + Fin 1)%fl.

(** The rational function of the central region, in [q = p - 0.5]. *)
Definition ppf_central (q : Q) : Q * Q :=
  let a := item ppf_a in
  let b := item ppf_b in
  let r := q * q in
  ((((((a 0%nat * r + a 1%nat) * r + a 2%nat) * r + a 3%nat) * r + a 4%nat) * r + a 5%nat) * q,
   ((((b 0%nat * r + b 1%nat) * r + b 2%nat) * r + b 3%nat) * r + b 4%nat) * r + 1).

(** The argument is taken as it is passed: a caller that forms [1 - p]
    in binary64 passes the rounded difference ([B64._norm_ppf] below). *)
Definition _norm_ppf (p : Q) : float :=
  if Qle_bool p 0 then NInf else
  if Qle_bool 1 p then PInf else
  if Qlt_bool p plow then
    let q := fsqrt (Fin (-2) * flog (Fin p))%fl in
    (fst (ppf_tail q) / snd (ppf_tail q))%fl
  else if Qlt_bool phigh p then
    let q := fsqrt (Fin (-2) * flog (Fin (1 - p)))%fl in
    (- fst (ppf_tail q) / snd (ppf_tail q))%fl
  else
    let q := p - 0.5 in
    (Fin (fst (ppf_central q)) / Fin (snd (ppf_central q)))%fl.

(** Sorting, as [np.quantile] orders its sample. *)
Fixpoint Qinsert (x : Q) (l : list Q) : list Q :=
  match l with
  | [] => [x]
  | y :: t => if Qle_bool x y then x :: l else y :: Qinsert x t
  end.

Definition Qsort (l : list Q) : list Q := fold_right Qinsert [] l.

(** [np.quantile(a, q)] with the default, linear method: the virtual
    index [(n-1) q] falls between two order statistics, which are
    interpolated linearly.  A level outside [0,1] is refused first. *)
Definition np_quantile (a : list Q) (q : Q) : result float :=
  if negb (Qle_bool 0 q && Qle_bool q 1) then
    Raise (ValueError "Quantiles must be in the range [0, 1]")
  else
    match a with
    | [] => np_quantile_empty
    | _ =>
        let s := Qsort a in
        let n := length s in
        let h := inject_Z (Z.of_nat (n - 1)) * q in
        let lo := Z.to_nat (Qfloor h) in
        let hi := Nat.min (lo + 1) (n - 1) in
        let gamma := h - inject_Z (Qfloor h) in
        Ok (Fin (nth lo s 0 + (nth hi s 0 - nth lo s 0) * gamma))
    end.

Definition var_historical (rets : list cell) (alpha : Q) : result float :=
  let r := dropna rets in
  np_quantile r (1 - alpha).

(** The mean of the tail is exact here; the code rounds it
    ([B64.cvar_historical] below). *)
Definition cvar_historical (rets : list cell) (alpha : Q) : result float :=
  q <- var_historical rets alpha ;;
  let tail := filter (fun x => fleb (Fin x) q) (dropna rets) in
  Ok (match tail with
      | [] => NaN
      | _ => Fin (Qmean tail)
      end).

Definition var_parametric_normal (rets : list cell) (alpha : Q) : float :=
  let r := map Some (dropna rets) in
  let mu := pd_mean r in
  let sigma := pd_std0 r in
  let z := _norm_ppf (1 - alpha) in
  (mu + sigma * z)%fl.

Definition var_cornish_fisher (rets : list cell) (alpha : Q) : float :=
  let r := map Some (dropna rets) in
  let mu := pd_mean r in
  let sigma := pd_std0 r in
  let z := _norm_ppf (1 - alpha) in
  let s := pd_skew (dropna rets) in
  let k := pd_kurt (dropna rets) in
  let z2 := (z * z)%fl in
  let z3 := (z * z * z)%fl in
  let z_cf := (z + (z2 - Fin 1) * s / Fin 6
                 + (z3 - Fin 3 * z) * k / Fin 24
                 - (Fin 2 * z3 - Fin 5 * z) * (s * s) / Fin 36)%fl in
  (mu + sigma * z_cf)%fl.

(** ** risklab/portfolio.py *)

(** A weight vector: the items of the [dict], in insertion order. *)
Definition weights : Type := list (string * Q).

Definition wsum (w : weights) : Q := Qsum (map snd w).

Definition normalize_weights (w : weights) : weights :=
  let s := w in
  let total := wsum s in
  if negb (Qeq_bool total 0)
  then map (fun kv => (fst kv, snd kv / total)) s
  else s.

Definition _to_resample_rule (rebalance : option string) : option string :=
  match rebalance with
  | None => None
  | Some r =>
      if String.eqb r "M" then Some "ME"%string
      else if String.eqb r "Q" then Some "QE"%string
      else Some r
  end.

(** A series with its index, and a return matrix stored by columns over
    a common index. *)
Definition Series : Type := list (Date * float).

Record DataFrame : Type := mkDF {
  df_index : list Date;
  df_columns : list (string * list cell)
}.

Definition df_empty (df : DataFrame) : bool :=
  match df_index df, df_columns df with
  | [], _ | _, [] => true
  | _, _ => false
  end.

Fixpoint assoc {A : Type} (k : string) (l : list (string * A)) : option A :=
  match l with
  | [] => None
  | (k', v) :: t => if String.eqb k k' then Some v else assoc k t
  end.

(** [cols], [returns.loc[:, cols]] and [w.loc[cols]] at once: the symbols
    of the weight vector that are columns of the matrix, each with its
    weight and its column. *)
Definition select_columns (w : weights) (returns : DataFrame)
  : list (Q * list cell) :=
  flat_map (fun kv => match assoc (fst kv) (df_columns returns) with
                      | Some col => [(snd kv, col)]
                      | None => []
                      end) w.

(** [(frame * w).sum(axis=1)] at row [t]: a missing cell is skipped. *)
Definition weighted_row_sum (cols : list (Q * list cell)) (t : nat) : Q :=
  Qsum (map (fun wc => match nth t (snd wc) None with
                       | Some x => x * fst wc
                       | None => 0
                       end) cols).

(** [Series.pct_change()]: the first entry has no predecessor. *)
Fixpoint pct_change_from (prev : Q) (xs : list Q) : list float :=
  match xs with
  | [] => []
  | x :: t => (Fin x / Fin prev - Fin 1)%fl :: pct_change_from x t
  end.

Definition pct_change (xs : list Q) : list float :=
  match xs with
  | [] => []
  | x :: t => NaN :: pct_change_from x t
  end.

Definition series_dropna (s : Series) : Series :=
  filter (fun dv => negb (isnan (snd dv))) s.

(** [resample(rule)]: ["ME"] and ["QE"] are the two rules the
    application uses; any other offset alias is pandas's to interpret. *)
Definition pd_rule (rule : string) : option Binning :=
  if String.eqb rule "ME" then Some month_end
  else if String.eqb rule "QE" then Some quarter_end
  else pd_offset rule.

(** The bins of a resampling: every bin from the earliest to the latest
    date of the index, the empty ones included. *)
Definition bins_of (B : Binning) (idx : list Date) : list Z :=
  match map (bin B) idx with
  | [] => []
  | b :: bs =>
      let lo := fold_left Z.min bs b in
      let hi := fold_left Z.max bs b in
      map (fun i => (lo + Z.of_nat i)%Z) (seq 0 (Z.to_nat (hi - lo + 1)))
  end.

(** [df.prod() - 1.0] of the rows of one bin, for one column of [1 + R]. *)
Definition compound_in_bin (B : Binning) (idx : list Date) (col : list cell)
  (b : Z) : Q :=
  Qprod (dropna (map snd (filter (fun dc => (bin B (fst dc) =? b)%Z)
                                 (combine idx (series_add 1 col))))) - 1.

Definition port_periodic (B : Binning) (idx : list Date)
  (cols : list (Q * list cell)) : list (Date * Q) :=
  map (fun b => (label B b,
                 Qsum (map (fun wc => compound_in_bin B idx (snd wc) b * fst wc)
                           cols)))
      (bins_of B idx).

(** [reindex(index, method="ffill")] at one date: the value of the last
    label that is not after the date, or missing when there is none. *)
Definition ffill_at (periodic : list (Date * Q)) (d : Date) : float :=
  fold_left (fun acc lv => if date_leb (fst lv) d then Fin (snd lv) else acc)
            periodic NaN.

Definition allocate_static (returns : option DataFrame) (weights : weights)
  (rebalance : option string) : result Series :=
  match returns with
  | None => Ok []
  | Some returns =>
      if df_empty returns then Ok [] else
      let w := normalize_weights weights in
      let R := select_columns w returns in
      match R with
      | [] => Ok []
      | _ =>
          let idx := df_index returns in
          match _to_resample_rule rebalance with
          | None =>
              (* Buy & hold (drift) *)
              let wealth :=
                map (fun wc => (fst wc, cumprod (series_add 1 (snd wc)))) R in
              let port_wealth :=
                map (weighted_row_sum wealth) (seq 0 (length idx)) in
              let port_ret :=
                series_dropna (combine idx (pct_change port_wealth)) in
              Ok port_ret
          | Some rule =>
              (* Periodic rebalance: compound within period, then reapply
                 weights *)
              match pd_rule rule with
              | None => Raise (ValueError "Invalid frequency")
              | Some B =>
                  let periodic := port_periodic B idx R in
                  (* Stepwise hold between rebalances *)
                  Ok (map (fun d => (d, ffill_at periodic d)) idx)
              end
          end
      end
  end.

(** ** risklab/beta.py *)

Fixpoint all_present {A : Type} (l : list (option A)) : option (list A) :=
  match l with
  | [] => Some []
  | None :: _ => None
  | Some x :: t =>
      match all_present t with
      | Some v => Some (x :: v)
      | None => None
      end
  end.

(** [Series.rolling(window)]: the statistic of the [window] entries that
    end at each position; missing until the window is filled, and while
    it holds a missing entry. *)
Definition window_at {A : Type} (window i : nat) (xs : list A) : list A :=
  firstn window (skipn (i + 1 - window) xs).

Definition rolling {A : Type} (window : nat) (f : list A -> float)
  (xs : list (option A)) : list float :=
  map (fun i =>
         if (window <=? i + 1)%nat then
           match all_present (window_at window i xs) with
           | Some v => f v
           | None => NaN
           end
         else NaN)
      (seq 0 (length xs)).

(** The sample variance and covariance ([ddof=1]) of a full window. *)
Definition Qvar1 (v : list Q) : float :=
  if (length v <=? 1)%nat then NaN
  else Fin (Qsum (map (fun x => (x - Qmean v) * (x - Qmean v)) v)
            / inject_Z (Z.of_nat (length v - 1))).

Definition Qcov1 (v : list (Q * Q)) : float :=
  let mx := Qmean (map fst v) in
  let my := Qmean (map snd v) in
  if (length v <=? 1)%nat then NaN
  else Fin (Qsum (map (fun xy => (fst xy - mx) * (snd xy - my)) v)
            / inject_Z (Z.of_nat (length v - 1))).

Definition pair_cells (ab : cell * cell) : option (Q * Q) :=
  match ab with
  | (Some a, Some b) => Some (a, b)
  | _ => None
  end.

(** The two series share one index (the application aligns them before
    the call). *)
Definition rolling_beta (asset_rets bench_rets : list cell) (window : nat)
  : list float :=
  let cov := rolling window Qcov1
               (map pair_cells (combine asset_rets bench_rets)) in
  let var := rolling window Qvar1 bench_rets in
  map (fun cv => (fst cv / snd cv)%fl) (combine cov var).

(** ** risklab/factors.py *)

(** Dense matrices, by rows. *)
Definition mat : Type := list (list Q).

Definition dot (u v : list Q) : Q :=
  Qsum (map (fun ab => fst ab * snd ab) (combine u v)).

Definition matvec (M : mat) (v : list Q) : list Q := map (fun r => dot r v) M.

(** The transpose of a matrix with [k] columns. *)
Definition transpose (k : nat) (M : mat) : mat :=
  map (fun j => map (fun r => nth j r 0) M) (seq 0 k).

(** [X.T @ X] *)
Definition gram (k : nat) (X : mat) : mat :=
  let Xt := transpose k X in
  map (fun ci => map (dot ci) Xt) Xt.

Definition identity (k : nat) : mat :=
  map (fun i => map (fun j => if (i =? j)%nat then 1 else 0) (seq 0 k))
      (seq 0 k).

(** [np.linalg.inv] by Gauss-Jordan elimination on [M | I]: at column
    [j] a row with a non-zero entry is picked among the rows not yet
    used, scaled, and eliminated from every other row.  No such row:
    the matrix is singular, and NumPy raises [LinAlgError].  The
    entries are exact here; NumPy eliminates in binary64 and raises on
    a pivot that is exactly zero, as a column of zeros leaves one. *)
Fixpoint pick_pivot (j : nat) (rows : mat) : option (list Q * mat) :=
  match rows with
  | [] => None
  | r :: t =>
      if Qeq_bool (nth j r 0) 0 then
        match pick_pivot j t with
        | Some (p, rest) => Some (p, r :: rest)
        | None => None
        end
      else Some (r, t)
  end.

Definition eliminate (j : nat) (p r : list Q) : list Q :=
  map (fun pr => snd pr - nth j r 0 * fst pr) (combine p r).

Fixpoint gauss_jordan (steps j : nat) (done todo : mat) : option mat :=
  match steps with
  | O => Some done
  | S steps' =>
      match pick_pivot j todo with
      | None => None
      | Some (p, rest) =>
          let p' := map (Qmult (/ nth j p 0)) p in
          gauss_jordan steps' (S j)
            (map (eliminate j p') done ++ [p'])
            (map (eliminate j p') rest)
      end
  end.

(** [M | I] *)
Definition augment (M : mat) : mat :=
  map (fun ri => fst ri ++ snd ri) (combine M (identity (length M))).

Definition np_inv (M : mat) : result mat :=
  let k := length M in
  match gauss_jordan k 0 [] (augment M) with
  | Some rows => Ok (map (skipn k) rows)
  | None => Raise LinAlgError
  end.

(** [np.linalg.lstsq(X, y)]: with full column rank the solution of the
    normal equations; it does not raise on a rank-deficient design. *)
Definition np_lstsq (k : nat) (X : mat) (y : list Q) : list Q :=
  match np_inv (gram k X) with
  | Ok G => matvec G (matvec (transpose k X) y)
  | Raise _ => np_lstsq_deficient X y
  end.

Fixpoint lookup_date {A : Type} (d : Date) (l : list (Date * A)) : option A :=
  match l with
  | [] => None
  | (d', v) :: t => if date_eqb d d' then Some v else lookup_date d t
  end.

Definition cell_at (d : Date) (s : list (Date * cell)) : cell :=
  match lookup_date d s with
  | Some c => c
  | None => None
  end.

(** [pd.concat([y, factors], axis=1).dropna()]: the rows of the outer
    join on the dates that have no missing cell, each as [y :: factors]. *)
Definition joined_rows (port_rets : list (Date * cell)) (factors : DataFrame)
  : list (list Q) :=
  let dates := map fst port_rets in
  let idx := dates ++ filter (fun d => negb (existsb (date_eqb d) dates))
                             (df_index factors) in
  let row d :=
    cell_at d port_rets
    :: map (fun col => cell_at d (combine (df_index factors) (snd col)))
           (df_columns factors) in
  flat_map (fun d => match all_present (row d) with
                     | Some v => [v]
                     | None => []
                     end) idx.

Record RegressionResult : Type := mkRegression {
  coef : list (string * Q);
  stderr : list (string * float);
  tstat : list (string * float);
  r2 : float;
  df_resid : Z
}.

Definition factor_regression (port_rets : list (Date * cell))
  (factors : DataFrame) : result RegressionResult :=
  let df := joined_rows port_rets factors in
  match df with
  | [] => Raise (ValueError "No overlapping data between portfolio and factors.")
  | _ =>
      let y := map (hd 0) df in
      let Xf := map (@tl Q) df in
      let X := map (cons 1) Xf in
      let colnames := "const"%string :: map fst (df_columns factors) in
      let n := length X in
      let k := S (length (df_columns factors)) in
      let beta := np_lstsq k X y in
      let y_hat := matvec X beta in
      let resid := map (fun ab => fst ab - snd ab) (combine y y_hat) in
      let df_resid := (Z.of_nat n - Z.of_nat k)%Z in
      if (df_resid <=? 0)%Z then
        Raise (ValueError "Not enough observations for regression.")
      else
        let rss := Qsum (map (fun e => e * e) resid) in
        let tss := Qsum (map (fun v => (v - Qmean y) * (v - Qmean y)) y) in
        let r2 := if Qlt_bool 0 tss then Fin (1 - rss / tss) else NaN in
        let sigma2 := rss / inject_Z df_resid in
        XtX_inv <- np_inv (gram k X) ;;
        let se_beta :=
          map (fun i => fsqrt (Fin (sigma2 * nth i (nth i XtX_inv []) 0)))
              (seq 0 k) in
        let tstat :=
          map (fun bs => let t := (Fin (fst bs) / snd bs)%fl in
                         if isfinite t then t else NaN)
              (combine beta se_beta) in
        Ok (mkRegression (combine colnames beta)
                         (combine colnames se_beta)
                         (combine colnames tstat)
                         r2 df_resid)
  end.

End WithLib.

(** ** Python dicts and risklab/stress.py *)

(** A [dict] with string keys: its items in insertion order.  Setting a
    key that is present replaces its value in place. *)
Fixpoint dict_set {A : Type} (k : string) (v : A) (d : list (string * A))
  : list (string * A) :=
  match d with
  | [] => [(k, v)]
  | (k', v') :: t =>
      if String.eqb k k' then (k', v) :: t else (k', v') :: dict_set k v t
  end.

(** [d.update(e)] *)
Definition dict_update {A : Type} (d e : list (string * A))
  : list (string * A) :=
  fold_left (fun acc kv => dict_set (fst kv) (snd kv) acc) e d.

(** [{k: v for ...}] from the pairs the comprehension produces. *)
Definition dict_of_items {A : Type} (items : list (string * A))
  : list (string * A) :=
  dict_update [] items.

(** [d.get(k, default)], also [Series.get] on a uniquely labelled
    series. *)
Definition dict_get {A : Type} (d : list (string * A)) (k : string)
  (default : A) : A :=
  match assoc k d with
  | Some v => v
  | None => default
  end.

(** The built-in [sum]: from [0], left to right. *)
Definition py_sum (xs : list Q) : Q := fold_left Qplus xs 0.

(** [params] is the coefficient series of a fitted model, labelled by the
    regressor names, which are distinct. *)
Definition apply_factor_shocks (params shocks : list (string * Q)) : Q :=
  let x := [("const"%string, 1)] in
  let x := dict_update x
             (dict_of_items
                (map (fun k => (k, dict_get shocks k 0))
                     (filter (fun k => negb (String.eqb k "const"))
                             (map fst params)))) in
  py_sum (map (fun kv => dict_get params (fst kv) 0 * snd kv) x).

(** ** app.py: the scenario projection *)
Definition scenario_prediction (coefs : list (string * Q))
  (oil rates usd xle : Q) : Q :=
  dict_get coefs "const" 0
  + dict_get coefs "OIL" 0 * oil
  + dict_get coefs "RATES" 0 * rates
  + dict_get coefs "USD" 0 * usd
  + dict_get coefs "XLE" 0 * xle.

(** ** app.py: the weights of the portfolio *)

(** The weights the application passes to [allocate_static]: optionally
    scaled to sum to one (to zeros when they sum to zero), then zipped
    with the tickers into a [dict]. *)
Definition app_weights (normalize : bool) (tickers : list string)
  (weights_vals : list Q) : weights :=
  let weights_vals :=
    if normalize && negb (match weights_vals with [] => true | _ => false end)
    then
      let ssum := py_sum weights_vals in
      map (fun w => if negb (Qeq_bool ssum 0) then w / ssum else 0)
          weights_vals
    else weights_vals in
  dict_of_items (combine tickers weights_vals).

(** ** risklab/data.py: ticker aliases

    Python strings are modelled by their bytes; [str.upper] and
    [str.lower] are those of ASCII text, which ticker symbols and column
    labels are. *)

Definition upper_char (c : ascii) : ascii :=
  let n := nat_of_ascii c in
  if ((97 <=? n) && (n <=? 122))%nat then ascii_of_nat (n - 32) else c.

Definition lower_char (c : ascii) : ascii :=
  let n := nat_of_ascii c in
  if ((65 <=? n) && (n <=? 90))%nat then ascii_of_nat (n + 32) else c.

Fixpoint str_map (f : ascii -> ascii) (s : string) : string :=
  match s with
  | EmptyString => EmptyString
  | String c r => String (f c) (str_map f r)
  end.

Definition str_upper : string -> string := str_map upper_char.
Definition str_lower : string -> string := str_map lower_char.

Fixpoint str_all (p : ascii -> bool) (s : string) : bool :=
  match s with
  | EmptyString => true
  | String c r => p c && str_all p r
  end.

(** The strings on which the model of [upper] and [lower] is exact. *)
Definition is_ascii (s : string) : bool :=
  str_all (fun c => (nat_of_ascii c <? 128)%nat) s.

(** [ch in s] for a one-character [ch]. *)
Definition contains_char (ch : ascii) (s : string) : bool :=
  negb (str_all (fun c => negb (Ascii.eqb c ch)) s).

(** [s.endswith(suffix)] *)
Definition endswith (s suffix : string) : bool :=
  let n := String.length s in
  let m := String.length suffix in
  ((m <=? n)%nat && String.eqb (substring (n - m) m s) suffix).

(** [s.split(sep)[0]] *)
Fixpoint before_first (sep : ascii) (s : string) : string :=
  match s with
  | EmptyString => EmptyString
  | String c r =>
      if Ascii.eqb c sep then EmptyString else String c (before_first sep r)
  end.

(** [re.fullmatch(r"[A-Z0-9.\-]+", s)] *)
Definition ticker_char (c : ascii) : bool :=
  let n := nat_of_ascii c in
  (((65 <=? n) && (n <=? 90)) || ((48 <=? n) && (n <=? 57)))%nat
  || Ascii.eqb c "." || Ascii.eqb c "-".

Definition fullmatch_ticker (s : string) : bool :=
  negb (String.eqb s "") && str_all ticker_char s.

Definition _STQ_SUFFIXES : list string :=
  [".US"; ".PL"; ".DE"; ".UK"; ".FR"; ".JP"]%string.

Definition specials : list (string * list string) :=
  [("^DXY", ["DXY"; "USDIDX"; "USDOLLAR"]);
   ("CL=F", ["CL"; "WTI"; "OIL"]);
   ("^GSPC", ["SPX"; "^SPX"; "SP500"]);
   ("^TNX", ["US10Y"; "TNX"])]%string.

Definition _stooq_aliases (t : string) (map_tsx_to_us : bool) : list string :=
  let t0 := str_upper t in
  match assoc t0 specials with
  | Some aliases => aliases
  | None =>
      if endswith t0 ".TO" && map_tsx_to_us then
        let base := before_first "." t0 in
        [base; (base ++ ".US")%string]
      else if existsb (endswith t0) _STQ_SUFFIXES then [t0]
      else if fullmatch_ticker t0
              && negb (existsb (fun ch => contains_char ch t0) ["^"; "="]%char)
      then [t0; (t0 ++ ".US")%string]
      else [t0]
  end.

(** ** risklab/data.py: the price series of a provider's table *)

(** [{str(c).lower(): c for c in cols}] *)
Definition lower_index (cols : list string) : list (string * string) :=
  dict_of_items (map (fun c => (str_lower c, c)) cols).

Definition price_keys : list string :=
  ["adj close"; "adjclose"; "close"; "adjusted_close"]%string.

(** The loop over the keys: the column of the first key that is present. *)
Fixpoint first_key (keys : list string) (lower : list (string * string))
  : option string :=
  match keys with
  | [] => None
  | key :: rest =>
      match assoc key lower with
      | Some c => Some c
      | None => first_key rest lower
      end
  end.

(** The column [_series_from_df] reads the prices from. *)
Definition pick_column (cols : list string) : option string :=
  let lower := lower_index cols in
  match first_key price_keys lower with
  | Some c => Some c
  | None => if existsb (String.eqb "Close") cols then Some "Close"%string
            else None
  end.

(** [s[~s.index.duplicated(keep="first")]] *)
Fixpoint drop_duplicated (seen : list Date) (s : Series) : Series :=
  match s with
  | [] => []
  | (d, v) :: t =>
      if existsb (date_eqb d) seen then drop_duplicated seen t
      else (d, v) :: drop_duplicated (d :: seen) t
  end.

(** [sort_index()], on an index without duplicates. *)
Fixpoint insert_by_date {A : Type} (x : Date * A) (l : list (Date * A))
  : list (Date * A) :=
  match l with
  | [] => [x]
  | y :: t =>
      if date_leb (fst x) (fst y) then x :: l else y :: insert_by_date x t
  end.

Definition sort_index {A : Type} (s : list (Date * A)) : list (Date * A) :=
  fold_right insert_by_date [] s.

(** The last two lines of [_series_from_df], on a series whose labels are
    dates and whose values [pd.to_numeric] has read ([NaN] for a value
    it cannot read). *)
Definition clean_series (s : Series) : Series :=
  series_dropna (sort_index (drop_duplicated [] s)).

(** What the function is given: nothing, a series, or a table with
    distinct column labels.  The labels of the index are dates (those
    [pd.to_datetime] reads), and a value is what [pd.to_numeric] makes
    of it. *)
Inductive price_input : Type :=
| NoInput
| SeriesInput (s : Series)
| FrameInput (index : list Date) (columns : list (string * list float)).

Definition _series_from_df (df : price_input) : Series :=
  match df with
  | NoInput => []
  | SeriesInput s =>
      match s with
      | [] => []
      | _ => clean_series s
      end
  | FrameInput index columns =>
      match index with
      | [] => []
      | _ =>
          match pick_column (map fst columns) with
          | None => []
          | Some pick =>
              match assoc pick columns with
              | Some col => clean_series (combine index col)
              | None => []
              end
          end
      end
  end.

(** ** risklab/data.py: returns from prices *)

(** A table of floats, stored by columns over a common index: prices,
    and the returns computed from them. *)
Record FloatFrame : Type := mkFF {
  ff_index : list Date;
  ff_columns : list (string * list float)
}.

Definition ff_empty (f : FloatFrame) : bool :=
  match ff_index f, ff_columns f with
  | [], _ | _, [] => true
  | _, _ => false
  end.

(** [DataFrame.sort_index()], on an index without duplicates: the rows
    in the order of their dates. *)
Definition frame_sort_index (f : FloatFrame) : FloatFrame :=
  let n := length (ff_index f) in
  let order := map snd (sort_index (combine (ff_index f) (seq 0 n))) in
  mkFF (map (fun i => nth i (ff_index f) (mkDate 0 0 0)) order)
       (map (fun c => (fst c, map (fun i => nth i (snd c) NaN) order))
            (ff_columns f)).

(** [col.shift(1)] *)
Definition shift1 (col : list float) : list float :=
  match col with
  | [] => []
  | _ => NaN :: removelast col
  end.

(** [DataFrame.dropna(how="all")]: the rows with a value in some column. *)
Definition row_has_value (cols : list (string * list float)) (t : nat)
  : bool :=
  existsb (fun c => negb (isnan (nth t (snd c) NaN))) cols.

Definition keep_rows {A : Type} (mask : list bool) (l : list A) : list A :=
  map fst (filter snd (combine l mask)).

Definition dropna_all (f : FloatFrame) : FloatFrame :=
  let mask := map (row_has_value (ff_columns f))
                  (seq 0 (length (ff_index f))) in
  mkFF (keep_rows mask (ff_index f))
       (map (fun c => (fst c, keep_rows mask (snd c))) (ff_columns f)).

Section PctReturns.
Context {L : Lib}.

(** [DataFrame.pct_change()], whose treatment of missing prices depends
    on the pandas release. *)
Variable pd_pct_change : FloatFrame -> FloatFrame.

(** [np.log(prices / prices.shift(1))] on one column. *)
Definition log_change (col : list float) : list float :=
  map (fun pq => flog (fst pq / snd pq)%fl) (combine col (shift1 col)).

Definition pct_returns (prices : option FloatFrame) (method : string)
  : FloatFrame :=
  match prices with
  | None => mkFF [] []
  | Some prices =>
      if ff_empty prices then mkFF [] [] else
      let prices := frame_sort_index prices in
      let rets :=
        if String.eqb (str_lower method) "log"
        then mkFF (ff_index prices)
                  (map (fun c => (fst c, log_change (snd c)))
                       (ff_columns prices))
        else pd_pct_change prices in
      dropna_all rets
  end.

End PctReturns.

(** ** Notions of the specification *)

(** A series with its missing entries removed. *)
Definition without_missing (rets : list cell) : list cell :=
  map Some (dropna rets).

(** A degenerate return series: no value at all, or values of zero
    variance. *)
Definition degenerate (rets : list cell) : Prop :=
  dropna rets = [] \/ Qvar0 (dropna rets) == 0.

(** The drawdown path from a running product [acc] and a running
    maximum [m]. *)
Definition drawdown_from (acc : Q) (m : option Q) (xs : list cell)
  : list float :=
  map (fun wp => fsub (fdiv (cell_float (fst wp)) (cell_float (snd wp)))
                      (Fin 1))
      (combine (cumprod_from acc xs) (cummax_from m (cumprod_from acc xs))).

(** Two series with the same index and the same values. *)
Definition series_eq (a b : Series) : Prop :=
  Forall2 (fun x y => fst x = fst y /\ snd x =f= snd y) a b.

(** The wealth path of a column without missing entries. *)
Fixpoint wealth_from (acc : Q) (vals : list Q) : list Q :=
  match vals with
  | [] => []
  | r :: t => acc * (1 + r) :: wealth_from (acc * (1 + r)) t
  end.

(** A rule whose bins are closed and labelled on their last date, as
    seen from the dates of an index: the labels grow with the bins, and
    a date is after the label of every earlier bin. *)
Definition right_labelled (B : Binning) (idx : list Date) : Prop :=
  (forall b b', (b <= b')%Z -> date_le (label B b) (label B b'))
  /\ (forall d b', In d idx -> (b' < bin B d)%Z -> date_lt (label B b') d).

(** The binning a rebalance code stands for. *)
Definition resolves {L : Lib} (rebalance : string) (B : Binning) : Prop :=
  match _to_resample_rule (Some rebalance) with
  | Some rule => pd_rule rule = Some B
  | None => False
  end.

(** The design matrix of the joined rows: the intercept, then the
    factors. *)
Definition design (rows : list (list Q)) : mat := map (cons 1) (map (@tl Q) rows).

(** A vector in the kernel of a matrix. *)
Definition in_kernel (M : mat) (x : list Q) : Prop :=
  Forall (fun r => dot r x == 0) M.

Definition nonzero (x : list Q) : Prop := Exists (fun c => ~ c == 0) x.

(** The columns of a matrix with [k] columns are linearly dependent. *)
Definition dependent (k : nat) (M : mat) : Prop :=
  exists x, length x = k /\ nonzero x /\ in_kernel M x.

Definition same_length (m : nat) (rows : mat) : Prop :=
  Forall (fun r => length r = m) rows.

Definition square (k : nat) (M : mat) : Prop :=
  length M = k /\ same_length k M.

(** The working state of the elimination before column [j]: [j] rows are
    done, and the first [j] columns are those of the identity. *)
Definition reduced (j : nat) (done todo : mat) : Prop :=
  length done = j
  /\ (forall i c, (i < j)%nat -> (c < j)%nat ->
        nth c (nth i done []) 0 == (if (i =? c)%nat then 1 else 0))
  /\ Forall (fun r => forall c, (c < j)%nat -> nth c r 0 == 0) todo.

(** The vector that the elimination finds in the kernel when column [j]
    has no pivot. *)
Definition kernel_vector (k j : nat) (done : mat) : list Q :=
  map (fun c => if (c <? j)%nat then - nth j (nth c done []) 0
                else if (c =? j)%nat then 1 else 0)
      (seq 0 k).

(** The two failures [factor_regression] raises itself. *)
Definition no_overlap : exn :=
  ValueError "No overlapping data between portfolio and factors.".
Definition not_enough : exn :=
  ValueError "Not enough observations for regression.".

(** ** A computable stand-in for the library

    Rational approximations (about twelve digits) of the elementary
    functions, and the pandas moment formulas, so that the definitions
    above can be run on concrete inputs.  No theorem depends on how good
    the approximations are: each is stated for every [Lib]. *)

Definition grid : Q := 1000000000000000000.

Definition round18 (q : Q) : Q := inject_Z (Qfloor (q * grid)) / grid.

Definition approx_sqrt (q : Q) : Q :=
  inject_Z (Z.sqrt (Qfloor (q * grid * grid))) / grid.

Definition ln2 : Q := 0.693147180559945309.

(** [2 * atanh z] by its series, for [0 <= z < 1/3]. *)
Fixpoint atanh2_series (terms : nat) (k : Z) (zk z2 : Q) : Q :=
  match terms with
  | O => 0
  | S t => 2 * zk / inject_Z k
           + atanh2_series t (k + 2) (round18 (zk * z2)) z2
  end.

Definition approx_log (x : Q) : Q :=
  let e := if Qle_bool 1 x then Z.log2 (Qfloor x)
           else (- Z.log2_up (Qceiling (/ x)))%Z in
  let m := x * Qpower 2 (- e) in
  let z := round18 ((m - 1) / (m + 1)) in
  round18 (inject_Z e * ln2 + atanh2_series 20 1 z (round18 (z * z))).

Fixpoint exp_series (terms : nat) (k : Z) (term r : Q) : Q :=
  match terms with
  | O => 0
  | S t => term + exp_series t (k + 1) (round18 (term * r / inject_Z k)) r
  end.

Definition approx_exp (t : Q) : Q :=
  let n := Qfloor (t / ln2) in
  let r := t - inject_Z n * ln2 in
  Qpower 2 n * exp_series 24 1 1 r.

Definition approx_power (x y : Q) : float :=
  if (Qden (Qred y) =? 1)%positive then
    (if Qeq_bool x 0 && Qlt_bool y 0 then PInf
     else Fin (Qpower x (Qnum (Qred y))))
  else if Qlt_bool x 0 then NaN
  else if Qeq_bool x 0 then (if Qlt_bool y 0 then PInf else Fin 0)
  else Fin (approx_exp (y * approx_log x)).

Definition central_moment (p : positive) (v : list Q) : Q :=
  Qmean (map (fun x => Qpower (x - Qmean v) (Z.pos p)) v).

Definition approx_skew (v : list Q) : float :=
  let n := Qlen v in
  let m2 := central_moment 2 v in
  if (length v <? 3)%nat then NaN
  else if Qeq_bool m2 0 then Fin 0
  else Fin (approx_sqrt (n * (n - 1)) / (n - 2)
            * central_moment 3 v / (m2 * approx_sqrt m2)).

Definition approx_kurt (v : list Q) : float :=
  let n := Qlen v in
  let m2 := central_moment 2 v in
  if (length v <? 4)%nat then NaN
  else if Qeq_bool m2 0 then Fin 0
  else Fin ((n - 1) / ((n - 2) * (n - 3))
            * ((n + 1) * central_moment 4 v / (m2 * m2) - 3 * (n - 1))).

(** ["YE"]: calendar years, labelled on 31 December. *)
Definition year_end : Binning :=
  mkBinning year (fun y => mkDate y 12 31).

#[global] Instance approx_lib : Lib := {|
  np_sqrt := approx_sqrt;
  np_log := approx_log;
  np_power := approx_power;
  pd_skew := approx_skew;
  pd_kurt := approx_kurt;
  np_quantile_empty := Raise IndexError;
  np_lstsq_deficient := fun X _ => map (fun _ => 0) (hd [] X);
  pd_offset := fun rule => if String.eqb rule "YE" then Some year_end else None
|}.

(** ** Binary64 evaluation

    NumPy computes on IEEE 754 binary64 numbers.  A few answers of the
    code turn on a rounding: the mean of three equal values that is not
    that value, a complement [1 - p] that is [1.0].  The functions
    concerned are given here a second time, on Rocq's primitive floats,
    whose operations are those of the hardware, so that the code can be
    evaluated on such inputs.  A missing entry of a series is a NaN. *)

Module B64.
#[local] Set Warnings "-inexact-float,-notation-overridden".
Import PrimFloat.
#[local] Open Scope float_scope.

(** An integer, and a fraction, rounded to binary64; the rational value
    of a finite binary64 number. *)
Definition of_Z (z : Z) : float :=
  FloatOps.SF2Prim
    (SpecFloat.binary_normalize FloatOps.prec FloatOps.emax z 0 false).

Definition of_Q (q : Q) : float := of_Z (Qnum q) / of_Z (Z.pos (Qden q)).

Definition to_Q (x : float) : Q :=
  match FloatOps.Prim2SF x with
  | SpecFloat.S754_finite s m e =>
      (inject_Z (if s then Z.neg m else Z.pos m) * Qpower 2 e)%Q
  | _ => 0%Q
  end.

Section Evaluation.
Context {L : Lib}.

(** [np.log]: the logarithm of the library, rounded; [np.sqrt] is the
    square root of IEEE 754, [sqrt]. *)
Definition log (x : float) : float :=
  if is_nan x || (x <? 0) then nan
  else if x =? 0 then neg_infinity
  else if x =? infinity then infinity
  else of_Q (np_log (Qred (to_Q x))).

Definition dropna (xs : list float) : list float :=
  filter (fun x => negb (is_nan x)) xs.

(** [Series.sum()]: NumPy adds fewer than eight values from left to
    right. *)
Definition sum (v : list float) : float := fold_left add v 0.

Definition count (v : list float) : float := of_Z (Z.of_nat (length v)).

(** [Series.mean()] and [Series.std(ddof=0)]: the sum over the count,
    and the root of the mean squared deviation from that mean. *)
Definition mean (xs : list float) : float :=
  match dropna xs with
  | [] => nan
  | v => sum v / count v
  end.

Definition std0 (xs : list float) : float :=
  match dropna xs with
  | [] => nan
  | v =>
      let avg := sum v / count v in
      let sqr := map (fun x => (avg - x) * (avg - x)) v in
      sqrt (sum sqr / count v)
  end.

Definition sharpe (rets : list float) (rf periods_per_year : float)
  : result float :=
  if periods_per_year =? 0 then Raise ZeroDivisionError else
  let excess := map (fun x => x - rf / periods_per_year) rets in
  let vol := std0 excess * sqrt periods_per_year in
  if vol =? 0 then Ok nan
  else Ok (mean excess * periods_per_year / vol).

Definition ppf_a : list float :=
  [-3.969683028665376e+01; 2.209460984245205e+02; -2.759285104469687e+02;
   1.383577518672690e+02; -3.066479806614716e+01; 2.506628277459239e+00].
Definition ppf_b : list float :=
  [-5.447609879822406e+01; 1.615858368580409e+02; -1.556989798598866e+02;
   6.680131188771972e+01; -1.328068155288572e+01].
Definition ppf_c : list float :=
  [-7.784894002430293e-03; -3.223964580411365e-01; -2.400758277161838e+00;
   -2.549732539343734e+00; 4.374664141464968e+00; 2.938163982698783e+00].
Definition ppf_d : list float :=
  [7.784695709041462e-03; 3.224671290700398e-01; 2.445134137142996e+00;
   3.754408661907416e+00].

Definition item (l : list float) (i : nat) : float := nth i l 0.

Definition _norm_ppf (p : float) : float :=
  if p <=? 0 then neg_infinity else
  if 1 <=? p then infinity else
  let a := item ppf_a in
  let b := item ppf_b in
  let c := item ppf_c in
  let d := item ppf_d in
  let plow := 0.02425 in
  let phigh := 1 - 0.02425 in
  if p <? plow then
    let q := sqrt (-2 * log p) in
    (((((c 0%nat * q + c 1%nat) * q + c 2%nat) * q + c 3%nat) * q
      + c 4%nat) * q + c 5%nat)
    / ((((d 0%nat * q + d 1%nat) * q + d 2%nat) * q + d 3%nat) * q + 1)
  else if phigh <? p then
    let q := sqrt (-2 * log (1 - p)) in
    - (((((c 0%nat * q + c 1%nat) * q + c 2%nat) * q + c 3%nat) * q
        + c 4%nat) * q + c 5%nat)
    / ((((d 0%nat * q + d 1%nat) * q + d 2%nat) * q + d 3%nat) * q + 1)
  else
    let q := p - 0.5 in
    let r := q * q in
    (((((a 0%nat * r + a 1%nat) * r + a 2%nat) * r + a 3%nat) * r
      + a 4%nat) * r + a 5%nat) * q
    / (((((b 0%nat * r + b 1%nat) * r + b 2%nat) * r + b 3%nat) * r
        + b 4%nat) * r + 1).

Fixpoint insert (x : float) (l : list float) : list float :=
  match l with
  | [] => [x]
  | y :: t => if x <=? y then x :: l else y :: insert x t
  end.

Definition sort (l : list float) : list float := fold_right insert [] l.

Definition floor (h : float) : Z := Qfloor (to_Q h).

(** NumPy's interpolation between two order statistics. *)
Definition _lerp (a b t : float) : float :=
  let diff_b_a := b - a in
  if 0.5 <=? t then b - diff_b_a * (1 - t) else a + diff_b_a * t.

(** [np.quantile(a, q)] with the linear method; on an empty sample it
    raises what the library raises, and returns NaN otherwise. *)
Definition np_quantile (a : list float) (q : float) : result float :=
  if negb ((0 <=? q) && (q <=? 1)) then
    Raise (ValueError "Quantiles must be in the range [0, 1]")
  else
    match a with
    | [] => _ <- np_quantile_empty ;; Ok nan
    | _ =>
        let s := sort a in
        let n := length s in
        let h := of_Z (Z.of_nat (n - 1)) * q in
        let lo := Z.to_nat (floor h) in
        let hi := Nat.min (lo + 1) (n - 1) in
        let gamma := h - of_Z (floor h) in
        Ok (_lerp (nth lo s nan) (nth hi s nan) gamma)
    end.

Definition var_historical (rets : list float) (alpha : float)
  : result float :=
  let r := dropna rets in
  np_quantile r (1 - alpha).

Definition cvar_historical (rets : list float) (alpha : float)
  : result float :=
  q <- var_historical rets alpha ;;
  let tail := filter (fun x => x <=? q) (dropna rets) in
  Ok (match tail with
      | [] => nan
      | _ => mean tail
      end).

End Evaluation.

End B64.

(** ** Sample data *)

Definition sample_returns : DataFrame :=
  mkDF [mkDate 2024 1 2; mkDate 2024 1 3; mkDate 2024 1 4]
       [("XLE", [Some 0.5; Some 0.25; Some (-0.5)]);
        ("SPY", [Some 0.01; None; Some 0.02])]%string.

Definition calendar_2024 : DataFrame :=
  mkDF [mkDate 2024 1 30; mkDate 2024 1 31; mkDate 2024 2 1; mkDate 2024 2 2]
       [("XLE", [Some 0.5; Some 0.5; Some 0.25; Some 0.25])]%string.

Definition flat_factor : DataFrame :=
  mkDF [mkDate 2024 1 2; mkDate 2024 1 3; mkDate 2024 1 4]
       [("OIL", [Some 0; Some 0; Some 0])]%string.

Definition moving_factor : DataFrame :=
  mkDF [mkDate 2024 1 2; mkDate 2024 1 3; mkDate 2024 1 4; mkDate 2024 1 5]
       [("OIL", [Some 0.01; Some (-0.02); Some 0.03; Some 0.05])]%string.

(** [y = 2 + 3 x] on the first three dates of [moving_factor]; the
    fourth is missing. *)
Definition exact_line : list (Date * cell) :=
  [(mkDate 2024 1 2, Some 2.03); (mkDate 2024 1 3, Some 1.94);
   (mkDate 2024 1 4, Some 2.09); (mkDate 2024 1 5, None)].

Definition three_days : list (Date * cell) :=
  [(mkDate 2024 1 2, Some 0.01); (mkDate 2024 1 3, Some 0.02);
   (mkDate 2024 1 4, Some 0.03)].

(** ** Notions of the further properties *)

(** Every row [(a | g)] that the elimination works on satisfies
    [a . v = g . (M v)]: it is in the kernel of the vector below. *)
Definition inverse_probe (M : mat) (v : list Q) : list Q :=
  v ++ map Qopp (matvec M v).

(** The total sum of squares of the regressand, the denominator of R2. *)
Definition total_sum_squares (y : list Q) : Q :=
  Qsum (map (fun v => (v - Qmean y) * (v - Qmean y)) y).

(** The regressors of a model other than the intercept. *)
Definition factor_names (params : list (string * Q)) : list string :=
  filter (fun k => negb (String.eqb k "const")) (map fst params).

(** An entry of a drawdown path: missing where the return is missing,
    and otherwise a loss of less than 100% from the running peak. *)
Definition drawdown_entry (c : cell) (d : float) : Prop :=
  match c with
  | None => d = NaN
  | Some _ => exists v, d = Fin v /\ -1 < v /\ v <= 0
  end.

(** A symmetric sample without excess kurtosis. *)
Definition mesokurtic_returns : list cell :=
  [Some (-0.03); Some (-0.01); Some (-0.01); Some (-0.01);
   Some 0.01; Some 0.01; Some 0.01; Some 0.03].

(** The portfolio return of one period: the compounded return of each
    column over the bin, weighted. *)
Definition period_return (B : Binning) (idx : list Date)
  (cols : list (Q * list cell)) (b : Z) : Q :=
  Qsum (map (fun wc => compound_in_bin B idx (snd wc) b * fst wc) cols).

(** The labels of a binning grow strictly with the bins. *)
Definition strictly_labelled (B : Binning) : Prop :=
  forall b b', (b < b')%Z -> date_lt (label B b) (label B b').

(** Two weight vectors with the same symbols and the same weights. *)
Definition weights_eq (a b : weights) : Prop :=
  Forall2 (fun x y => fst x = fst y /\ snd x == snd y) a b.

(** A weight vector with every weight multiplied by [c]. *)
Definition scale_weights (c : Q) (w : weights) : weights :=
  map (fun kv => (fst kv, c * snd kv)) w.

(** The series [a + c x]: missing where [x] is. *)
Definition affine_series (a c : Q) (x : list cell) : list cell :=
  map (option_map (fun q => a + c * q)) x.

(** Two entries of a series in the order of their dates. *)
Definition dated_before {A : Type} (a b : Date * A) : Prop :=
  date_lt (fst a) (fst b).

(** [out] holds, for each date of [src], the first value [src] has on
    that date, unless that value is [NaN]; and nothing else. *)
Definition first_prices (src out : Series) : Prop :=
  (forall d v, In (d, v) out -> lookup_date d src = Some v /\ v <> NaN)
  /\ (forall d v, lookup_date d src = Some v -> v <> NaN ->
        exists d', date_eqb d d' = true /\ In (d', v) out).

(** The log returns of a path of prices after the price [prev]. *)
Fixpoint log_path {L : Lib} (prev : float) (col : list float) : list float :=
  match col with
  | [] => []
  | p :: t => flog (p / prev)%fl :: log_path p t
  end.

(** Three daily closes of two symbols. *)
Definition sample_prices : FloatFrame :=
  mkFF [mkDate 2024 1 2; mkDate 2024 1 3; mkDate 2024 1 4]
       [("SPY", [Fin 100; Fin 110; Fin 99]);
        ("XLE", [Fin 50; Fin 50; Fin 55])]%string.

(** A column of positive prices. *)
Definition positive_prices (col : list float) : Prop :=
  Forall (fun p => exists q, p = Fin q /\ 0 < q) col.

(** The residual of a joined row under the coefficients [b]. *)
Definition residual (b : list Q) (row : list Q) : Q :=
  hd 0 row - dot (1 :: tl row) b.

(** * Properties *)

(** ** Comparisons and float equality *)

Lemma Qlt_bool_iff (a b : Q) : Qlt_bool a b = true <-> a < b.
Proof.
  unfold Qlt_bool. rewrite negb_true_iff.
  split; intro H.
  - apply Qnot_le_lt. intro Hle. apply Qle_bool_iff in Hle. congruence.
  - destruct (Qle_bool b a) eqn:E; [|reflexivity].
    apply Qle_bool_iff in E. exfalso. apply (Qlt_not_le _ _ H E).
Qed.

Lemma Qeq_bool_false (a b : Q) : Qeq_bool a b = false <-> ~ a == b.
Proof.
  split.
  - intros H Hab. apply Qeq_bool_iff in Hab. congruence.
  - intro H. destruct (Qeq_bool a b) eqn:E; [|reflexivity].
    apply Qeq_bool_iff in E. contradiction.
Qed.

Lemma Qle_bool_false (a b : Q) : Qle_bool a b = false <-> b < a.
Proof.
  rewrite <- Qlt_bool_iff. unfold Qlt_bool.
  destruct (Qle_bool a b); simpl; split; congruence.
Qed.

Lemma Ok_inj {A : Type} (a b : A) : Ok a = Ok b -> a = b.
Proof. intro H. injection H as H. exact H. Qed.

Lemma Fin_inj (a b : Q) : Fin a = Fin b -> a = b.
Proof. intro H. injection H as H. exact H. Qed.

Lemma feq_refl (a : float) : a =f= a.
Proof. destruct a; simpl; auto. reflexivity. Qed.

Lemma feq_sym (a b : float) : a =f= b -> b =f= a.
Proof. destruct a, b; simpl; auto. intro H. symmetry. exact H. Qed.

Lemma feq_trans (a b c : float) : a =f= b -> b =f= c -> a =f= c.
Proof.
  destruct a, b, c; simpl; auto; try contradiction.
  intros H1 H2. rewrite H1. exact H2.
Qed.

#[global] Instance feq_Equivalence : Equivalence feq.
Proof.
  split.
  - exact feq_refl.
  - exact feq_sym.
  - exact feq_trans.
Qed.

(** ** Sums *)

Lemma Qsum_app (u v : list Q) : Qsum (u ++ v) == Qsum u + Qsum v.
Proof.
  induction u as [|x u IH]; simpl.
  - ring.
  - rewrite IH. ring.
Qed.

Lemma Qsum_scale (c : Q) (v : list Q) :
  Qsum (map (fun x => x / c) v) == Qsum v / c.
Proof.
  unfold Qdiv.
  induction v as [|x v IH]; simpl.
  - ring.
  - rewrite IH. ring.
Qed.

Lemma Qsum_nonneg (v : list Q) : Forall (fun x => 0 <= x) v -> 0 <= Qsum v.
Proof.
  induction 1 as [|x v Hx _ IH]; simpl.
  - apply Qle_refl.
  - lra.
Qed.

Lemma Qsum_zero_all_zero (v : list Q) :
  Forall (fun x => 0 <= x) v -> Qsum v == 0 -> Forall (fun x => x == 0) v.
Proof.
  induction 1 as [|x v Hx Hv IH]; simpl; intro Hs.
  - constructor.
  - pose proof (Qsum_nonneg v Hv) as Hpos.
    constructor.
    + lra.
    + apply IH. lra.
Qed.

(** ** normalize_weights *)

Lemma wsum_normalized (w : weights) (t : Q) :
  wsum (map (fun kv => (fst kv, snd kv / t)) w) == wsum w / t.
Proof.
  unfold wsum. rewrite map_map. simpl.
  rewrite <- (Qsum_scale t (map snd w)). rewrite map_map. reflexivity.
Qed.

Lemma normalize_weights_total (w : weights) :
  ~ wsum w == 0 -> wsum (normalize_weights w) == 1.
Proof.
  intro Hne. unfold normalize_weights.
  apply Qeq_bool_false in Hne. rewrite Hne. simpl.
  rewrite wsum_normalized. apply Qeq_bool_false in Hne. field. exact Hne.
Qed.

Lemma normalize_weights_zero_total (w : weights) :
  wsum w == 0 -> normalize_weights w = w.
Proof.
  intro Hz. unfold normalize_weights.
  apply Qeq_bool_iff in Hz. rewrite Hz. reflexivity.
Qed.

(** C2.  Whenever the sum of the weights is not zero, the normalized
    weights sum to 1 (here exactly, hence within 1e-9).  When the sum is
    zero the weights are returned as they are: for a weight vector of
    the data model, whose weights are non-negative, every one of them is
    zero. *)
Theorem normalize_weights_sum (w : weights) :
  (~ wsum w == 0 -> Qabs (wsum (normalize_weights w) - 1) <= 1e-9)
  /\ (wsum w == 0 -> normalize_weights w = w)
  /\ (Forall (fun kv => 0 <= snd kv) w -> wsum w == 0 ->
      Forall (fun kv => snd kv == 0) (normalize_weights w)).
Proof.
  split; [|split].
  - intro H. rewrite (normalize_weights_total w H).
    setoid_replace (1 - 1) with 0 by ring. simpl. discriminate.
  - apply normalize_weights_zero_total.
  - intros Hnonneg H. rewrite (normalize_weights_zero_total w H).
    pose proof (Qsum_zero_all_zero (map snd w)) as Hall.
    rewrite !Forall_map in Hall. apply Hall; assumption.
Qed.

(** The weights of the docstring of [allocate_static], and a vector of
    zeros. *)
Lemma normalize_weights_sum_witness :
  Qabs (wsum (normalize_weights
                [("IMO.TO", 0.4); ("SU.TO", 0.3); ("XLE", 0.3)]%string) - 1)
  <= 1e-9
  /\ Forall (fun kv => snd kv == 0)
            (normalize_weights [("SPY", 0); ("XLE", 0)]%string).
Proof.
  split.
  - apply (proj1 (normalize_weights_sum _)). discriminate.
  - apply (proj2 (proj2 (normalize_weights_sum _))).
    + repeat constructor; discriminate.
    + reflexivity.
Defined.

(** ** The inverse-normal approximator *)

Section NormPpf.
Context {L : Lib}.

Lemma Qlt_bool_compat (a a' b b' : Q) :
  a == a' -> b == b' -> Qlt_bool a b = Qlt_bool a' b'.
Proof. intros Ha Hb. unfold Qlt_bool. rewrite Ha, Hb. reflexivity. Qed.

Lemma flog_compat (x y : Q) : x == y -> flog (Fin x) = flog (Fin y).
Proof.
  intro H. unfold flog.
  rewrite (Qlt_bool_compat x y 0 0 H (Qeq_refl 0)).
  rewrite (Qred_complete x y H).
  assert (E : Qeq_bool x 0 = Qeq_bool y 0) by (rewrite H; reflexivity).
  rewrite E. reflexivity.
Qed.

Lemma fdiv_compat (a a' b b' : float) :
  a =f= a' -> b =f= b' -> fdiv a b =f= fdiv a' b'.
Proof.
  destruct a, a', b, b'; simpl; try contradiction; auto; intros Ha Hb.
  - assert (E1 : Qeq_bool q1 0 = Qeq_bool q2 0) by (rewrite Hb; reflexivity).
    assert (E2 : Qeq_bool q 0 = Qeq_bool q0 0) by (rewrite Ha; reflexivity).
    rewrite (Qlt_bool_compat 0 0 q q0 (Qeq_refl 0) Ha).
    rewrite E1, E2.
    destruct (Qeq_bool q2 0) eqn:Ez.
    + destruct (Qeq_bool q0 0); [exact I|]. apply feq_refl.
    + simpl. rewrite Ha, Hb. reflexivity.
  - reflexivity.
  - reflexivity.
  - rewrite Hb. apply feq_refl.
  - rewrite Hb. apply feq_refl.
Qed.

Lemma fneg_fdiv_fneg (n d : float) : fneg (fdiv (fneg n) d) =f= fdiv n d.
Proof.
  destruct n as [x| | |], d as [y| | |]; simpl; auto; try reflexivity.
  - assert (E : Qeq_bool (- x) 0 = Qeq_bool x 0).
    { destruct (Qeq_bool x 0) eqn:E0.
      - apply Qeq_bool_iff in E0. apply Qeq_bool_iff. rewrite E0. reflexivity.
      - apply Qeq_bool_false in E0. apply Qeq_bool_false. intro H. apply E0. lra. }
    rewrite E.
    destruct (Qeq_bool y 0) eqn:Ey.
    + destruct (Qeq_bool x 0) eqn:Ex; [exact I|].
      apply Qeq_bool_false in Ex.
      destruct (Qlt_bool 0 x) eqn:Hx.
      * apply Qlt_bool_iff in Hx.
        assert (Hn : Qlt_bool 0 (- x) = false).
        { destruct (Qlt_bool 0 (- x)) eqn:Hn; [|reflexivity].
          apply Qlt_bool_iff in Hn. lra. }
        rewrite Hn. exact I.
      * assert (Hn : Qlt_bool 0 (- x) = true).
        { apply Qlt_bool_iff.
          destruct (Qlt_le_dec 0 x) as [Hp|Hp].
          - apply Qlt_bool_iff in Hp. congruence.
          - destruct (Qeq_dec x 0); [contradiction|]. lra. }
        rewrite Hn. exact I.
    + simpl. apply Qeq_bool_false in Ey. field. exact Ey.
  - destruct (Qle_bool 0 y); exact I.
  - destruct (Qle_bool 0 y); exact I.
Qed.

Lemma fneg_involutive_feq (a b : float) : fneg a =f= b -> a =f= fneg b.
Proof.
  destruct a, b; simpl; auto. intro H. lra.
Qed.

Lemma ppf_central_odd (q q' : Q) :
  q' == - q ->
  fst (ppf_central q') == - fst (ppf_central q)
  /\ snd (ppf_central q') == snd (ppf_central q).
Proof.
  intro H. unfold ppf_central. cbn [fst snd].
  generalize (item ppf_a 0), (item ppf_a 1), (item ppf_a 2), (item ppf_a 3),
    (item ppf_a 4), (item ppf_a 5), (item ppf_b 0), (item ppf_b 1),
    (item ppf_b 2), (item ppf_b 3), (item ppf_b 4).
  intros a0 a1 a2 a3 a4 a5 b0 b1 b2 b3 b4.
  rewrite H. split; ring.
Qed.

Lemma norm_ppf_lower (p : Q) :
  0 < p -> p < plow ->
  _norm_ppf p
  = (let q := fsqrt (Fin (-2) * flog (Fin p))%fl in
     fst (ppf_tail q) / snd (ppf_tail q))%fl.
Proof.
  intros H0 H1. unfold _norm_ppf.
  assert (E0 : Qle_bool p 0 = false) by (apply Qle_bool_false; exact H0).
  assert (E1 : Qle_bool 1 p = false).
  { apply Qle_bool_false. unfold plow in H1. lra. }
  apply Qlt_bool_iff in H1.
  rewrite E0, E1, H1. reflexivity.
Qed.

Lemma norm_ppf_upper (p : Q) :
  phigh < p -> p < 1 ->
  _norm_ppf p
  = (let q := fsqrt (Fin (-2) * flog (Fin (1 - p)))%fl in
     - fst (ppf_tail q) / snd (ppf_tail q))%fl.
Proof.
  intros H0 H1. unfold _norm_ppf.
  assert (E0 : Qle_bool p 0 = false).
  { apply Qle_bool_false. unfold phigh in H0. lra. }
  assert (E1 : Qle_bool 1 p = false) by (apply Qle_bool_false; exact H1).
  assert (E2 : Qlt_bool p plow = false).
  { destruct (Qlt_bool p plow) eqn:E; [|reflexivity].
    apply Qlt_bool_iff in E. unfold plow in E. unfold phigh in H0. lra. }
  apply Qlt_bool_iff in H0.
  rewrite E0, E1, E2, H0. reflexivity.
Qed.

Lemma norm_ppf_central (p : Q) :
  plow <= p -> p <= phigh ->
  _norm_ppf p
  = (Fin (fst (ppf_central (p - 0.5))) / Fin (snd (ppf_central (p - 0.5))))%fl.
Proof.
  intros H0 H1. unfold _norm_ppf.
  assert (E0 : Qle_bool p 0 = false).
  { apply Qle_bool_false. unfold plow in H0. lra. }
  assert (E1 : Qle_bool 1 p = false).
  { apply Qle_bool_false. unfold phigh in H1. lra. }
  assert (E2 : Qlt_bool p plow = false).
  { destruct (Qlt_bool p plow) eqn:E; [|reflexivity].
    apply Qlt_bool_iff in E. lra. }
  assert (E3 : Qlt_bool phigh p = false).
  { destruct (Qlt_bool phigh p) eqn:E; [|reflexivity].
    apply Qlt_bool_iff in E. lra. }
  rewrite E0, E1, E2, E3. reflexivity.
Qed.

(** The value at [p] and the value at an exact complement [p'] of [p]
    are opposite. *)
Lemma norm_ppf_complement (p p' : Q) :
  0 < p -> p < 1 -> p + p' == 1 -> _norm_ppf p =f= fneg (_norm_ppf p').
Proof.
  intros H0 H1 Hsum.
  assert (Hpl : plow == 0.02425) by reflexivity.
  assert (Hph : phigh == 1 - 0.02425) by reflexivity.
  destruct (Qlt_le_dec p plow) as [Hlow|Hlow].
  - rewrite (norm_ppf_lower p H0 Hlow).
    rewrite (norm_ppf_upper p') by lra.
    cbv zeta.
    rewrite (flog_compat (1 - p') p) by lra.
    symmetry. apply fneg_fdiv_fneg.
  - destruct (Qlt_le_dec phigh p) as [Hhigh|Hhigh].
    + rewrite (norm_ppf_upper p Hhigh H1).
      rewrite (norm_ppf_lower p') by lra.
      cbv zeta.
      rewrite (flog_compat (1 - p) p') by lra.
      apply fneg_involutive_feq. apply fneg_fdiv_fneg.
    + rewrite (norm_ppf_central p Hlow Hhigh).
      rewrite (norm_ppf_central p') by lra.
      destruct (ppf_central_odd (p - 0.5) (p' - 0.5)) as [Hn Hd]; [lra|].
      apply feq_sym.
      etransitivity; [|apply (fneg_fdiv_fneg (Fin (fst (ppf_central (p - 0.5)))))].
      assert (Hx : forall a b, a =f= b -> fneg a =f= fneg b).
      { intros [] []; simpl; auto. intro H. rewrite H. reflexivity. }
      apply Hx. apply fdiv_compat; simpl; assumption.
Qed.

Lemma norm_ppf_boundaries (p : Q) :
  (p <= 0 -> _norm_ppf p = NInf) /\ (1 <= p -> _norm_ppf p = PInf).
Proof.
  unfold _norm_ppf. split; intro H.
  - apply Qle_bool_iff in H. rewrite H. reflexivity.
  - assert (E : Qle_bool p 0 = false) by (apply Qle_bool_false; lra).
    apply Qle_bool_iff in H. rewrite E, H. reflexivity.
Qed.


End NormPpf.


Section NormPpfBinary64.
#[local] Set Warnings "-inexact-float,-notation-overridden".
Import PrimFloat.


End NormPpfBinary64.

(** ** Order statistics *)

Lemma Qinsert_In (x y : Q) (l : list Q) :
  In y (Qinsert x l) <-> y = x \/ In y l.
Proof.
  induction l as [|z l IH]; simpl.
  - split; intros [H|H]; auto.
  - destruct (Qle_bool x z); simpl.
    + split; intros [H|H]; auto.
    + rewrite IH. split; intros [H|[H|H]]; auto.
Qed.

Lemma Qinsert_length (x : Q) (l : list Q) :
  length (Qinsert x l) = S (length l).
Proof.
  induction l as [|z l IH]; simpl; [reflexivity|].
  destruct (Qle_bool x z); simpl; congruence.
Qed.

Lemma Qinsert_sorted (x : Q) (l : list Q) :
  StronglySorted Qle l -> StronglySorted Qle (Qinsert x l).
Proof.
  induction 1 as [|z l Hs IH Hz]; simpl.
  - constructor; constructor.
  - destruct (Qle_bool x z) eqn:E.
    + apply Qle_bool_iff in E.
      constructor; [constructor; assumption|].
      constructor; [exact E|].
      eapply Forall_impl; [|exact Hz].
      intros a Ha. apply Qle_trans with z; assumption.
    + apply Qle_bool_false in E.
      constructor; [exact IH|].
      apply Forall_forall. intros a Ha.
      apply Qinsert_In in Ha. destruct Ha as [->|Ha].
      * apply Qlt_le_weak. exact E.
      * rewrite Forall_forall in Hz. apply Hz. exact Ha.
Qed.

Lemma Qsort_In (y : Q) (l : list Q) : In y (Qsort l) <-> In y l.
Proof.
  induction l as [|x l IH]; simpl; [tauto|].
  rewrite Qinsert_In, IH. split; intros [H|H]; auto.
Qed.

Lemma Qsort_length (l : list Q) : length (Qsort l) = length l.
Proof.
  induction l as [|x l IH]; simpl; [reflexivity|].
  rewrite Qinsert_length. congruence.
Qed.

Lemma Qsort_sorted (l : list Q) : StronglySorted Qle (Qsort l).
Proof.
  induction l as [|x l IH]; simpl.
  - constructor.
  - apply Qinsert_sorted. exact IH.
Qed.

Lemma sorted_nth_le (s : list Q) :
  StronglySorted Qle s ->
  forall i j, (i <= j < length s)%nat -> nth i s 0 <= nth j s 0.
Proof.
  induction 1 as [|x s Hs IH Hx]; simpl; intros i j Hij; [lia|].
  destruct i as [|i], j as [|j]; try lia.
  - apply Qle_refl.
  - rewrite Forall_forall in Hx. apply Hx. apply nth_In. lia.
  - apply IH. lia.
Qed.

(** The linear quantile of a non-empty sample lies between its order
    statistics: in particular it is not below the minimum. *)
Lemma np_quantile_value {L : Lib} (a : list Q) (q : Q) :
  a <> [] -> 0 <= q -> q <= 1 ->
  exists v m,
    np_quantile a q = Ok (Fin v)
    /\ In m a /\ Forall (fun y => m <= y) a /\ m <= v.
Proof.
  intros Hne H0 H1. unfold np_quantile.
  apply Qle_bool_iff in H0 as E0. apply Qle_bool_iff in H1 as E1.
  rewrite E0, E1. simpl negb. cbv iota.
  destruct a as [|x a]; [congruence|].
  set (s := Qsort (x :: a)).
  set (n := length s).
  set (N := inject_Z (Z.of_nat (n - 1))).
  set (h := N * q).
  assert (Hsorted : StronglySorted Qle s) by apply Qsort_sorted.
  assert (Hn : n = S (length a)).
  { unfold n, s. rewrite Qsort_length. reflexivity. }
  assert (HN : 0 <= N).
  { unfold N. change 0 with (inject_Z 0). rewrite <- Zle_Qle. lia. }
  assert (Hh0 : 0 <= h) by (unfold h; nra).
  assert (Hh1 : h <= N) by (unfold h; nra).
  assert (Hf0 : (0 <= Qfloor h)%Z).
  { change 0%Z with (Qfloor 0). apply Qfloor_resp_le. exact Hh0. }
  assert (Hf1 : (Qfloor h <= Z.of_nat (n - 1))%Z).
  { rewrite <- (Qfloor_Z (Z.of_nat (n - 1))). apply Qfloor_resp_le. exact Hh1. }
  set (lo := Z.to_nat (Qfloor h)).
  set (hi := Nat.min (lo + 1) (n - 1)).
  set (gamma := h - inject_Z (Qfloor h)).
  assert (Hlo : (lo <= n - 1)%nat) by (unfold lo; lia).
  assert (Hg : 0 <= gamma).
  { unfold gamma. pose proof (Qfloor_le h). lra. }
  assert (Hlohi : nth lo s 0 <= nth hi s 0).
  { apply sorted_nth_le; [exact Hsorted|]. fold n. unfold hi. lia. }
  assert (Hmin : nth 0 s 0 <= nth lo s 0).
  { apply sorted_nth_le; [exact Hsorted|]. fold n. lia. }
  exists (nth lo s 0 + (nth hi s 0 - nth lo s 0) * gamma), (nth 0 s 0).
  split; [reflexivity|].
  split; [|split].
  - apply (Qsort_In _ (x :: a)). apply nth_In. fold s. fold n. lia.
  - apply Forall_forall. intros y Hy.
    apply (Qsort_In _ (x :: a)) in Hy. fold s in Hy.
    destruct (In_nth s y 0 Hy) as [j [Hj <-]].
    apply sorted_nth_le; [exact Hsorted|]. lia.
  - assert (Hp : 0 <= (nth hi s 0 - nth lo s 0) * gamma).
    { apply Qmult_le_0_compat; [lra|exact Hg]. }
    lra.
Qed.

(** ** Historical VaR and CVaR *)

Lemma Qsum_le_bound (v : list Q) (b : Q) :
  Forall (fun x => x <= b) v -> Qsum v <= Qlen v * b.
Proof.
  unfold Qlen.
  induction 1 as [|x v Hx _ IH].
  - cbn [length Qsum fold_right Z.of_nat]. change (inject_Z 0) with 0.
    rewrite Qmult_0_l. apply Qle_refl.
  - cbn [length Qsum fold_right]. fold (Qsum v).
    rewrite Nat2Z.inj_succ. unfold Z.succ. rewrite inject_Z_plus.
    change (inject_Z 1) with 1. lra.
Qed.

Lemma Qlen_pos (v : list Q) : v <> [] -> 0 < Qlen v.
Proof.
  destruct v as [|x v]; [congruence|]. intros _.
  unfold Qlen. change 0 with (inject_Z 0). rewrite <- Zlt_Qlt.
  simpl length. lia.
Qed.

Lemma Qmean_le_bound (v : list Q) (b : Q) :
  v <> [] -> Forall (fun x => x <= b) v -> Qmean v <= b.
Proof.
  intros Hne Hb. unfold Qmean.
  pose proof (Qlen_pos v Hne) as Hpos.
  pose proof (Qsum_le_bound v b Hb) as Hs.
  apply Qle_shift_div_r; [exact Hpos|]. lra.
Qed.

Section Historical.
Context {L : Lib}.

Lemma historical_tail (rets : list cell) (alpha : Q) :
  dropna rets <> [] -> 0 < alpha -> alpha < 1 ->
  exists v m,
    var_historical rets alpha = Ok (Fin v)
    /\ In m (dropna rets) /\ Forall (fun y => m <= y) (dropna rets) /\ m <= v
    /\ filter (fun x => fleb (Fin x) (Fin v)) (dropna rets) <> []
    /\ cvar_historical rets alpha
       = Ok (Fin (Qmean (filter (fun x => fleb (Fin x) (Fin v))
                                (dropna rets)))).
Proof.
  intros Hne Ha0 Ha1.
  destruct (np_quantile_value (dropna rets) (1 - alpha) Hne)
    as (v & m & Hq & Hin & Hmin & Hmv); [lra|lra|].
  exists v, m.
  assert (Htail : filter (fun x => fleb (Fin x) (Fin v)) (dropna rets) <> []).
  { intro Hnil.
    assert (Hm : In m (filter (fun x => fleb (Fin x) (Fin v)) (dropna rets))).
    { apply filter_In. split; [exact Hin|]. simpl. apply Qle_bool_iff. exact Hmv. }
    rewrite Hnil in Hm. exact Hm. }
  repeat split; try assumption.
  unfold cvar_historical. unfold var_historical in *. rewrite Hq. unfold bind.
  destruct (filter (fun x => fleb (Fin x) (Fin v)) (dropna rets)) eqn:E;
    [congruence|reflexivity].
Qed.

(** C10.  With at least one non-missing return and a confidence level in
    (0,1), the smallest observation is at or below the historical VaR, so
    the tail of [cvar_historical] is not empty: it holds that
    observation, and the function returns the mean of the tail, never
    the sentinel. *)
Theorem cvar_tail_nonempty (rets : list cell) (alpha : Q)
  (Hne : dropna rets <> []) (Ha : 0 < alpha /\ alpha < 1) :
  exists v m,
    var_historical rets alpha = Ok (Fin v)
    /\ In m (dropna rets) /\ Forall (fun y => m <= y) (dropna rets) /\ m <= v
    /\ (let tail := filter (fun x => fleb (Fin x) (Fin v)) (dropna rets) in
        tail <> [] /\ In m tail
        /\ cvar_historical rets alpha = Ok (Fin (Qmean tail))).
Proof.
  destruct Ha as [Ha0 Ha1].
  destruct (historical_tail rets alpha Hne Ha0 Ha1)
    as (v & m & Hv & Hin & Hmin & Hmv & Htail & Hc).
  exists v, m. cbv zeta. repeat split; try assumption.
  apply filter_In. split; [exact Hin|].
  simpl. apply Qle_bool_iff. exact Hmv.
Qed.

(** C3 (amended).  On a series with at least one non-missing return, and
    for a confidence level in (0,1), the historical CVaR is the mean of
    the observations at or below the historical VaR; there is such an
    observation, none of them is above the VaR, and so their exact mean
    is not above it. *)
Theorem cvar_le_var (rets : list cell) (alpha : Q)
  (Hne : dropna rets <> []) (Ha : 0 < alpha /\ alpha < 1) :
  exists v,
    var_historical rets alpha = Ok (Fin v)
    /\ (let tail := filter (fun x => fleb (Fin x) (Fin v)) (dropna rets) in
        tail <> []
        /\ Forall (fun x => x <= v) tail
        /\ cvar_historical rets alpha = Ok (Fin (Qmean tail))
        /\ Qmean tail <= v).
Proof.
  destruct Ha as [Ha0 Ha1].
  destruct (historical_tail rets alpha Hne Ha0 Ha1)
    as (v & m & Hv & _ & _ & _ & Htail & Hc).
  exists v. cbv zeta. split; [exact Hv|].
  assert (Hall : Forall (fun x => x <= v)
                   (filter (fun x => fleb (Fin x) (Fin v)) (dropna rets))).
  { apply Forall_forall. intros x Hx. apply filter_In in Hx.
    destruct Hx as [_ Hx]. simpl in Hx. apply Qle_bool_iff. exact Hx. }
  split; [exact Htail|]. split; [exact Hall|]. split; [exact Hc|].
  apply Qmean_le_bound; assumption.
Qed.

End Historical.

(** Five entries, one of them missing: the quantile at 5% lies between
    the two smallest returns, and the tail is the smallest one alone. *)
Lemma cvar_tail_nonempty_witness :
  let rets := [Some 0.01; None; Some (-0.02); Some 0.03; Some (-0.01)] in
  exists v m,
    var_historical rets 0.95 = Ok (Fin v)
    /\ In m (dropna rets) /\ Forall (fun y => m <= y) (dropna rets) /\ m <= v
    /\ (let tail := filter (fun x => fleb (Fin x) (Fin v)) (dropna rets) in
        tail <> [] /\ In m tail
        /\ cvar_historical rets 0.95 = Ok (Fin (Qmean tail)))
    /\ v == -0.0185
    /\ cvar_historical rets 0.95 = Ok (Fin (Qmean [-0.02])).
Proof.
  intro rets.
  destruct (cvar_tail_nonempty rets 0.95) as (v & m & Hv & Hrest).
  - simpl. discriminate.
  - split; reflexivity.
  - assert (E : exists c, var_historical rets 0.95 = Ok (Fin c)
                           /\ c == -0.0185).
    { eexists. split; [vm_compute; reflexivity|reflexivity]. }
    destruct E as (c & Ec & Hc). rewrite Hv in Ec.
    apply Ok_inj, Fin_inj in Ec. subst c.
    exists v, m. split; [exact Hv|].
    do 4 (split; [apply Hrest|]).
    split; [exact Hc|]. vm_compute. reflexivity.
Defined.

Lemma cvar_le_var_witness :
  let rets := [Some 0.02; Some (-0.03); None; Some 0.01] in
  exists v,
    var_historical rets 0.9 = Ok (Fin v)
    /\ (let tail := filter (fun x => fleb (Fin x) (Fin v)) (dropna rets) in
        tail <> []
        /\ Forall (fun x => x <= v) tail
        /\ cvar_historical rets 0.9 = Ok (Fin (Qmean tail))
        /\ Qmean tail <= v)
    /\ v == -0.022
    /\ cvar_historical rets 0.9 = Ok (Fin (Qmean [-0.03])).
Proof.
  intro rets.
  destruct (cvar_le_var rets 0.9) as (v & Hv & Hrest).
  - simpl. discriminate.
  - split; reflexivity.
  - assert (E : exists c, var_historical rets 0.9 = Ok (Fin c)
                           /\ c == -0.022).
    { eexists. split; [vm_compute; reflexivity|reflexivity]. }
    destruct E as (c & Ec & Hc). rewrite Hv in Ec.
    apply Ok_inj, Fin_inj in Ec. subst c.
    exists v. split; [exact Hv|]. split; [exact Hrest|].
    split; [exact Hc|]. vm_compute. reflexivity.
Defined.

Section HistoricalBinary64.
#[local] Set Warnings "-inexact-float,-notation-overridden".
Import PrimFloat.

(** C3 as stated fails: the code rounds the mean of the tail.  On three
    returns of 0.1 the VaR is 0.1, the tail holds the three of them, and
    their mean [(0.1 + 0.1 + 0.1) / 3] is 0.10000000000000002 in
    binary64: the CVaR is above the VaR. *)
Lemma cvar_le_var_counterexample :
  B64.var_historical [0.1; 0.1; 0.1]%float 0.95%float = Ok 0.1%float
  /\ B64.cvar_historical [0.1; 0.1; 0.1]%float 0.95%float
     = Ok 0.10000000000000002%float
  /\ (0.1 <? 0.10000000000000002)%float = true.
Proof. repeat split; vm_compute; reflexivity. Qed.

End HistoricalBinary64.

(** ** Means and deviations of a constant sample *)

Lemma Qsquare_nonneg (a : Q) : 0 <= a * a.
Proof.
  destruct (Qlt_le_dec a 0) as [H|H].
  - setoid_replace (a * a) with ((- a) * (- a)) by ring.
    apply Qmult_le_0_compat; lra.
  - apply Qmult_le_0_compat; exact H.
Qed.

Lemma Qsum_const (v : list Q) (c : Q) :
  Forall (fun x => x == c) v -> Qsum v == Qlen v * c.
Proof.
  unfold Qlen.
  induction 1 as [|x v Hx _ IH].
  - cbn [length Qsum fold_right Z.of_nat]. change (inject_Z 0) with 0. ring.
  - cbn [length Qsum fold_right]. fold (Qsum v).
    rewrite Nat2Z.inj_succ. unfold Z.succ. rewrite inject_Z_plus.
    change (inject_Z 1) with 1. rewrite IH, Hx. ring.
Qed.

Lemma Qmean_const (v : list Q) (c : Q) :
  v <> [] -> Forall (fun x => x == c) v -> Qmean v == c.
Proof.
  intros Hne Hc. unfold Qmean. rewrite (Qsum_const v c Hc).
  pose proof (Qlen_pos v Hne). field. lra.
Qed.

Lemma Qvar0_const (v : list Q) (c : Q) :
  v <> [] -> Forall (fun x => x == c) v -> Qvar0 v == 0.
Proof.
  intros Hne Hc. unfold Qvar0.
  apply Qmean_const.
  - destruct v; [congruence|discriminate].
  - apply Forall_map. pose proof (Qmean_const v c Hne Hc) as Hm.
    eapply Forall_impl; [|exact Hc].
    intros x Hx. cbv beta. rewrite Hx, Hm. ring.
Qed.

Lemma Qvar0_zero_const (v : list Q) :
  v <> [] -> Qvar0 v == 0 -> Forall (fun x => x == Qmean v) v.
Proof.
  intros Hne Hz. unfold Qvar0 in Hz.
  set (m := Qmean v) in *.
  set (sq := map (fun x => (x - m) * (x - m)) v) in *.
  assert (Hlen : 0 < Qlen sq).
  { apply Qlen_pos. unfold sq. destruct v; [congruence|discriminate]. }
  assert (Hsum : Qsum sq == 0).
  { unfold Qmean in Hz.
    setoid_replace (Qsum sq) with (Qsum sq / Qlen sq * Qlen sq)
      by (field; lra).
    rewrite Hz. ring. }
  assert (Hall : Forall (fun y => y == 0) sq).
  { apply Qsum_zero_all_zero; [|exact Hsum].
    unfold sq. apply Forall_map. apply Forall_forall. intros x _.
    cbv beta. apply Qsquare_nonneg. }
  unfold sq in Hall. rewrite Forall_map in Hall.
  eapply Forall_impl; [|exact Hall].
  intros x Hx. cbv beta in Hx.
  destruct (Qmult_integral _ _ Hx); lra.
Qed.

(** ** Missing values *)

Lemma dropna_map_Some (v : list Q) : dropna (map Some v) = v.
Proof. induction v as [|x v IH]; simpl; congruence. Qed.

Lemma dropna_without_missing (rets : list cell) :
  dropna (without_missing rets) = dropna rets.
Proof. apply dropna_map_Some. Qed.

Lemma dropna_series_sub (rets : list cell) (c : Q) :
  dropna (series_sub rets c) = map (fun x => x - c) (dropna rets).
Proof.
  induction rets as [|[x|] t IH]; simpl; [reflexivity| |exact IH].
  f_equal. exact IH.
Qed.

Lemma dropna_series_add (c : Q) (rets : list cell) :
  dropna (series_add c rets) = map (fun x => c + x) (dropna rets).
Proof.
  induction rets as [|[x|] t IH]; simpl; [reflexivity| |exact IH].
  f_equal. exact IH.
Qed.

Lemma dropna_negative_part (xs : list cell) :
  dropna (negative_part xs) = filter (fun x => Qlt_bool x 0) (dropna xs).
Proof.
  unfold negative_part.
  induction xs as [|[x|] t IH]; simpl; [reflexivity| |exact IH].
  unfold Qlt_bool.
  destruct (Qle_bool 0 x); simpl; [exact IH|]. f_equal. exact IH.
Qed.

Lemma dropna_nil_all_missing (rets : list cell) :
  dropna rets = [] -> Forall (fun c => c = None) rets.
Proof.
  induction rets as [|[x|] t IH]; simpl; intro H.
  - constructor.
  - discriminate.
  - constructor; [reflexivity|]. apply IH. exact H.
Qed.

Section Metrics.
Context {L : Lib}.

Lemma pd_std0_dropna (a b : list cell) :
  dropna a = dropna b -> pd_std0 a = pd_std0 b.
Proof. unfold pd_std0. intros ->. reflexivity. Qed.

Lemma pd_mean_dropna (a b : list cell) :
  dropna a = dropna b -> pd_mean a = pd_mean b.
Proof. unfold pd_mean. intros ->. reflexivity. Qed.

Lemma fsqrt_zero (q : Q) : q == 0 -> fsqrt (Fin q) = Fin 0.
Proof.
  intro H. unfold fsqrt.
  assert (E1 : Qlt_bool q 0 = false).
  { destruct (Qlt_bool q 0) eqn:E; [|reflexivity].
    apply Qlt_bool_iff in E. lra. }
  apply Qeq_bool_iff in H. rewrite E1, H. reflexivity.
Qed.

Lemma fsqrt_Fin_cases (q : Q) :
  fsqrt (Fin q) = NaN \/ exists s, fsqrt (Fin q) = Fin s.
Proof.
  unfold fsqrt.
  destruct (Qlt_bool q 0); [left; reflexivity|].
  destruct (Qeq_bool q 0); right; eexists; reflexivity.
Qed.

Lemma fdiv_NaN_r (a : float) : fdiv a NaN = NaN.
Proof. destruct a; reflexivity. Qed.

Lemma fmul_NaN_l (a : float) : fmul NaN a = NaN.
Proof. reflexivity. Qed.

(** The last two lines of [sharpe] and [sortino]: a deviation that is
    missing or zero yields the sentinel. *)
Lemma ratio_sentinel (std num : float) (ppy : Q) :
  std = NaN \/ std = Fin 0 ->
  (let vol := fmul std (fsqrt (Fin ppy)) in
   if feqb vol (Fin 0) then Ok NaN else Ok (fdiv num vol)) = Ok NaN.
Proof.
  intros [-> | ->]; cbv zeta.
  - simpl. rewrite fdiv_NaN_r. reflexivity.
  - destruct (fsqrt_Fin_cases ppy) as [-> | [s ->]].
    + simpl. rewrite fdiv_NaN_r. reflexivity.
    + cbn [fmul feqb].
      assert (E : Qeq_bool (0 * s) 0 = true) by (apply Qeq_bool_iff; ring).
      rewrite E. reflexivity.
Qed.

(** The deviation of at most one value: missing, or exactly zero. *)
Lemma pd_std0_at_most_one (xs : list cell) :
  (length (dropna xs) <= 1)%nat -> pd_std0 xs = NaN \/ pd_std0 xs = Fin 0.
Proof.
  unfold pd_std0. intro H.
  destruct (dropna xs) as [|x [|y v]]; [left; reflexivity| |simpl in H; lia].
  right. apply fsqrt_zero.
  apply (Qvar0_const _ x); [discriminate|].
  constructor; [reflexivity|constructor].
Qed.

Lemma sharpe_at_most_one (rets : list cell) (rf ppy : Q) :
  ~ ppy == 0 -> (length (dropna rets) <= 1)%nat ->
  sharpe rets rf ppy = Ok NaN.
Proof.
  intros Hp Hd. unfold sharpe.
  apply Qeq_bool_false in Hp. rewrite Hp.
  apply ratio_sentinel. apply pd_std0_at_most_one.
  rewrite dropna_series_sub, length_map. exact Hd.
Qed.

Lemma sortino_at_most_one (rets : list cell) (rf ppy : Q) :
  ~ ppy == 0 ->
  (length (dropna (negative_part (series_sub rets (rf / ppy)))) <= 1)%nat ->
  sortino rets rf ppy = Ok NaN.
Proof.
  intros Hp Hd. unfold sortino.
  apply Qeq_bool_false in Hp. rewrite Hp.
  apply ratio_sentinel. apply pd_std0_at_most_one. exact Hd.
Qed.

Lemma drawdown_unfold (rets : list cell) :
  drawdown rets = drawdown_from 1 None (series_add 1 rets).
Proof. reflexivity. Qed.

Lemma drawdown_from_present (acc : Q) (m : option Q) (rets : list cell) :
  map snd (filter (fun cv => match fst cv with Some _ => true | None => false end)
                  (combine rets (drawdown_from acc m (series_add 1 rets))))
  = drawdown_from acc m (series_add 1 (without_missing rets)).
Proof.
  revert acc m.
  induction rets as [|[x|] t IH]; intros acc m; [reflexivity| |].
  - cbn. f_equal. apply IH.
  - cbn. apply IH.
Qed.

Lemma drawdown_from_not_nan (acc : Q) (m : option Q) (rets : list cell) :
  filter (fun a => negb (isnan a)) (drawdown_from acc m (series_add 1 rets))
  = filter (fun a => negb (isnan a))
           (drawdown_from acc m (series_add 1 (without_missing rets))).
Proof.
  revert acc m.
  induction rets as [|[x|] t IH]; intros acc m; [reflexivity| |].
  - cbn [without_missing dropna map series_add option_map drawdown_from
         cumprod_from cummax_from combine filter fst snd].
    match goal with |- context [negb (isnan ?a)] =>
      destruct (negb (isnan a)) end.
    + f_equal. apply IH.
    + apply IH.
  - cbn. apply IH.
Qed.

Lemma max_drawdown_without_missing (rets : list cell) :
  max_drawdown rets = max_drawdown (without_missing rets).
Proof.
  unfold max_drawdown, pd_min. rewrite !drawdown_unfold.
  rewrite drawdown_from_not_nan. reflexivity.
Qed.

Lemma pd_mean_no_value (xs : list cell) : dropna xs = [] -> pd_mean xs = NaN.
Proof. unfold pd_mean. intros ->. reflexivity. Qed.

Lemma pd_std0_no_value (xs : list cell) : dropna xs = [] -> pd_std0 xs = NaN.
Proof. unfold pd_std0. intros ->. reflexivity. Qed.

(** C1 (amended).  On a series without a value, [annualize_vol],
    [max_drawdown], [var_parametric_normal] and [var_cornish_fisher]
    return [NaN], [var_historical] returns or raises what [np.quantile]
    does on an empty sample, [cvar_historical] turns a value of it into
    [NaN], and [sharpe] and [sortino] return [NaN].  [sharpe] returns
    [NaN] on a series with a single value, and [sortino] whenever at
    most one excess return is negative.  On the empty series [drawdown]
    is the empty path, [hit_rate] is [NaN], and [annualize_return]
    raises [ZeroDivisionError]. *)
Theorem degenerate_input_policy (rets : list cell) :
  (dropna rets = [] ->
     (forall ppy, annualize_vol rets ppy = NaN)
     /\ max_drawdown rets = NaN
     /\ (forall alpha, var_parametric_normal rets alpha = NaN)
     /\ (forall alpha, var_cornish_fisher rets alpha = NaN)
     /\ (forall alpha, 0 < alpha -> alpha < 1 ->
           var_historical rets alpha = np_quantile_empty
           /\ cvar_historical rets alpha = (_ <- np_quantile_empty ;; Ok NaN))
     /\ (forall rf ppy, ~ ppy == 0 ->
           sharpe rets rf ppy = Ok NaN /\ sortino rets rf ppy = Ok NaN))
  /\ (forall x rf ppy, dropna rets = [x] -> ~ ppy == 0 ->
        sharpe rets rf ppy = Ok NaN)
  /\ (forall rf ppy, ~ ppy == 0 ->
        (length (dropna (negative_part (series_sub rets (rf / ppy)))) <= 1)%nat ->
        sortino rets rf ppy = Ok NaN)
  /\ (rets = [] ->
      drawdown rets = [] /\ hit_rate rets = NaN
      /\ forall ppy, annualize_return rets ppy = Raise ZeroDivisionError).
Proof.
  split; [|split; [|split]].
  - intro He. repeat split.
    + intro ppy. unfold annualize_vol. rewrite (pd_std0_no_value rets He).
      reflexivity.
    + rewrite max_drawdown_without_missing. unfold without_missing.
      rewrite He. reflexivity.
    + intro alpha. unfold var_parametric_normal. rewrite He. reflexivity.
    + intro alpha. unfold var_cornish_fisher. rewrite He. reflexivity.
    + unfold var_historical, np_quantile. rewrite He.
      assert (E0 : Qle_bool 0 (1 - alpha) = true) by (apply Qle_bool_iff; lra).
      assert (E1 : Qle_bool (1 - alpha) 1 = true) by (apply Qle_bool_iff; lra).
      rewrite E0, E1. reflexivity.
    + unfold cvar_historical, var_historical, np_quantile. rewrite He.
      assert (E0 : Qle_bool 0 (1 - alpha) = true) by (apply Qle_bool_iff; lra).
      assert (E1 : Qle_bool (1 - alpha) 1 = true) by (apply Qle_bool_iff; lra).
      rewrite E0, E1. reflexivity.
    + apply sharpe_at_most_one; [assumption|]. rewrite He. simpl. lia.
    + apply sortino_at_most_one; [assumption|].
      rewrite dropna_negative_part, dropna_series_sub, He. simpl. lia.
  - intros x rf ppy Hx Hp. apply sharpe_at_most_one; [exact Hp|].
    rewrite Hx. simpl. lia.
  - intros rf ppy Hp Hd. apply sortino_at_most_one; assumption.
  - intros ->. repeat split.
Qed.


End Metrics.

Lemma degenerate_input_policy_witness :
  annualize_vol [] 252 = NaN
  /\ var_cornish_fisher [None; None] 0.95 = NaN
  /\ sharpe [None; None] 0 252 = Ok NaN
  /\ sortino [None; None] 0 252 = Ok NaN
  /\ sharpe [Some 0.01; None] 0 252 = Ok NaN
  /\ sortino [Some 0.01; None; Some 0.02] 0 252 = Ok NaN
  /\ sortino [Some (-0.01); Some 0.02] 0 252 = Ok NaN
  /\ hit_rate [] = NaN.
Proof.
  assert (Hp : ~ 252 == 0) by discriminate.
  destruct (degenerate_input_policy []) as (Hempty & _ & _ & Hnil).
  destruct (Hempty eq_refl) as (Hvol & _).
  destruct (Hnil eq_refl) as (_ & Hhit & _).
  destruct (degenerate_input_policy [None; None]) as (Hmissing & _).
  destruct (Hmissing eq_refl) as (_ & _ & _ & Hcf & _ & Hratio).
  destruct (Hratio 0 252 Hp) as (Hsharpe & Hsortino).
  destruct (degenerate_input_policy [Some 0.01; None]) as (_ & Hone & _).
  destruct (degenerate_input_policy [Some 0.01; None; Some 0.02])
    as (_ & _ & Hup & _).
  destruct (degenerate_input_policy [Some (-0.01); Some 0.02])
    as (_ & _ & Hdown & _).
  split; [apply Hvol|].
  split; [apply Hcf|].
  split; [exact Hsharpe|].
  split; [exact Hsortino|].
  split; [apply (Hone 0.01 0 252 eq_refl Hp)|].
  split; [apply (Hup 0 252 Hp); vm_compute; lia|].
  split; [apply (Hdown 0 252 Hp); vm_compute; lia|exact Hhit].
Defined.

(** C1 as stated fails: the empty series makes [annualize_return] raise,
    and a series of zero variance has a volatility of 0 and a hit rate
    of 1, not [NaN]. *)
Lemma degenerate_input_counterexample :
  annualize_return [] 252 = Raise ZeroDivisionError
  /\ degenerate [Some 0.01; Some 0.01]
  /\ annualize_vol [Some 0.01; Some 0.01] 252 =f= Fin 0
  /\ hit_rate [Some 0.01; Some 0.01] =f= Fin 1.
Proof.
  split; [reflexivity|].
  split; [right; vm_compute; reflexivity|].
  split; vm_compute; reflexivity.
Qed.

Section MetricsBinary64.
#[local] Set Warnings "-inexact-float,-notation-overridden".
Import PrimFloat.

(** Zero variance is no sentinel of [sharpe] either, unless the
    deviation it computes is exactly zero.  The mean of three returns of
    0.1 is 0.10000000000000002 in binary64, their deviation is 1.4e-17,
    and the ratio is a number above 1e17; a single return, or two
    returns of 0.5, give [NaN]. *)
Lemma sharpe_of_constant_series :
  B64.mean [0.1; 0.1; 0.1]%float = 0.10000000000000002%float
  /\ B64.std0 [0.1; 0.1; 0.1]%float = 1.3877787807814457e-17%float
  /\ (exists v, B64.sharpe [0.1; 0.1; 0.1]%float 0 252 = Ok v
                /\ (1e17 <? v)%float = true)
  /\ B64.sharpe [0.1]%float 0 252 = Ok nan
  /\ B64.sharpe [0.5; 0.5]%float 0 252 = Ok nan.
Proof.
  split; [vm_compute; reflexivity|].
  split; [vm_compute; reflexivity|].
  split; [eexists; split; vm_compute; reflexivity|].
  split; vm_compute; reflexivity.
Qed.

End MetricsBinary64.


(** ** Rolling beta *)

Lemma nth_map_lt {A B : Type} (g : A -> B) (l : list A) (i : nat) (d : B) (a : A) :
  (i < length l)%nat -> nth i (map g l) d = g (nth i l a).
Proof.
  revert i. induction l as [|x l IH]; simpl; intros i Hi; [lia|].
  destruct i as [|i]; [reflexivity|]. apply IH. lia.
Qed.

Lemma rolling_length {A : Type} (w : nat) (f : list A -> float)
  (xs : list (option A)) : length (rolling w f xs) = length xs.
Proof. unfold rolling. rewrite length_map, length_seq. reflexivity. Qed.

Lemma rolling_nth {A : Type} (w : nat) (f : list A -> float)
  (xs : list (option A)) (i : nat) :
  (i < length xs)%nat ->
  nth i (rolling w f xs) NaN
  = if (w <=? i + 1)%nat then
      match all_present (window_at w i xs) with
      | Some v => f v
      | None => NaN
      end
    else NaN.
Proof.
  intro Hi. unfold rolling.
  rewrite (nth_map_lt _ _ i NaN 0%nat) by (rewrite length_seq; exact Hi).
  rewrite seq_nth by exact Hi. reflexivity.
Qed.

Lemma combine_diag {A : Type} (l : list A) :
  combine l l = map (fun a => (a, a)) l.
Proof. induction l as [|a l IH]; simpl; congruence. Qed.

Lemma window_at_map {A B : Type} (g : A -> B) (w i : nat) (xs : list A) :
  window_at w i (map g xs) = map g (window_at w i xs).
Proof. unfold window_at. rewrite skipn_map, firstn_map. reflexivity. Qed.

Lemma all_present_diag (win : list cell) :
  all_present (map (fun a => pair_cells (a, a)) win)
  = option_map (map (fun q => (q, q))) (all_present win).
Proof.
  induction win as [|[q|] t IH]; [reflexivity| |reflexivity].
  cbn [map]. change (pair_cells (Some q, Some q)) with (Some (q, q)).
  cbn [all_present]. rewrite IH. destruct (all_present t); reflexivity.
Qed.

Lemma Qcov1_diag (v : list Q) : Qcov1 (map (fun q => (q, q)) v) = Qvar1 v.
Proof.
  unfold Qcov1, Qvar1.
  rewrite length_map, !map_map. cbn [fst snd].
  rewrite map_id. reflexivity.
Qed.

Lemma rolling_beta_self_nth (x : list cell) (w i : nat) :
  (i < length x)%nat ->
  nth i (rolling_beta x x w) NaN
  = if (w <=? i + 1)%nat then
      match all_present (window_at w i x) with
      | Some v => (Qvar1 v / Qvar1 v)%fl
      | None => NaN
      end
    else NaN.
Proof.
  intro Hi. unfold rolling_beta.
  set (cov := rolling w Qcov1 (map pair_cells (combine x x))).
  set (var := rolling w Qvar1 x).
  assert (Hc : length cov = length x).
  { unfold cov. rewrite rolling_length, length_map, length_combine. lia. }
  assert (Hv : length var = length x) by apply rolling_length.
  rewrite (nth_map_lt _ _ i NaN (NaN, NaN)) by (rewrite length_combine; lia).
  rewrite combine_nth by congruence. cbn [fst snd].
  unfold cov, var.
  rewrite (rolling_nth w Qvar1 x i Hi).
  rewrite (rolling_nth w Qcov1)
    by (rewrite length_map, length_combine; lia).
  destruct (w <=? i + 1)%nat; [|reflexivity].
  rewrite combine_diag, map_map, window_at_map, all_present_diag.
  unfold cell in *.
  destruct (all_present (window_at w i x)) as [v|]; [|reflexivity].
  cbn [option_map]. rewrite Qcov1_diag. reflexivity.
Qed.

Lemma fdiv_self_nonzero (s : Q) : ~ s == 0 -> (Fin s / Fin s)%fl =f= Fin 1.
Proof.
  intro H. cbn [fdiv]. apply Qeq_bool_false in H as E. rewrite E.
  simpl. field. exact H.
Qed.

Lemma fdiv_self_zero (s : Q) : s == 0 -> (Fin s / Fin s)%fl = NaN.
Proof.
  intro H. cbn [fdiv]. apply Qeq_bool_iff in H. rewrite H. reflexivity.
Qed.

Lemma all_present_length {A : Type} (l : list (option A)) (v : list A) :
  all_present l = Some v -> length v = length l.
Proof.
  revert v. induction l as [|[a|] t IH]; simpl; intros v H.
  - injection H as <-. reflexivity.
  - destruct (all_present t) as [u|]; [|discriminate].
    injection H as <-. simpl. f_equal. apply IH. reflexivity.
  - discriminate.
Qed.

Lemma Qvar1_short (v : list Q) : (length v <= 1)%nat -> Qvar1 v = NaN.
Proof.
  intro H. unfold Qvar1. apply Nat.leb_le in H. rewrite H. reflexivity.
Qed.

(** C9 (amended).  The beta of a series against itself, at a position
    of its index: missing until the window is filled and while the
    window holds a missing entry; 1 when the window's sample variance is
    not zero; missing ([0/0]) when it is zero, and always missing for a
    window of fewer than two observations. *)
Theorem rolling_beta_self (x : list cell) (w i : nat)
  (Hi : (i < length x)%nat) :
  ((i + 1 < w)%nat -> nth i (rolling_beta x x w) NaN = NaN)
  /\ (all_present (window_at w i x) = None ->
      nth i (rolling_beta x x w) NaN = NaN)
  /\ ((w <= 1)%nat -> nth i (rolling_beta x x w) NaN = NaN)
  /\ (forall v s,
        (w <= i + 1)%nat -> all_present (window_at w i x) = Some v ->
        Qvar1 v = Fin s ->
        (~ s == 0 -> nth i (rolling_beta x x w) NaN =f= Fin 1)
        /\ (s == 0 -> nth i (rolling_beta x x w) NaN = NaN)).
Proof.
  rewrite (rolling_beta_self_nth x w i Hi).
  split; [|split; [|split]].
  - intro H. apply Nat.leb_gt in H. rewrite H. reflexivity.
  - intros ->. destruct (w <=? i + 1)%nat; reflexivity.
  - intro Hw. destruct (w <=? i + 1)%nat; [|reflexivity].
    destruct (all_present (window_at w i x)) as [v|] eqn:E; [|reflexivity].
    rewrite Qvar1_short; [reflexivity|].
    rewrite (all_present_length _ _ E). unfold window_at.
    etransitivity; [apply firstn_le_length|exact Hw].
  - intros v s Hw -> ->. apply Nat.leb_le in Hw. rewrite Hw.
    split; intro Hs.
    + apply fdiv_self_nonzero. exact Hs.
    + apply fdiv_self_zero. exact Hs.
Qed.

Lemma rolling_beta_self_witness :
  let x := [Some 0.01; Some (-0.02); Some 0.03] in
  ((1 + 1 < 2)%nat -> nth 1 (rolling_beta x x 2) NaN = NaN)
  /\ (all_present (window_at 2 1 x) = None ->
      nth 1 (rolling_beta x x 2) NaN = NaN)
  /\ ((2 <= 1)%nat -> nth 1 (rolling_beta x x 2) NaN = NaN)
  /\ (forall v s,
        (2 <= 1 + 1)%nat -> all_present (window_at 2 1 x) = Some v ->
        Qvar1 v = Fin s ->
        (~ s == 0 -> nth 1 (rolling_beta x x 2) NaN =f= Fin 1)
        /\ (s == 0 -> nth 1 (rolling_beta x x 2) NaN = NaN)).
Proof.
  apply rolling_beta_self. simpl. lia.
Defined.

(** C9 as stated fails on a window of zero variance: the covariance and
    the variance are both 0, and [0/0] is missing, not 1. *)
Lemma rolling_beta_counterexample :
  let x := [Some 1; Some 1; Some 1] in
  all_present (window_at 2 1 x) = Some [1; 1]
  /\ Qvar1 [1; 1] =f= Fin 0
  /\ rolling_beta x x 2 = [NaN; NaN; NaN].
Proof.
  repeat split.
Qed.

(** ** Buy and hold *)

Lemma cumprod_from_present (acc : Q) (vals : list Q) :
  cumprod_from acc (series_add 1 (map Some vals))
  = map Some (wealth_from acc vals).
Proof.
  revert acc. induction vals as [|r t IH]; intro acc; [reflexivity|].
  cbn. f_equal. apply IH.
Qed.

Lemma wealth_from_length (acc : Q) (vals : list Q) :
  length (wealth_from acc vals) = length vals.
Proof.
  revert acc. induction vals as [|r t IH]; intro acc; simpl; [reflexivity|].
  f_equal. apply IH.
Qed.

Lemma map_nth_seq {A B : Type} (g : option A -> B) (l : list A) :
  map (fun t => g (nth t (map Some l) None)) (seq 0 (length l))
  = map (fun x => g (Some x)) l.
Proof.
  induction l as [|x l IH]; [reflexivity|].
  cbn [length seq map nth]. f_equal.
  rewrite <- seq_shift, map_map. exact IH.
Qed.

Lemma single_column_wealth (wc : Q) (W : list Q) :
  map (weighted_row_sum [(wc, map Some W)]) (seq 0 (length W))
  = map (fun x => x * wc + 0) W.
Proof.
  unfold weighted_row_sum. cbn [map fst snd Qsum fold_right].
  apply (map_nth_seq (fun c => match c with
                               | Some x => x * wc
                               | None => 0
                               end + 0) W).
Qed.

Lemma pct_change_single (wc : Q) (vals : list Q) (acc : Q) :
  ~ wc == 0 -> ~ acc == 0 -> Forall (fun r => ~ 1 + r == 0) vals ->
  Forall2 feq
    (pct_change_from (acc * wc + 0)
       (map (fun x => x * wc + 0) (wealth_from acc vals)))
    (map Fin vals).
Proof.
  intros Hw Hacc Hv. revert acc Hacc.
  induction Hv as [|r t Hr _ IH]; intros acc Hacc; [constructor|].
  cbn [wealth_from map pct_change_from].
  assert (Hnext : ~ acc * (1 + r) == 0).
  { intro H. destruct (Qmult_integral _ _ H); contradiction. }
  constructor; [|apply IH; exact Hnext].
  assert (Hden : ~ acc * wc + 0 == 0).
  { intro H. assert (H' : acc * wc == 0) by lra.
    destruct (Qmult_integral _ _ H'); contradiction. }
  cbn [fdiv]. apply Qeq_bool_false in Hden as E. rewrite E.
  simpl. field. split; assumption.
Qed.

Lemma series_dropna_finite (idx : list Date) (l : list float) (vals : list Q) :
  Forall2 feq l (map Fin vals) ->
  series_eq (series_dropna (combine idx l)) (combine idx (map Fin vals)).
Proof.
  intro H. revert idx.
  remember (map Fin vals) as fv eqn:Efv. revert vals Efv.
  induction H as [|a b l fv Hab _ IH]; intros vals Efv idx.
  - destruct idx; constructor.
  - destruct vals as [|r t]; [discriminate|].
    injection Efv as -> Efv.
    destruct idx as [|d idx]; [constructor|].
    destruct a as [q| | |]; try contradiction.
    cbn. constructor; [split; [reflexivity|exact Hab]|].
    apply (IH t Efv).
Qed.

(** C5 (amended).  Buy and hold over a single selected symbol of
    non-zero weight, whose column has no missing entry and no return of
    -100%: the result is that column without its first observation (the
    percentage change of the wealth path has no value on the first
    date). *)
Theorem buy_and_hold_single_symbol (returns : DataFrame) (weights : weights)
  (wc : Q) (vals : list Q)
  (Hnonempty : df_empty returns = false)
  (Hsingle : select_columns (normalize_weights weights) returns
             = [(wc, map Some vals)])
  (Hweight : ~ wc == 0)
  (Hshape : length vals = length (df_index returns))
  (Hwealth : Forall (fun r => ~ 1 + r == 0) vals) :
  exists s,
    allocate_static (Some returns) weights None = Ok s
    /\ series_eq s (tl (combine (df_index returns) (map Fin vals))).
Proof.
  unfold allocate_static. rewrite Hnonempty, Hsingle.
  cbn [_to_resample_rule map fst snd].
  eexists. split; [reflexivity|].
  unfold cumprod. rewrite cumprod_from_present.
  rewrite <- Hshape, <- (wealth_from_length 1 vals), single_column_wealth.
  destruct vals as [|r t].
  - destruct (df_index returns); constructor.
  - destruct (df_index returns) as [|d idx]; [discriminate|].
    inversion Hwealth as [|? ? Hr Ht]; subst.
    cbn [wealth_from map pct_change combine series_dropna filter snd isnan
         negb tl].
    apply series_dropna_finite.
    apply pct_change_single; [exact Hweight| |exact Ht].
    intro H. apply Hr. lra.
Qed.

Lemma buy_and_hold_single_symbol_witness :
  exists s,
    allocate_static (Some sample_returns) [("XLE", 0.3); ("CVX", 0.7)]%string
                    None = Ok s
    /\ series_eq s (tl (combine (df_index sample_returns)
                                (map Fin [0.5; 0.25; -0.5]))).
Proof.
  eapply (buy_and_hold_single_symbol sample_returns
            [("XLE", 0.3); ("CVX", 0.7)]%string _ [0.5; 0.25; -0.5]).
  - reflexivity.
  - vm_compute. reflexivity.
  - discriminate.
  - reflexivity.
  - repeat constructor; discriminate.
Defined.

(** C5 as stated fails: the first date of the index is lost. *)
Lemma buy_and_hold_counterexample :
  exists s,
    allocate_static (Some sample_returns) [("XLE", 1)]%string None = Ok s
    /\ map fst s = [mkDate 2024 1 3; mkDate 2024 1 4]
    /\ series_eq s [(mkDate 2024 1 3, Fin 0.25); (mkDate 2024 1 4, Fin (-0.5))]
    /\ length s <> length (df_index sample_returns).
Proof.
  eexists. split; [vm_compute; reflexivity|].
  split; [reflexivity|]. split.
  - repeat constructor.
  - discriminate.
Qed.

(** ** Periodic rebalancing *)

Lemma days_in_month_bounds (y m : Z) : (28 <= days_in_month y m <= 31)%Z.
Proof.
  unfold days_in_month.
  destruct (m =? 2)%Z; [destruct (is_leap y); lia|].
  destruct ((m =? 4) || (m =? 6) || (m =? 9) || (m =? 11))%Z; lia.
Qed.

Lemma month_end_key (m : Z) :
  (m * 32 + 28 <= date_key (month_end_of m) <= m * 32 + 31)%Z.
Proof.
  unfold date_key, month_number, month_end_of. cbn [year month day].
  pose proof (days_in_month_bounds (m / 12) (m mod 12 + 1)).
  pose proof (Z.div_mod m 12). lia.
Qed.

Lemma month_end_right_labelled (idx : list Date) :
  Forall valid_date idx -> right_labelled month_end idx.
Proof.
  intro Hv. split.
  - intros b b' Hb. unfold date_le. cbn [label month_end].
    pose proof (month_end_key b). pose proof (month_end_key b').
    destruct (Z.eq_dec b b') as [->|Hne]; lia.
  - intros d b' Hd Hb. rewrite Forall_forall in Hv.
    destruct (Hv d Hd) as [_ Hday].
    unfold date_lt. cbn [label bin month_end] in *.
    pose proof (month_end_key b'). unfold date_key at 2. lia.
Qed.

Lemma quarter_end_right_labelled (idx : list Date) :
  Forall valid_date idx -> right_labelled quarter_end idx.
Proof.
  intro Hv. split.
  - intros b b' Hb. unfold date_le. cbn [label quarter_end].
    pose proof (month_end_key (3 * b + 2)).
    pose proof (month_end_key (3 * b' + 2)).
    destruct (Z.eq_dec b b') as [->|Hne]; lia.
  - intros d b' Hd Hb. rewrite Forall_forall in Hv.
    destruct (Hv d Hd) as [_ Hday].
    unfold date_lt. cbn [label bin quarter_end] in *.
    pose proof (month_end_key (3 * b' + 2)). unfold date_key at 2.
    pose proof (Z.div_mod (month_number d) 3).
    pose proof (Z.mod_pos_bound (month_number d) 3). lia.
Qed.

Lemma ffill_at_ext (periodic : list (Date * Q)) (d1 d2 : Date) :
  (forall lv, In lv periodic -> date_leb (fst lv) d1 = date_leb (fst lv) d2) ->
  ffill_at periodic d1 = ffill_at periodic d2.
Proof.
  unfold ffill_at. generalize NaN.
  induction periodic as [|lv t IH]; intros acc H; [reflexivity|].
  cbn [fold_left]. rewrite (H lv (or_introl eq_refl)).
  apply IH. intros lv' Hin. apply H. right. exact Hin.
Qed.

Lemma port_periodic_labels (B : Binning) (idx : list Date)
  (cols : list (Q * list cell)) (lv : Date * Q) :
  In lv (port_periodic B idx cols) -> exists b, fst lv = label B b.
Proof.
  unfold port_periodic. intro H. apply in_map_iff in H.
  destruct H as (b & <- & _). exists b. reflexivity.
Qed.

(** Before the closing date of its bin, a date sees exactly the labels of
    the earlier bins. *)
Lemma label_seen (B : Binning) (idx : list Date) (d : Date) (b : Z) :
  right_labelled B idx -> In d idx -> date_lt d (label B (bin B d)) ->
  date_leb (label B b) d = (b <? bin B d)%Z.
Proof.
  intros [Hmono Hprev] Hd Hopen. unfold date_leb.
  destruct (b <? bin B d)%Z eqn:E.
  - apply Z.ltb_lt in E. apply Z.leb_le.
    pose proof (Hprev d b Hd E) as H. unfold date_lt in H. lia.
  - apply Z.ltb_ge in E. apply Z.leb_gt.
    pose proof (Hmono _ _ E) as H. unfold date_le in H.
    unfold date_lt in Hopen. lia.
Qed.

Lemma fold_min_spec (bs : list Z) (b : Z) :
  In (fold_left Z.min bs b) (b :: bs)
  /\ forall x, In x (b :: bs) -> (fold_left Z.min bs b <= x)%Z.
Proof.
  revert b. induction bs as [|y bs IH]; intro b; cbn [fold_left].
  - split; [left; reflexivity|]. intros x [<-|[]]. lia.
  - destruct (IH (Z.min b y)) as [Hin Hle]. split.
    + destruct Hin as [E|Hin]; [|right; right; exact Hin].
      rewrite <- E. destruct (Z.min_spec b y) as [[_ ->]|[_ ->]];
        [left|right; left]; reflexivity.
    + intros x [<-|[<-|Hx]].
      * pose proof (Hle (Z.min b y) (or_introl eq_refl)). lia.
      * pose proof (Hle (Z.min b y) (or_introl eq_refl)). lia.
      * apply Hle. right. exact Hx.
Qed.

Lemma fold_max_spec (bs : list Z) (b : Z) :
  In (fold_left Z.max bs b) (b :: bs)
  /\ forall x, In x (b :: bs) -> (x <= fold_left Z.max bs b)%Z.
Proof.
  revert b. induction bs as [|y bs IH]; intro b; cbn [fold_left].
  - split; [left; reflexivity|]. intros x [<-|[]]. lia.
  - destruct (IH (Z.max b y)) as [Hin Hle]. split.
    + destruct Hin as [E|Hin]; [|right; right; exact Hin].
      rewrite <- E. destruct (Z.max_spec b y) as [[_ ->]|[_ ->]];
        [right; left|left]; reflexivity.
    + intros x [<-|[<-|Hx]].
      * pose proof (Hle (Z.max b y) (or_introl eq_refl)). lia.
      * pose proof (Hle (Z.max b y) (or_introl eq_refl)). lia.
      * apply Hle. right. exact Hx.
Qed.

(** The bins of an index run from its earliest to its latest bin. *)
Lemma bins_of_range (B : Binning) (idx : list Date) (d : Date) :
  In d idx ->
  exists lo n,
    bins_of B idx = map (fun i => (lo + Z.of_nat i)%Z) (seq 0 n)
    /\ (lo <= bin B d < lo + Z.of_nat n)%Z
    /\ (exists d', In d' idx /\ bin B d' = lo)
    /\ forall d', In d' idx -> (lo <= bin B d')%Z.
Proof.
  intro Hd. unfold bins_of.
  assert (Hb : In (bin B d) (map (bin B) idx)) by (apply in_map; exact Hd).
  destruct (map (bin B) idx) as [|b bs] eqn:E; [destruct Hb|].
  destruct (fold_min_spec bs b) as [Hmin_in Hmin].
  destruct (fold_max_spec bs b) as [Hmax_in Hmax].
  set (lo := fold_left Z.min bs b) in *.
  set (hi := fold_left Z.max bs b) in *.
  exists lo, (Z.to_nat (hi - lo + 1)). split; [reflexivity|].
  pose proof (Hmin _ Hb). pose proof (Hmax _ Hb).
  split; [lia|]. split.
  - rewrite <- E in Hmin_in. apply in_map_iff in Hmin_in.
    destruct Hmin_in as (d' & E' & Hd'). exists d'. split; assumption.
  - intros d' Hd'. apply Hmin. rewrite <- E. apply in_map. exact Hd'.
Qed.

(** Forward filling over consecutive bins of which a date sees those
    before [c]. *)
Lemma ffill_bins (labelf : Z -> Date) (f : Z -> Q) (d : Date) (c lo : Z)
  (n : nat) :
  (forall b, (lo <= b < lo + Z.of_nat n)%Z ->
     date_leb (labelf b) d = (b <? c)%Z) ->
  (c <= lo + Z.of_nat n)%Z ->
  ffill_at (map (fun b => (labelf b, f b))
                (map (fun i => (lo + Z.of_nat i)%Z) (seq 0 n))) d
  = if (lo <? c)%Z then Fin (f (c - 1)%Z) else NaN.
Proof.
  unfold ffill_at. induction n as [|n IH]; intros Hsee Hc.
  - cbn [seq map fold_left]. destruct (lo <? c)%Z eqn:E; [|reflexivity].
    apply Z.ltb_lt in E. lia.
  - rewrite seq_S, !map_app, fold_left_app. cbn [map fold_left fst snd].
    rewrite Nat.add_0_l.
    rewrite (Hsee (lo + Z.of_nat n)%Z) by lia.
    destruct (lo + Z.of_nat n <? c)%Z eqn:E.
    + apply Z.ltb_lt in E.
      assert (Ec : (c - 1 = lo + Z.of_nat n)%Z) by lia. rewrite Ec.
      assert (El : (lo <? c)%Z = true) by (apply Z.ltb_lt; lia).
      rewrite El. reflexivity.
    + apply Z.ltb_ge in E. apply IH; [|lia].
      intros b Hb. apply Hsee. lia.
Qed.

(** The two rules of the application have strictly growing labels. *)
Lemma month_end_strict : strictly_labelled month_end.
Proof.
  intros b b' Hb. unfold date_lt. cbn [label month_end].
  pose proof (month_end_key b). pose proof (month_end_key b'). lia.
Qed.

Lemma quarter_end_strict : strictly_labelled quarter_end.
Proof.
  intros b b' Hb. unfold date_lt. cbn [label quarter_end].
  pose proof (month_end_key (3 * b + 2)).
  pose proof (month_end_key (3 * b' + 2)). lia.
Qed.

Lemma ffill_periodic (B : Binning) (idx : list Date)
  (cols : list (Q * list cell)) (d : Date) (c : Z) :
  In d idx -> (c <= bin B d + 1)%Z ->
  (forall b, date_leb (label B b) d = (b <? c)%Z) ->
  (ffill_at (port_periodic B idx cols) d = NaN
   /\ forall d', In d' idx -> (c <= bin B d')%Z)
  \/ (ffill_at (port_periodic B idx cols) d
      = Fin (period_return B idx cols (c - 1))
      /\ exists d', In d' idx /\ (bin B d' < c)%Z).
Proof.
  intros Hd Hc Hsee.
  destruct (bins_of_range B idx d Hd) as (lo & n & Ebins & Hrange & Hlo & Hmin).
  unfold port_periodic. rewrite Ebins.
  change (map (fun b => (label B b,
                         Qsum (map (fun wc => compound_in_bin B idx (snd wc) b
                                              * fst wc) cols))))
    with (map (fun b => (label B b, period_return B idx cols b))).
  rewrite (ffill_bins (label B) (period_return B idx cols) d c lo n);
    [|intros b _; apply Hsee|lia].
  destruct (lo <? c)%Z eqn:E.
  - right. split; [reflexivity|]. apply Z.ltb_lt in E.
    destruct Hlo as (d' & Hd' & Eb). exists d'. split; [exact Hd'|lia].
  - left. split; [reflexivity|]. apply Z.ltb_ge in E.
    intros d' Hd'. pose proof (Hmin d' Hd'). lia.
Qed.

(** The value forward-filled to a date before the closing date of its
    period: the return of the previous period, if the index has an
    earlier period. *)
Lemma periodic_value_open (B : Binning) (idx : list Date)
  (cols : list (Q * list cell)) (d : Date) :
  right_labelled B idx -> In d idx -> date_lt d (label B (bin B d)) ->
  ((forall d', In d' idx -> (bin B d <= bin B d')%Z) ->
     ffill_at (port_periodic B idx cols) d = NaN)
  /\ ((exists d', In d' idx /\ (bin B d' < bin B d)%Z) ->
      ffill_at (port_periodic B idx cols) d
      = Fin (period_return B idx cols (bin B d - 1))).
Proof.
  intros Hright Hd Hopen.
  destruct (ffill_periodic B idx cols d (bin B d) Hd)
    as [[Ev Hfirst]|[Ev Hprev]]; [lia| | |].
  - intro b. apply (label_seen B _ d b Hright Hd Hopen).
  - split; [intros _; exact Ev|].
    intros (d' & Hd' & Hlt). pose proof (Hfirst d' Hd'). lia.
  - split; [|intros _; exact Ev].
    intro Hall. destruct Hprev as (d' & Hd' & Hlt).
    pose proof (Hall d' Hd'). lia.
Qed.

(** The value forward-filled to a closing date: the return of the
    period that closes. *)
Lemma periodic_value_close (B : Binning) (idx : list Date)
  (cols : list (Q * list cell)) (d : Date) :
  right_labelled B idx -> strictly_labelled B -> In d idx ->
  date_key d = date_key (label B (bin B d)) ->
  ffill_at (port_periodic B idx cols) d
  = Fin (period_return B idx cols (bin B d)).
Proof.
  intros Hright Hstrict Hd Hclose.
  destruct (ffill_periodic B idx cols d (bin B d + 1) Hd)
    as [[Ev Hfirst]|[Ev _]]; [lia| | |].
  - intro b. unfold date_leb. destruct Hright as [Hmono _].
    destruct (b <? bin B d + 1)%Z eqn:E.
    + apply Z.ltb_lt in E. apply Z.leb_le.
      assert (Hle : (b <= bin B d)%Z) by lia.
      pose proof (Hmono _ _ Hle) as H. unfold date_le in H. lia.
    + apply Z.ltb_ge in E. apply Z.leb_gt.
      assert (Hlt : (bin B d < b)%Z) by lia.
      pose proof (Hstrict _ _ Hlt) as H. unfold date_lt in H. lia.
  - pose proof (Hfirst d Hd). lia.
  - rewrite Ev. f_equal. f_equal. lia.
Qed.

Section Periodic.
Context {L : Lib}.

(** The two codes of the application stand for the month-end and the
    quarter-end binning. *)
Lemma application_rules_resolve :
  resolves "M" month_end /\ resolves "Q" quarter_end.
Proof. split; reflexivity. Qed.

(** What the periodic branch of [allocate_static] returns. *)
Lemma allocate_static_periodic (returns : DataFrame) (weights : weights)
  (rebalance : string) (B : Binning) :
  resolves rebalance B ->
  let idx := df_index returns in
  let cols := select_columns (normalize_weights weights) returns in
  allocate_static (Some returns) weights (Some rebalance)
  = Ok (if df_empty returns then []
        else match cols with
             | [] => []
             | _ => map (fun d => (d, ffill_at (port_periodic B idx cols) d))
                        idx
             end).
Proof.
  intro Hrule. cbv zeta. unfold allocate_static, resolves in *.
  destruct (df_empty returns); [reflexivity|].
  destruct (select_columns (normalize_weights weights) returns) as [|c cols];
    [reflexivity|].
  destruct (_to_resample_rule (Some rebalance)) as [rule|]; [|contradiction].
  rewrite Hrule. reflexivity.
Qed.

Lemma df_empty_index (returns : DataFrame) :
  df_empty returns = false -> df_index returns <> [].
Proof.
  unfold df_empty. destruct (df_index returns); [discriminate|].
  intros _. discriminate.
Qed.

Lemma In_series_index {A : Type} (s : list (Date * A)) (d : Date) :
  In d (map fst s) -> exists v, In (d, v) s.
Proof.
  intro H. apply in_map_iff in H. destruct H as ([d' v] & E & Hin).
  cbn [fst] in E. subst d'. exists v. exact Hin.
Qed.

(** C6 (amended).  Under a periodic policy whose bins are labelled on
    their closing date, with strictly growing labels (monthly,
    quarterly), the result is empty exactly when the return matrix is
    empty or holds no weighted symbol, and has the index of the matrix
    otherwise.  Within a calendar period it is constant on the dates
    before the period's closing date, where it carries the compounded
    return of the previous period (missing when the index has no earlier
    period); on the closing date itself it carries the compounded return
    of the period that closes. *)
Theorem periodic_rebalance_stepwise (returns : DataFrame) (weights : weights)
  (rebalance : string) (B : Binning)
  (Hrule : resolves rebalance B)
  (Hright : right_labelled B (df_index returns))
  (Hstrict : strictly_labelled B) :
  let idx := df_index returns in
  let cols := select_columns (normalize_weights weights) returns in
  exists s,
    allocate_static (Some returns) weights (Some rebalance) = Ok s
    /\ (s = [] <-> df_empty returns = true \/ cols = [])
    /\ (s <> [] -> map fst s = idx)
    /\ (forall d1 d2 v1 v2,
          In (d1, v1) s -> In (d2, v2) s ->
          bin B d1 = bin B d2 ->
          date_lt d1 (label B (bin B d1)) ->
          date_lt d2 (label B (bin B d2)) ->
          v1 = v2)
    /\ (forall d v,
          In (d, v) s -> date_lt d (label B (bin B d)) ->
          ((forall d', In d' idx -> (bin B d <= bin B d')%Z) -> v = NaN)
          /\ ((exists d', In d' idx /\ (bin B d' < bin B d)%Z) ->
              v = Fin (period_return B idx cols (bin B d - 1))))
    /\ (forall d v,
          In (d, v) s -> date_key d = date_key (label B (bin B d)) ->
          v = Fin (period_return B idx cols (bin B d))).
Proof.
  cbv zeta. rewrite (allocate_static_periodic _ _ _ _ Hrule). cbv zeta.
  destruct (df_empty returns) eqn:Ee.
  { exists []. split; [reflexivity|].
    split; [split; [intros _; left; reflexivity|reflexivity]|].
    split; [intro H; congruence|].
    split; [intros d1 d2 v1 v2 []|]. split; intros d v []. }
  destruct (select_columns (normalize_weights weights) returns)
    as [|c cols] eqn:Ec.
  { exists []. split; [reflexivity|].
    split; [split; [intros _; right; reflexivity|reflexivity]|].
    split; [intro H; congruence|].
    split; [intros d1 d2 v1 v2 []|]. split; intros d v []. }
  set (periodic := port_periodic B (df_index returns) (c :: cols)).
  eexists. split; [reflexivity|].
  split; [|split; [|split; [|split]]].
  - split.
    + intro H. apply map_eq_nil in H.
      destruct (df_empty_index returns Ee H).
    + intros [H|H]; discriminate H.
  - intros _. rewrite map_map. cbn [fst]. apply map_id.
  - intros d1 d2 v1 v2 H1 H2 Hbin Ho1 Ho2.
    apply in_map_iff in H1. destruct H1 as (d1' & E1 & Hd1).
    apply in_map_iff in H2. destruct H2 as (d2' & E2 & Hd2).
    injection E1 as -> <-. injection E2 as -> <-.
    apply ffill_at_ext. intros lv Hlv.
    destruct (port_periodic_labels _ _ _ _ Hlv) as [b ->].
    rewrite (label_seen B _ d1 b Hright Hd1 Ho1).
    rewrite (label_seen B _ d2 b Hright Hd2 Ho2).
    rewrite Hbin. reflexivity.
  - intros d v Hin Hopen.
    apply in_map_iff in Hin. destruct Hin as (d' & E & Hd).
    injection E as -> <-.
    apply periodic_value_open; assumption.
  - intros d v Hin Hclose.
    apply in_map_iff in Hin. destruct Hin as (d' & E & Hd).
    injection E as -> <-.
    apply periodic_value_close; assumption.
Qed.

End Periodic.

(** January and February 2024, monthly: 30 January, before the first
    closing date, carries no value; 31 January, the closing date,
    carries the return of January, and so do the two dates of
    February. *)
Lemma periodic_rebalance_stepwise_witness :
  exists s,
    allocate_static (Some calendar_2024) [("XLE", 1)]%string (Some "M"%string)
    = Ok s
    /\ map fst s = df_index calendar_2024
    /\ In (mkDate 2024 1 30, NaN) s
    /\ (exists v, In (mkDate 2024 1 31, v) s /\ v =f= Fin 1.25)
    /\ (exists v, In (mkDate 2024 2 1, v) s /\ In (mkDate 2024 2 2, v) s
                  /\ v =f= Fin 1.25).
Proof.
  destruct (periodic_rebalance_stepwise calendar_2024 [("XLE", 1)]%string
              "M" month_end) as (s & Hs & Hnil & Hidx & Hstep & Hopen & Hclose).
  - reflexivity.
  - apply month_end_right_labelled.
    repeat constructor; vm_compute; discriminate.
  - exact month_end_strict.
  - assert (Hne : s <> []).
    { intro H. apply Hnil in H. destruct H as [H|H]; discriminate H. }
    specialize (Hidx Hne).
    assert (Hat : forall d, In d (df_index calendar_2024) ->
                            exists v, In (d, v) s).
    { intros d Hd. apply In_series_index. rewrite Hidx. exact Hd. }
    destruct (Hat (mkDate 2024 1 30)) as [v1 H1]; [vm_compute; tauto|].
    destruct (Hat (mkDate 2024 1 31)) as [v2 H2]; [vm_compute; tauto|].
    destruct (Hat (mkDate 2024 2 1)) as [v3 H3]; [vm_compute; tauto|].
    destruct (Hat (mkDate 2024 2 2)) as [v4 H4]; [vm_compute; tauto|].
    exists s. split; [exact Hs|]. split; [exact Hidx|].
    split; [|split].
    + destruct (Hopen _ _ H1) as [Hfirst _]; [reflexivity|].
      rewrite <- Hfirst; [exact H1|].
      intros d' Hd'. vm_compute in Hd'.
      destruct Hd' as [<-|[<-|[<-|[<-|[]]]]]; vm_compute; discriminate.
    + exists v2. split; [exact H2|].
      rewrite (Hclose _ _ H2 eq_refl). vm_compute. reflexivity.
    + assert (E : v3 = v4) by (apply (Hstep _ _ v3 v4 H3 H4); reflexivity).
      subst v4. exists v3. split; [exact H3|]. split; [exact H4|].
      destruct (Hopen _ _ H3) as [_ Hprev]; [reflexivity|].
      rewrite Hprev.
      * vm_compute. reflexivity.
      * exists (mkDate 2024 1 30). split; [left; reflexivity|reflexivity].
Defined.

(** C6 as stated fails: 30 and 31 January 2024 lie in one calendar month
    and carry different values, while 31 January and 1 February lie in
    two months and carry the same value. *)
Lemma periodic_rebalance_counterexample :
  exists s,
    allocate_static (Some calendar_2024) [("XLE", 1)]%string (Some "M"%string)
    = Ok s
    /\ series_eq s [(mkDate 2024 1 30, NaN);
                    (mkDate 2024 1 31, Fin 1.25);
                    (mkDate 2024 2 1, Fin 1.25);
                    (mkDate 2024 2 2, Fin 1.25)]
    /\ bin month_end (mkDate 2024 1 30) = bin month_end (mkDate 2024 1 31)
    /\ bin month_end (mkDate 2024 1 31) <> bin month_end (mkDate 2024 2 1).
Proof.
  eexists. split; [vm_compute; reflexivity|].
  split; [|split; [reflexivity|discriminate]].
  repeat constructor.
Qed.

(** ** Gauss-Jordan elimination *)

Lemma dot_nil_r (r : list Q) : dot r [] == 0.
Proof. unfold dot. destruct r; reflexivity. Qed.

Lemma dot_cons (a : Q) (r : list Q) (b : Q) (x : list Q) :
  dot (a :: r) (b :: x) == a * b + dot r x.
Proof. reflexivity. Qed.

Lemma dot_scale (a : Q) (p x : list Q) :
  dot (map (Qmult a) p) x == a * dot p x.
Proof.
  revert x. induction p as [|u p IH]; intros [|b x];
    try (unfold dot; simpl; ring).
  cbn [map]. rewrite !dot_cons, IH. ring.
Qed.

Lemma dot_combination (a : Q) (p r x : list Q) :
  length p = length r ->
  dot (map (fun pr => snd pr - a * fst pr) (combine p r)) x
  == dot r x - a * dot p x.
Proof.
  revert r x. induction p as [|u p IH]; intros [|v r] x Hlen;
    try discriminate.
  - unfold dot. simpl. ring.
  - destruct x as [|b x]; [unfold dot; simpl; ring|].
    cbn [combine map fst snd]. rewrite !dot_cons, IH by (simpl in Hlen; lia).
    ring.
Qed.

Lemma nth_scale (a : Q) (p : list Q) (c : nat) :
  nth c (map (Qmult a) p) 0 == a * nth c p 0.
Proof.
  revert c. induction p as [|u p IH]; intros [|c]; simpl;
    try ring; try reflexivity.
  apply IH.
Qed.

Lemma nth_combination (a : Q) (p r : list Q) (c : nat) :
  length p = length r ->
  nth c (map (fun pr => snd pr - a * fst pr) (combine p r)) 0
  == nth c r 0 - a * nth c p 0.
Proof.
  revert r c. induction p as [|u p IH]; intros [|v r] c Hlen;
    try discriminate.
  - destruct c; simpl; ring.
  - destruct c as [|c]; simpl; [reflexivity|].
    apply IH. simpl in Hlen. lia.
Qed.

Lemma eliminate_length (j : nat) (p r : list Q) :
  length p = length r -> length (eliminate j p r) = length r.
Proof.
  intro H. unfold eliminate. rewrite length_map, length_combine. lia.
Qed.

Lemma pick_pivot_some (j : nat) (rows : mat) (p : list Q) (rest : mat) :
  pick_pivot j rows = Some (p, rest) ->
  ~ nth j p 0 == 0
  /\ length rows = S (length rest)
  /\ forall P : list Q -> Prop, Forall P rows <-> P p /\ Forall P rest.
Proof.
  revert p rest. induction rows as [|r t IH]; intros p rest H; [discriminate|].
  cbn [pick_pivot] in H.
  destruct (Qeq_bool (nth j r 0) 0) eqn:E.
  - destruct (pick_pivot j t) as [[p' rest']|]; [|discriminate].
    injection H as <- <-.
    destruct (IH p' rest' eq_refl) as (Hp & Hlen & Hall).
    split; [exact Hp|]. split; [simpl; lia|].
    intro P. rewrite !Forall_cons_iff, Hall. tauto.
  - injection H as <- <-. apply Qeq_bool_false in E.
    split; [exact E|]. split; [reflexivity|].
    intro P. apply Forall_cons_iff.
Qed.

Lemma pick_pivot_none (j : nat) (rows : mat) :
  pick_pivot j rows = None -> Forall (fun r => nth j r 0 == 0) rows.
Proof.
  induction rows as [|r t IH]; intro H; [constructor|].
  cbn [pick_pivot] in H.
  destruct (Qeq_bool (nth j r 0) 0) eqn:E; [|discriminate].
  destruct (pick_pivot j t) as [[p' rest']|]; [discriminate|].
  constructor; [apply Qeq_bool_iff; exact E|]. apply IH. reflexivity.
Qed.

(** Sums over an index range. *)
Lemma Qsum_map_ext {A : Type} (f g : A -> Q) (l : list A) :
  (forall a, In a l -> f a == g a) -> Qsum (map f l) == Qsum (map g l).
Proof.
  induction l as [|a l IH]; intro H; [reflexivity|].
  cbn [map Qsum fold_right]. fold (Qsum (map f l)). fold (Qsum (map g l)).
  rewrite (H a (or_introl eq_refl)), IH; [reflexivity|].
  intros b Hb. apply H. right. exact Hb.
Qed.

Lemma Qsum_map_zero {A : Type} (f : A -> Q) (l : list A) :
  (forall a, In a l -> f a == 0) -> Qsum (map f l) == 0.
Proof.
  induction l as [|a l IH]; intro H; [reflexivity|].
  cbn [map Qsum fold_right]. fold (Qsum (map f l)).
  rewrite (H a (or_introl eq_refl)), IH; [ring|].
  intros b Hb. apply H. right. exact Hb.
Qed.

Lemma Qsum_map_plus {A : Type} (f g : A -> Q) (l : list A) :
  Qsum (map (fun a => f a + g a) l) == Qsum (map f l) + Qsum (map g l).
Proof.
  induction l as [|a l IH]; [reflexivity|].
  cbn [map Qsum fold_right].
  fold (Qsum (map f l)). fold (Qsum (map g l)).
  fold (Qsum (map (fun a => f a + g a) l)).
  rewrite IH. ring.
Qed.

Lemma Qsum_indicator (a : Q) (i s n : nat) :
  (s <= i < s + n)%nat ->
  Qsum (map (fun c => if (c =? i)%nat then a else 0) (seq s n)) == a.
Proof.
  revert s. induction n as [|n IH]; intros s H; [lia|].
  cbn [seq map Qsum fold_right].
  fold (Qsum (map (fun c => if (c =? i)%nat then a else 0) (seq (S s) n))).
  destruct (s =? i)%nat eqn:E.
  - apply Nat.eqb_eq in E. subst s.
    rewrite Qsum_map_zero; [ring|].
    intros c Hc. apply in_seq in Hc.
    destruct (c =? i)%nat eqn:E; [apply Nat.eqb_eq in E; lia|reflexivity].
  - apply Nat.eqb_neq in E. rewrite IH by lia. ring.
Qed.

Lemma dot_seq (f : nat -> Q) (r : list Q) (n : nat) :
  dot r (map f (seq 0 n))
  == Qsum (map (fun c => nth c r 0 * f c) (seq 0 n)).
Proof.
  revert f r. induction n as [|n IH]; intros f r.
  - apply dot_nil_r.
  - rewrite <- cons_seq, <- seq_shift. cbn [map]. rewrite !map_map.
    cbn [Qsum fold_right].
    fold (Qsum (map (fun c => nth (S c) r 0 * f (S c)) (seq 0 n))).
    destruct r as [|a r].
    + rewrite Qsum_map_zero; [unfold dot; simpl; ring|].
      intros c _. simpl. ring.
    + rewrite dot_cons. rewrite (IH (fun c => f (S c)) r). reflexivity.
Qed.

Lemma dot_eliminate (j : nat) (p r x : list Q) :
  length p = length r ->
  dot (eliminate j p r) x == dot r x - nth j r 0 * dot p x.
Proof. intro H. unfold eliminate. apply dot_combination. exact H. Qed.

Lemma nth_eliminate (j : nat) (p r : list Q) (c : nat) :
  length p = length r ->
  nth c (eliminate j p r) 0 == nth c r 0 - nth j r 0 * nth c p 0.
Proof. intro H. unfold eliminate. apply nth_combination. exact H. Qed.

(** One step of the elimination keeps the kernel of the working rows. *)
Lemma step_kernel (j m : nat) (p : list Q) (done rest : mat) (x : list Q) :
  ~ nth j p 0 == 0 -> length p = m ->
  same_length m done -> same_length m rest ->
  let p' := map (Qmult (/ nth j p 0)) p in
  in_kernel ((map (eliminate j p') done ++ [p']) ++ map (eliminate j p') rest) x
  <-> in_kernel (done ++ p :: rest) x.
Proof.
  intros Hp Hlen Hd Hr p'. unfold in_kernel.
  assert (Hlen' : length p' = m) by (unfold p'; rewrite length_map; exact Hlen).
  assert (Hpx : dot p' x == / nth j p 0 * dot p x) by apply dot_scale.
  assert (Hzero : dot p' x == 0 <-> dot p x == 0).
  { rewrite Hpx. split; intro H.
    - setoid_replace (dot p x) with (nth j p 0 * (/ nth j p 0 * dot p x))
        by (field; exact Hp).
      rewrite H. ring.
    - rewrite H. ring. }
  assert (Hrows : forall rows, same_length m rows -> dot p' x == 0 ->
            (Forall (fun r => dot r x == 0) (map (eliminate j p') rows)
             <-> Forall (fun r => dot r x == 0) rows)).
  { intros rows Hrows H0. rewrite Forall_map.
    unfold same_length in Hrows. rewrite Forall_forall in Hrows.
    rewrite !Forall_forall.
    split; intros H r Hin; specialize (H r Hin);
      rewrite dot_eliminate in * by (rewrite Hlen'; symmetry; apply Hrows; exact Hin);
      rewrite H0 in *; lra. }
  rewrite !Forall_app, !Forall_cons_iff.
  split.
  - intros [[H1 [H2 _]] H3].
    rewrite (Hrows done Hd H2) in H1. rewrite (Hrows rest Hr H2) in H3.
    apply Hzero in H2. tauto.
  - intros [H1 [H2 H3]]. apply Hzero in H2.
    rewrite <- (Hrows done Hd H2) in H1. rewrite <- (Hrows rest Hr H2) in H3.
    repeat split; try assumption. constructor.
Qed.

Lemma step_same_length (j m : nat) (p' : list Q) (rows : mat) :
  length p' = m -> same_length m rows ->
  same_length m (map (eliminate j p') rows).
Proof.
  intros Hp Hrows. unfold same_length in *. rewrite Forall_map.
  eapply Forall_impl; [|exact Hrows].
  intros r Hr. cbv beta. rewrite eliminate_length; congruence.
Qed.

Lemma nth_last_row (rows : mat) (p : list Q) :
  nth (length rows) (rows ++ [p]) [] = p.
Proof. rewrite app_nth2 by lia. rewrite Nat.sub_diag. reflexivity. Qed.

(** One step of the elimination extends the identity by one column. *)
Lemma step_reduced (j m : nat) (p : list Q) (done rest : mat) :
  ~ nth j p 0 == 0 -> length p = m ->
  same_length m done -> same_length m rest ->
  reduced j done (p :: rest) ->
  let p' := map (Qmult (/ nth j p 0)) p in
  reduced (S j) (map (eliminate j p') done ++ [p'])
          (map (eliminate j p') rest).
Proof.
  intros Hp Hlen Hd Hr (Hj & Hid & Htodo) p'.
  assert (Hlen' : length p' = m) by (unfold p'; rewrite length_map; exact Hlen).
  apply Forall_cons_iff in Htodo. destruct Htodo as [Hpz Hrest].
  assert (Hp'j : nth j p' 0 == 1).
  { unfold p'. rewrite nth_scale. field. exact Hp. }
  assert (Hp'c : forall c, (c < j)%nat -> nth c p' 0 == 0).
  { intros c Hc. unfold p'. rewrite nth_scale, (Hpz c Hc). ring. }
  unfold same_length in Hd, Hr. rewrite Forall_forall in Hd, Hr.
  split; [|split].
  - rewrite length_app, length_map. simpl. lia.
  - intros i c Hi Hc.
    destruct (Nat.eq_dec i j) as [->|Hij].
    + rewrite <- Hj at 1. rewrite <- (length_map (eliminate j p') done).
      rewrite nth_last_row.
      destruct (Nat.eq_dec c j) as [->|Hcj].
      * rewrite Nat.eqb_refl. exact Hp'j.
      * assert (E : (j =? c)%nat = false) by (apply Nat.eqb_neq; lia).
        rewrite E. apply Hp'c. lia.
    + assert (Hi' : (i < length done)%nat) by lia.
      rewrite app_nth1 by (rewrite length_map; exact Hi').
      rewrite (nth_map_lt _ _ i [] []) by exact Hi'.
      rewrite nth_eliminate
        by (rewrite Hlen'; symmetry; apply Hd; apply nth_In; exact Hi').
      destruct (Nat.eq_dec c j) as [->|Hcj].
      * rewrite Hp'j.
        assert (E : (i =? j)%nat = false) by (apply Nat.eqb_neq; lia).
        rewrite E. ring.
      * rewrite (Hp'c c) by lia. rewrite (Hid i c) by lia. ring.
  - apply Forall_map. rewrite Forall_forall in Hrest. apply Forall_forall.
    intros r Hin c Hc.
    rewrite nth_eliminate by (rewrite Hlen'; symmetry; apply Hr; exact Hin).
    destruct (Nat.eq_dec c j) as [->|Hcj].
    + rewrite Hp'j. ring.
    + rewrite (Hp'c c) by lia. rewrite (Hrest r Hin c) by lia. ring.
Qed.

(** When the elimination succeeds, its rows begin with the identity and
    have the kernel of the rows it started from. *)
Lemma gauss_jordan_some (m steps : nat) :
  forall j done todo rows,
    same_length m done -> same_length m todo ->
    length todo = steps -> reduced j done todo ->
    gauss_jordan steps j done todo = Some rows ->
    same_length m rows /\ reduced (j + steps) rows []
    /\ forall x, in_kernel rows x <-> in_kernel (done ++ todo) x.
Proof.
  induction steps as [|steps IH]; intros j done todo rows Hd Ht Hlen Hred Hgj.
  - destruct todo; [|discriminate]. injection Hgj as <-.
    rewrite Nat.add_0_r, app_nil_r.
    split; [exact Hd|]. split; [exact Hred|]. intro x. reflexivity.
  - cbn [gauss_jordan] in Hgj.
    destruct (pick_pivot j todo) as [[p rest]|] eqn:Epick; [|discriminate].
    destruct (pick_pivot_some j todo p rest Epick) as (Hp & Hcount & Hall).
    apply Hall in Ht. destruct Ht as [Hlp Hr].
    assert (Hred' : reduced j done (p :: rest)).
    { destruct Hred as (H1 & H2 & H3). repeat split; try assumption.
      apply Forall_cons_iff. exact (proj1 (Hall _) H3). }
    pose proof (step_reduced j m p done rest Hp Hlp Hd Hr Hred') as Hnext.
    cbv zeta in Hnext.
    assert (Hlp' : length (map (Qmult (/ nth j p 0)) p) = m)
      by (rewrite length_map; exact Hlp).
    assert (Hd' : same_length m
                    (map (eliminate j (map (Qmult (/ nth j p 0)) p)) done
                     ++ [map (Qmult (/ nth j p 0)) p])).
    { unfold same_length. apply Forall_app. split.
      - apply step_same_length; assumption.
      - constructor; [exact Hlp'|constructor]. }
    assert (Ht' : same_length m
                    (map (eliminate j (map (Qmult (/ nth j p 0)) p)) rest))
      by (apply step_same_length; assumption).
    assert (Hlen' : length (map (eliminate j (map (Qmult (/ nth j p 0)) p))
                                rest) = steps)
      by (rewrite length_map; lia).
    destruct (IH (S j) _ _ rows Hd' Ht' Hlen' Hnext Hgj)
      as (Hrows & Hfinal & Hker).
    split; [exact Hrows|]. split.
    + replace (j + S steps)%nat with (S j + steps)%nat by lia. exact Hfinal.
    + intro x. rewrite Hker.
      rewrite (step_kernel j m p done rest x Hp Hlp Hd Hr).
      unfold in_kernel. rewrite !Forall_app, Forall_cons_iff.
      rewrite (Hall (fun r => dot r x == 0)). tauto.
Qed.

Lemma kernel_vector_nonzero (k j : nat) (done : mat) :
  (j < k)%nat -> nonzero (kernel_vector k j done).
Proof.
  intro Hj. apply Exists_exists. exists 1. split; [|discriminate].
  unfold kernel_vector. apply in_map_iff. exists j.
  rewrite Nat.ltb_irrefl, Nat.eqb_refl. split; [reflexivity|].
  apply in_seq. lia.
Qed.

Lemma kernel_vector_todo (k j : nat) (done : mat) (r : list Q) :
  (forall c, (c < j)%nat -> nth c r 0 == 0) -> nth j r 0 == 0 ->
  dot r (kernel_vector k j done) == 0.
Proof.
  intros Hlow Hj. unfold kernel_vector. rewrite dot_seq.
  apply Qsum_map_zero. intros c _.
  destruct (c <? j)%nat eqn:E1.
  - apply Nat.ltb_lt in E1. rewrite (Hlow c E1). ring.
  - destruct (c =? j)%nat eqn:E2; [|ring].
    apply Nat.eqb_eq in E2. subst c. rewrite Hj. ring.
Qed.

Lemma kernel_vector_done (k j i : nat) (done : mat) :
  (i < j)%nat -> (j < k)%nat ->
  (forall c, (c < j)%nat ->
     nth c (nth i done []) 0 == (if (i =? c)%nat then 1 else 0)) ->
  dot (nth i done []) (kernel_vector k j done) == 0.
Proof.
  intros Hi Hj Hid. unfold kernel_vector. rewrite dot_seq.
  set (r := nth i done []) in *.
  rewrite (Qsum_map_ext _
             (fun c => (if (c =? i)%nat then - nth j r 0 else 0)
                       + (if (c =? j)%nat then nth j r 0 else 0))).
  - rewrite Qsum_map_plus, !Qsum_indicator by lia. ring.
  - intros c _.
    destruct (c <? j)%nat eqn:E1.
    + apply Nat.ltb_lt in E1. rewrite (Hid c E1).
      assert (E2 : (c =? j)%nat = false) by (apply Nat.eqb_neq; lia).
      rewrite E2, (Nat.eqb_sym c i).
      destruct (i =? c)%nat eqn:E3.
      * apply Nat.eqb_eq in E3. subst c. fold r. ring.
      * ring.
    + apply Nat.ltb_ge in E1.
      assert (E3 : (c =? i)%nat = false) by (apply Nat.eqb_neq; lia).
      rewrite E3. destruct (c =? j)%nat eqn:E2; [|ring].
      apply Nat.eqb_eq in E2. subst c. ring.
Qed.

(** When the elimination fails, the rows it started from have a
    non-zero vector in their kernel. *)
Lemma gauss_jordan_none (m k steps : nat) :
  forall j done todo,
    same_length m done -> same_length m todo ->
    length todo = steps -> (j + steps = k)%nat -> reduced j done todo ->
    gauss_jordan steps j done todo = None ->
    exists x, length x = k /\ nonzero x /\ in_kernel (done ++ todo) x.
Proof.
  induction steps as [|steps IH]; intros j done todo Hd Ht Hlen Hk Hred Hgj;
    [discriminate|].
  cbn [gauss_jordan] in Hgj.
  destruct (pick_pivot j todo) as [[p rest]|] eqn:Epick.
  - destruct (pick_pivot_some j todo p rest Epick) as (Hp & Hcount & Hall).
    apply Hall in Ht. destruct Ht as [Hlp Hr].
    assert (Hred' : reduced j done (p :: rest)).
    { destruct Hred as (H1 & H2 & H3). repeat split; try assumption.
      apply Forall_cons_iff. exact (proj1 (Hall _) H3). }
    pose proof (step_reduced j m p done rest Hp Hlp Hd Hr Hred') as Hnext.
    cbv zeta in Hnext.
    assert (Hlp' : length (map (Qmult (/ nth j p 0)) p) = m)
      by (rewrite length_map; exact Hlp).
    assert (Hd' : same_length m
                    (map (eliminate j (map (Qmult (/ nth j p 0)) p)) done
                     ++ [map (Qmult (/ nth j p 0)) p])).
    { unfold same_length. apply Forall_app. split.
      - apply step_same_length; assumption.
      - constructor; [exact Hlp'|constructor]. }
    assert (Ht' : same_length m
                    (map (eliminate j (map (Qmult (/ nth j p 0)) p)) rest))
      by (apply step_same_length; assumption).
    assert (Hlen' : length (map (eliminate j (map (Qmult (/ nth j p 0)) p))
                                rest) = steps)
      by (rewrite length_map; lia).
    assert (Hk' : (S j + steps = k)%nat) by lia.
    destruct (IH (S j) _ _ Hd' Ht' Hlen' Hk' Hnext Hgj)
      as (x & Hx & Hnz & Hker).
    exists x. split; [exact Hx|]. split; [exact Hnz|].
    apply (step_kernel j m p done rest x Hp Hlp Hd Hr) in Hker.
    unfold in_kernel in *. rewrite !Forall_app, Forall_cons_iff in *.
    rewrite (Hall (fun r => dot r x == 0)). tauto.
  - clear IH Hgj. pose proof (pick_pivot_none j todo Epick) as Hcol.
    destruct Hred as (Hj & Hid & Hlow).
    exists (kernel_vector k j done).
    split; [unfold kernel_vector; rewrite length_map, length_seq; reflexivity|].
    split; [apply kernel_vector_nonzero; lia|].
    unfold in_kernel. apply Forall_app. split.
    + apply Forall_forall. intros r Hin.
      destruct (In_nth done r [] Hin) as (i & Hi & <-).
      apply kernel_vector_done; [lia|lia|].
      intros c Hc. apply Hid; lia.
    + rewrite Forall_forall in *. intros r Hin.
      apply kernel_vector_todo; [apply Hlow; exact Hin|apply Hcol; exact Hin].
Qed.

Lemma list_as_map_seq (x : list Q) :
  x = map (fun c => nth c x 0) (seq 0 (length x)).
Proof.
  induction x as [|a x IH]; [reflexivity|].
  cbn [length]. rewrite <- cons_seq, <- seq_shift. cbn [map nth].
  rewrite map_map. cbn [nth]. f_equal. exact IH.
Qed.

Lemma dot_as_sum (r x : list Q) :
  dot r x == Qsum (map (fun c => nth c r 0 * nth c x 0) (seq 0 (length x))).
Proof.
  rewrite (list_as_map_seq x) at 1. apply dot_seq.
Qed.

Lemma dot_app_l (r e x : list Q) :
  length r = length x -> dot (r ++ e) x == dot r x.
Proof.
  revert x. induction r as [|a r IH]; intros [|b x] H; try discriminate.
  - apply dot_nil_r.
  - cbn [app]. rewrite !dot_cons, IH by (simpl in H; lia). reflexivity.
Qed.

(** A row that begins like row [i] of the identity picks the entry [i]
    of a vector. *)
Lemma dot_unit (r x : list Q) (i : nat) :
  (i < length x)%nat ->
  (forall c, (c < length x)%nat ->
     nth c r 0 == (if (i =? c)%nat then 1 else 0)) ->
  dot r x == nth i x 0.
Proof.
  intros Hi Hr. rewrite dot_as_sum.
  rewrite (Qsum_map_ext _ (fun c => if (c =? i)%nat then nth i x 0 else 0)).
  - apply Qsum_indicator. lia.
  - intros c Hc. apply in_seq in Hc. rewrite (Hr c) by lia.
    rewrite (Nat.eqb_sym c i).
    destruct (i =? c)%nat eqn:E; [|ring].
    apply Nat.eqb_eq in E. subst c. ring.
Qed.

Lemma identity_shape (k : nat) : square k (identity k).
Proof.
  unfold square, identity, same_length. rewrite length_map, length_seq.
  split; [reflexivity|]. apply Forall_map. apply Forall_forall.
  intros i _. rewrite length_map, length_seq. reflexivity.
Qed.

Lemma augment_shape (k : nat) (M : mat) :
  square k M -> length (augment M) = k /\ same_length (k + k) (augment M).
Proof.
  intros [Hk Hrows]. unfold augment. rewrite Hk.
  destruct (identity_shape k) as [Hi Hirows].
  split; [rewrite length_map, length_combine; lia|].
  unfold same_length in *. apply Forall_map. apply Forall_forall.
  intros [r e] Hin. cbn [fst snd]. rewrite length_app.
  rewrite Forall_forall in Hrows, Hirows.
  rewrite (Hrows r (in_combine_l _ _ _ _ Hin)).
  rewrite (Hirows e (in_combine_r _ _ _ _ Hin)). reflexivity.
Qed.

Lemma append_kernel (M E : mat) (x : list Q) :
  length M = length E -> same_length (length x) M ->
  in_kernel (map (fun ri => fst ri ++ snd ri) (combine M E)) x
  <-> in_kernel M x.
Proof.
  unfold in_kernel, same_length. revert E.
  induction M as [|r M IH]; intros [|e E] Hlen Hrows; try discriminate.
  - simpl. split; constructor.
  - apply Forall_cons_iff in Hrows. destruct Hrows as [Hr Hrows].
    cbn [combine map fst snd]. rewrite !Forall_cons_iff.
    rewrite dot_app_l by exact Hr.
    rewrite (IH E) by (simpl in Hlen; lia || exact Hrows). reflexivity.
Qed.

Lemma augment_kernel (k : nat) (M : mat) (x : list Q) :
  square k M -> length x = k -> (in_kernel (augment M) x <-> in_kernel M x).
Proof.
  intros [Hk Hrows] Hx. unfold augment. apply append_kernel.
  - destruct (identity_shape (length M)) as [Hi _]. symmetry. exact Hi.
  - rewrite Hx. exact Hrows.
Qed.

Lemma np_inv_raises (M : mat) :
  np_inv M = Raise LinAlgError
  <-> gauss_jordan (length M) 0 [] (augment M) = None.
Proof.
  unfold np_inv.
  destruct (gauss_jordan (length M) 0 [] (augment M)); split; intro H;
    congruence.
Qed.

Lemma reduced_start (rows : mat) : reduced 0 [] rows.
Proof.
  split; [reflexivity|]. split; [intros i c Hi; lia|].
  apply Forall_forall. intros r _ c Hc. lia.
Qed.

(** [np.linalg.inv] raises exactly on the square matrices with linearly
    dependent columns. *)
Theorem np_inv_singular (k : nat) (M : mat) :
  square k M -> (np_inv M = Raise LinAlgError <-> dependent k M).
Proof.
  intro Hsq. rewrite np_inv_raises.
  destruct (augment_shape k M Hsq) as [Hlen Hrows].
  destruct Hsq as [Hk HM]. rewrite Hk.
  assert (Hnil : same_length (k + k) []) by constructor.
  split.
  - intro Hnone.
    destruct (gauss_jordan_none (k + k) k k 0 [] (augment M)
                Hnil Hrows Hlen eq_refl (reduced_start _) Hnone)
      as (x & Hx & Hnz & Hker).
    exists x. split; [exact Hx|]. split; [exact Hnz|].
    apply (augment_kernel k M x (conj Hk HM) Hx). exact Hker.
  - intros (x & Hx & Hnz & Hker).
    destruct (gauss_jordan k 0 [] (augment M)) as [rows|] eqn:Egj;
      [exfalso|reflexivity].
    destruct (gauss_jordan_some (k + k) k 0 [] (augment M) rows
                Hnil Hrows Hlen (reduced_start _) Egj)
      as (_ & (Hcount & Hid & _) & Hsame).
    apply (augment_kernel k M x (conj Hk HM) Hx) in Hker.
    apply (Hsame x) in Hker. unfold in_kernel in Hker.
    rewrite Forall_forall in Hker.
    apply Exists_exists in Hnz. destruct Hnz as (a & Hin & Ha).
    destruct (In_nth x a 0 Hin) as (i & Hi & <-).
    apply Ha. rewrite <- (dot_unit (nth i rows []) x i Hi).
    + apply Hker. apply nth_In. simpl in Hcount. lia.
    + intros c Hc. apply Hid; simpl; lia.
Qed.

(** ** The normal matrix *)

Lemma Qsum_scale_l {A : Type} (a : Q) (f : A -> Q) (l : list A) :
  a * Qsum (map f l) == Qsum (map (fun b => a * f b) l).
Proof.
  induction l as [|b l IH]; [simpl; ring|].
  cbn [map Qsum fold_right].
  fold (Qsum (map f l)). fold (Qsum (map (fun b => a * f b) l)).
  rewrite <- IH. ring.
Qed.

Lemma Qsum_exchange {A B : Type} (h : A -> B -> Q) (l1 : list A)
  (l2 : list B) :
  Qsum (map (fun a => Qsum (map (h a) l2)) l1)
  == Qsum (map (fun b => Qsum (map (fun a => h a b) l1)) l2).
Proof.
  induction l1 as [|a l1 IH].
  - cbn [map Qsum fold_right]. symmetry. apply Qsum_map_zero.
    intros b _. reflexivity.
  - cbn [map Qsum fold_right].
    fold (Qsum (map (fun a => Qsum (map (h a) l2)) l1)).
    rewrite IH, <- Qsum_map_plus. apply Qsum_map_ext.
    intros b _. reflexivity.
Qed.

Lemma dot_comm (u v : list Q) : dot u v == dot v u.
Proof.
  revert v. induction u as [|a u IH]; intros [|b v];
    try (unfold dot; simpl; ring).
  rewrite !dot_cons, IH. ring.
Qed.

Lemma dot_map_map {A : Type} (f g : A -> Q) (l : list A) :
  dot (map f l) (map g l) == Qsum (map (fun a => f a * g a) l).
Proof.
  induction l as [|a l IH]; [reflexivity|].
  cbn [map]. rewrite dot_cons, IH. reflexivity.
Qed.

Lemma gram_shape (k : nat) (X : mat) : square k (gram k X).
Proof.
  unfold square, same_length, gram, transpose.
  rewrite !length_map, length_seq. split; [reflexivity|].
  apply Forall_map. apply Forall_map. apply Forall_forall. intros c _.
  rewrite !length_map, length_seq. reflexivity.
Qed.

(** Row [c] of [X'X] applied to [x] is column [c] of [X] against [X x]. *)
Lemma gram_row_dot (k : nat) (X : mat) (x : list Q) (c : nat) :
  length x = k ->
  dot (map (dot (map (fun r => nth c r 0) X)) (transpose k X)) x
  == Qsum (map (fun r => nth c r 0 * dot r x) X).
Proof.
  intro Hx. unfold transpose. rewrite map_map, dot_comm, dot_seq.
  rewrite (Qsum_map_ext _
             (fun c' => Qsum (map (fun r => nth c' x 0
                                            * (nth c r 0 * nth c' r 0)) X))).
  - rewrite Qsum_exchange. apply Qsum_map_ext. intros r _. cbv beta.
    rewrite (dot_as_sum r x), Hx.
    rewrite (Qsum_scale_l (nth c r 0)). apply Qsum_map_ext.
    intros c' _. ring.
  - intros c' _. rewrite dot_map_map. apply Qsum_scale_l.
Qed.

Lemma gram_kernel (k : nat) (X : mat) (x : list Q) :
  length x = k -> (in_kernel (gram k X) x <-> in_kernel X x).
Proof.
  intro Hx. unfold in_kernel, gram.
  assert (Hrows : Forall (fun r => dot r x == 0)
                    (map (fun ci => map (dot ci) (transpose k X))
                         (transpose k X))
                  <-> forall c, (c < k)%nat ->
                        Qsum (map (fun r => nth c r 0 * dot r x) X) == 0).
  { unfold transpose at 2. rewrite map_map, Forall_map, Forall_forall.
    split.
    - intros H c Hc. rewrite <- (gram_row_dot k X x c Hx).
      apply H. apply in_seq. lia.
    - intros H c Hc. apply in_seq in Hc.
      rewrite (gram_row_dot k X x c Hx). apply H. lia. }
  rewrite Hrows. clear Hrows. split.
  - intro H.
    assert (Hq : Qsum (map (fun r => dot r x * dot r x) X) == 0).
    { rewrite (Qsum_map_ext _
                 (fun r => Qsum (map (fun c => nth c x 0
                                              * (nth c r 0 * dot r x))
                                     (seq 0 k)))).
      - rewrite <- Qsum_exchange. apply Qsum_map_zero.
        intros c Hc. apply in_seq in Hc.
        rewrite <- Qsum_scale_l, H by lia. ring.
      - intros r _. cbv beta.
        setoid_replace (dot r x * dot r x)
          with (dot r x * Qsum (map (fun c => nth c r 0 * nth c x 0)
                                    (seq 0 k)))
          by (rewrite <- Hx, <- dot_as_sum; reflexivity).
        rewrite (Qsum_scale_l (dot r x)).
        apply Qsum_map_ext. intros c _. ring. }
    apply Qsum_zero_all_zero in Hq.
    + rewrite Forall_map in Hq. eapply Forall_impl; [|exact Hq].
      intros r Hr. cbv beta in Hr. destruct (Qmult_integral _ _ Hr); assumption.
    + apply Forall_map. apply Forall_forall. intros r _. apply Qsquare_nonneg.
  - intros H c _. apply Qsum_map_zero. intros r Hr.
    rewrite Forall_forall in H. rewrite (H r Hr). ring.
Qed.

(** [X'X] is singular exactly when the columns of [X] are linearly
    dependent. *)
Lemma gram_dependent (k : nat) (X : mat) :
  dependent k (gram k X) <-> dependent k X.
Proof.
  unfold dependent. split; intros (x & Hx & Hnz & Hker); exists x;
    (split; [exact Hx|]); (split; [exact Hnz|]);
    apply (gram_kernel k X x Hx); exact Hker.
Qed.

(** ** Factor regression *)

Section Regression.
Context {L : Lib}.

Lemma np_inv_outcome (M : mat) :
  np_inv M = Raise LinAlgError \/ exists G, np_inv M = Ok G.
Proof.
  unfold np_inv.
  destruct (gauss_jordan _ _ _ _); [right; eexists; reflexivity|left; reflexivity].
Qed.

(** The outcome of [factor_regression], by the number [n] of joined rows
    and the number [k] of regressors. *)
Lemma factor_regression_cases (port_rets : list (Date * cell))
  (factors : DataFrame) :
  let rows := joined_rows port_rets factors in
  let n := length rows in
  let k := S (length (df_columns factors)) in
  (n = 0%nat /\ factor_regression port_rets factors = Raise no_overlap)
  \/ ((0 < n <= k)%nat
      /\ factor_regression port_rets factors = Raise not_enough)
  \/ ((k < n)%nat /\ np_inv (gram k (design rows)) = Raise LinAlgError
      /\ factor_regression port_rets factors = Raise LinAlgError)
  \/ ((k < n)%nat /\ (exists G, np_inv (gram k (design rows)) = Ok G)
      /\ exists r, factor_regression port_rets factors = Ok r).
Proof.
  cbv zeta. unfold factor_regression, no_overlap, not_enough.
  destruct (joined_rows port_rets factors) as [|row rows'].
  { left. split; reflexivity. }
  right.
  set (rows := row :: rows').
  set (k := S (length (df_columns factors))).
  change (map (cons 1) (map (@tl Q) rows)) with (design rows).
  assert (Hn : length (design rows) = length rows).
  { unfold design. rewrite !length_map. reflexivity. }
  rewrite Hn.
  destruct (Z.of_nat (length rows) - Z.of_nat k <=? 0)%Z eqn:Edf.
  { left. apply Z.leb_le in Edf. split; [|reflexivity].
    unfold rows in *. simpl length in *. lia. }
  right. apply Z.leb_gt in Edf.
  assert (Hk : (k < length rows)%nat) by lia.
  destruct (np_inv_outcome (gram k (design rows))) as [Hs | [G HG]].
  - left. rewrite Hs. repeat split; assumption || reflexivity.
  - right. rewrite HG. split; [exact Hk|]. split; [exists G; reflexivity|].
    eexists. reflexivity.
Qed.

Lemma normal_matrix_outcome (k : nat) (X : mat) :
  (np_inv (gram k X) = Raise LinAlgError <-> dependent k X)
  /\ ((exists G, np_inv (gram k X) = Ok G) <-> ~ dependent k X).
Proof.
  pose proof (np_inv_singular k (gram k X) (gram_shape k X)) as Hs.
  rewrite gram_dependent in Hs.
  split; [exact Hs|].
  destruct (np_inv_outcome (gram k X)) as [Hr | [G HG]].
  - split.
    + intros [G HG]. congruence.
    + intro Hn. exfalso. apply Hn. apply Hs. exact Hr.
  - split.
    + intros _ Hd. apply Hs in Hd. congruence.
    + intros _. exists G. exact HG.
Qed.

(** A regressor that is zero on every row makes the regressors linearly
    dependent, and the inversion of the normal matrix fail. *)
Lemma zero_column_dependent (k j : nat) (X : mat) :
  (j < k)%nat -> Forall (fun r => nth j r 0 == 0) X -> dependent k X.
Proof.
  intros Hj Hz.
  exists (map (fun c => if (c =? j)%nat then 1 else 0) (seq 0 k)).
  split; [rewrite length_map, length_seq; reflexivity|]. split.
  - unfold nonzero. apply Exists_exists. exists 1. split; [|discriminate].
    apply in_map_iff. exists j. rewrite Nat.eqb_refl.
    split; [reflexivity|apply in_seq; lia].
  - unfold in_kernel. eapply Forall_impl; [|exact Hz].
    intros r Hr. cbv beta in *.
    rewrite dot_seq. apply Qsum_map_zero. intros c _.
    destruct (c =? j)%nat eqn:E; [|ring].
    apply Nat.eqb_eq in E. subst c. rewrite Hr. ring.
Qed.

(** C7 (amended).  [factor_regression] fails with the no-overlap error
    exactly when the join leaves no row, and with the
    not-enough-observations error exactly when it leaves at least one row
    but no more rows than regressors.  With more rows than regressors
    the outcome is that of the unguarded inversion of [X'X]: a result
    exactly when [np.linalg.inv] returns, NumPy's [LinAlgError] exactly
    when it raises, which it does when a regressor is zero on every
    joined row. *)
Theorem factor_regression_outcomes (port_rets : list (Date * cell))
  (factors : DataFrame) :
  let rows := joined_rows port_rets factors in
  let n := length rows in
  let k := S (length (df_columns factors)) in
  (factor_regression port_rets factors = Raise no_overlap <-> n = 0%nat)
  /\ (factor_regression port_rets factors = Raise not_enough
      <-> (0 < n <= k)%nat)
  /\ (factor_regression port_rets factors = Raise LinAlgError
      <-> (k < n)%nat /\ np_inv (gram k (design rows)) = Raise LinAlgError)
  /\ ((exists r, factor_regression port_rets factors = Ok r)
      <-> (k < n)%nat /\ exists G, np_inv (gram k (design rows)) = Ok G)
  /\ (forall j, (k < n)%nat -> (j < k)%nat ->
        Forall (fun r => nth j r 0 == 0) (design rows) ->
        factor_regression port_rets factors = Raise LinAlgError).
Proof.
  cbv zeta.
  pose proof (factor_regression_cases port_rets factors) as H. cbv zeta in H.
  assert (Hzero : forall j,
            (j < S (length (df_columns factors)))%nat ->
            Forall (fun r => nth j r 0 == 0)
                   (design (joined_rows port_rets factors)) ->
            np_inv (gram (S (length (df_columns factors)))
                         (design (joined_rows port_rets factors)))
            = Raise LinAlgError).
  { intros j Hj Hz. apply (proj1 (normal_matrix_outcome _ _)).
    apply (zero_column_dependent _ j); assumption. }
  destruct H as [(Hn & E) | [(Hn & E) | [(Hn & Hs & E) | (Hn & HG & (r & E))]]];
    rewrite E; unfold no_overlap, not_enough.
  - split; [tauto|]. split; [split; [discriminate|lia]|].
    split; [split; [discriminate|lia]|].
    split; [split; [intros [r H]; discriminate|lia]|].
    intros j Hk. lia.
  - split; [split; [discriminate|lia]|]. split; [tauto|].
    split; [split; [discriminate|lia]|].
    split; [split; [intros [r H]; discriminate|lia]|].
    intros j Hk. lia.
  - split; [split; [discriminate|lia]|].
    split; [split; [discriminate|lia]|]. split; [tauto|].
    split; [split; [intros [r H]; discriminate|]|].
    + intros [_ [G HG]]. congruence.
    + intros j _ _ _. reflexivity.
  - split; [split; [discriminate|lia]|].
    split; [split; [discriminate|lia]|].
    split; [split; [discriminate|]|].
    + intros [_ Hs]. destruct HG as [G HG]. congruence.
    + split; [split; [tauto|intros _; exists r; reflexivity]|].
      intros j _ Hj Hz. pose proof (Hzero j Hj Hz) as Hs.
      destruct HG as [G HG]. congruence.
Qed.

End Regression.

(** Three joined rows on the line [y = 2 + 3 x]: the inversion returns,
    and so does the regression, with the coefficients of the line and
    [R2 = 1].  Three rows with a factor that is zero throughout: the
    call raises. *)
Lemma factor_regression_outcomes_witness :
  (exists r,
     factor_regression exact_line moving_factor = Ok r
     /\ Forall2 (fun c b => fst c = fst b /\ snd c == snd b)
                (coef r) [("const", 2); ("OIL", 3)]%string
     /\ r2 r =f= Fin 1
     /\ df_resid r = 1%Z)
  /\ factor_regression three_days flat_factor = Raise LinAlgError.
Proof.
  split.
  - destruct (factor_regression_outcomes exact_line moving_factor)
      as (_ & _ & _ & Hok & _).
    destruct (proj2 Hok) as [r Hr].
    + split; [vm_compute; lia|]. eexists. vm_compute. reflexivity.
    + exists r. split; [exact Hr|].
      vm_compute in Hr. injection Hr as <-.
      repeat split; repeat constructor.
  - destruct (factor_regression_outcomes three_days flat_factor)
      as (_ & _ & _ & _ & Hzero).
    apply (Hzero 1%nat); [vm_compute; lia|vm_compute; lia|].
    repeat constructor.
Defined.

(** C7 as stated fails: three observations and two regressors, one of
    them a factor that is zero on every date.  The design matrix has a
    column of zeros, the normal matrix is singular and the call raises
    [LinAlgError] instead of returning a result. *)
Lemma factor_regression_counterexample :
  length (joined_rows three_days flat_factor) = 3%nat
  /\ S (length (df_columns flat_factor)) = 2%nat
  /\ in_kernel (design (joined_rows three_days flat_factor)) [0; 1]
  /\ factor_regression three_days flat_factor = Raise LinAlgError.
Proof.
  split; [reflexivity|]. split; [reflexivity|].
  split; [repeat constructor|reflexivity].
Qed.

(** * Further properties of the code *)

(** ** The inverse that the elimination returns *)

Lemma dot_app (a b c d : list Q) :
  length a = length c -> dot (a ++ b) (c ++ d) == dot a c + dot b d.
Proof.
  revert c. induction a as [|x a IH]; intros [|y c] H; try discriminate.
  - cbn [app]. unfold dot at 2. simpl. ring.
  - cbn [app]. rewrite !dot_cons, IH by (simpl in H; lia). ring.
Qed.

Lemma dot_opp_r (u v : list Q) : dot u (map Qopp v) == - dot u v.
Proof.
  revert v. induction u as [|x u IH]; intros [|y v]; cbn [map];
    try (unfold dot; simpl; ring).
  rewrite !dot_cons, IH. ring.
Qed.

Lemma dot_compat_r (u v v' : list Q) :
  Forall2 Qeq v v' -> dot u v == dot u v'.
Proof.
  intro H. revert u. induction H as [|y y' v v' Hy _ IH]; intros [|x u];
    try reflexivity.
  rewrite !dot_cons, IH, Hy. reflexivity.
Qed.

Lemma matvec_compat (M : mat) (v v' : list Q) :
  Forall2 Qeq v v' -> Forall2 Qeq (matvec M v) (matvec M v').
Proof.
  intro H. unfold matvec. induction M as [|r M IH]; cbn [map]; constructor.
  - apply dot_compat_r. exact H.
  - exact IH.
Qed.

Lemma Forall2_Qeq_nth (u v : list Q) :
  length u = length v ->
  (forall i, (i < length u)%nat -> nth i u 0 == nth i v 0) ->
  Forall2 Qeq u v.
Proof.
  revert v. induction u as [|a u IH]; intros [|b v] Hlen H; try discriminate.
  - constructor.
  - constructor.
    + apply (H 0%nat). simpl. lia.
    + apply IH; [simpl in Hlen; lia|].
      intros i Hi. apply (H (S i)). simpl. lia.
Qed.

Lemma Forall2_Qeq_trans (u v w : list Q) :
  Forall2 Qeq u v -> Forall2 Qeq v w -> Forall2 Qeq u w.
Proof.
  intro H. revert w. induction H as [|a b u v Hab _ IH]; intros w Hw;
    inversion Hw; subst; constructor.
  - etransitivity; eassumption.
  - apply IH. assumption.
Qed.

Lemma nth_identity (k i c : nat) :
  (i < k)%nat -> (c < k)%nat ->
  nth c (nth i (identity k) []) 0 = (if (i =? c)%nat then 1 else 0).
Proof.
  intros Hi Hc. unfold identity.
  rewrite (nth_map_lt _ _ _ _ 0%nat) by (rewrite length_seq; exact Hi).
  rewrite seq_nth by exact Hi.
  rewrite (nth_map_lt _ _ _ _ 0%nat) by (rewrite length_seq; exact Hc).
  rewrite seq_nth by exact Hc. reflexivity.
Qed.

Lemma augment_probe (k : nat) (M : mat) (v : list Q) :
  square k M -> length v = k -> in_kernel (augment M) (inverse_probe M v).
Proof.
  intros [Hk Hrows] Hv. unfold in_kernel, augment, inverse_probe.
  apply Forall_forall. intros row Hin.
  apply in_map_iff in Hin. destruct Hin as ([r e] & <- & Hin).
  cbn [fst snd].
  destruct (In_nth _ _ ([], []) Hin) as (i & Hi & Ei).
  rewrite length_combine in Hi.
  destruct (identity_shape (length M)) as [Hil Hirows].
  rewrite Hil, Nat.min_id, Hk in Hi.
  rewrite combine_nth in Ei by (rewrite Hil; reflexivity).
  injection Ei as Er Ee.
  unfold same_length in Hrows. rewrite Forall_forall in Hrows.
  assert (Hr : length r = length v).
  { rewrite Hv. apply Hrows. rewrite <- Er. apply nth_In. lia. }
  rewrite dot_app by exact Hr. rewrite dot_opp_r.
  rewrite (dot_unit e (matvec M v) i).
  - unfold matvec. rewrite (nth_map_lt _ _ _ _ []) by lia.
    rewrite Er. ring.
  - unfold matvec. rewrite length_map. lia.
  - intros c Hc. unfold matvec in Hc. rewrite length_map, Hk in Hc.
    rewrite <- Ee, Hk. rewrite nth_identity by lia. reflexivity.
Qed.

Lemma np_inv_shape (k : nat) (M G : mat) :
  square k M -> np_inv M = Ok G -> length G = k.
Proof.
  intros Hsq HG. unfold np_inv in HG.
  destruct (augment_shape k M Hsq) as [Hlen Hrows].
  destruct Hsq as [Hk HM]. rewrite Hk in HG.
  destruct (gauss_jordan k 0 [] (augment M)) as [rows|] eqn:Egj;
    [|discriminate].
  injection HG as <-.
  assert (Hnil : same_length (k + k) []) by constructor.
  destruct (gauss_jordan_some (k + k) k 0 [] (augment M) rows
              Hnil Hrows Hlen (reduced_start _) Egj)
    as (_ & (Hcount & _) & _).
  rewrite length_map. exact Hcount.
Qed.

(** The matrix that [np.linalg.inv] returns is a left inverse. *)
Lemma np_inv_left_inverse (k : nat) (M G : mat) (v : list Q) :
  square k M -> np_inv M = Ok G -> length v = k ->
  Forall2 Qeq (matvec G (matvec M v)) v.
Proof.
  intros Hsq HG Hv.
  pose proof (np_inv_shape k M G Hsq HG) as HGlen.
  pose proof (augment_probe k M v Hsq Hv) as Hprobe.
  unfold np_inv in HG.
  destruct (augment_shape k M Hsq) as [Hlen Hrows].
  destruct Hsq as [Hk HM]. rewrite Hk in HG.
  destruct (gauss_jordan k 0 [] (augment M)) as [rows|] eqn:Egj;
    [|discriminate].
  injection HG as <-.
  assert (Hnil : same_length (k + k) []) by constructor.
  destruct (gauss_jordan_some (k + k) k 0 [] (augment M) rows
              Hnil Hrows Hlen (reduced_start _) Egj)
    as (Hshape & (Hcount & Hid & _) & Hsame).
  simpl in Hcount.
  apply (Hsame (inverse_probe M v)) in Hprobe.
  unfold in_kernel in Hprobe. rewrite Forall_forall in Hprobe.
  unfold same_length in Hshape. rewrite Forall_forall in Hshape.
  apply Forall2_Qeq_nth.
  - unfold matvec. rewrite !length_map. lia.
  - intros i Hi. unfold matvec in Hi. rewrite !length_map in Hi.
    unfold matvec at 1. rewrite map_map.
    rewrite (nth_map_lt _ _ _ _ []) by exact Hi.
    assert (Hin : In (nth i rows []) rows) by (apply nth_In; exact Hi).
    pose proof (Hprobe _ Hin) as H0. pose proof (Hshape _ Hin) as Hl.
    unfold inverse_probe in H0.
    rewrite <- (firstn_skipn k (nth i rows [])) in H0 at 1.
    rewrite dot_app in H0 by (rewrite length_firstn; lia).
    rewrite dot_opp_r in H0.
    rewrite (dot_unit (firstn k (nth i rows [])) v i) in H0.
    + lra.
    + lia.
    + intros c Hc. rewrite Hv in Hc.
      rewrite <- (Hid i c) by lia.
      rewrite <- (firstn_skipn k (nth i rows [])) at 2.
      rewrite app_nth1 by (rewrite length_firstn; lia). reflexivity.
Qed.

Lemma Forall2_map_same {A : Type} (f g : A -> Q) (l : list A) :
  (forall a, In a l -> f a == g a) -> Forall2 Qeq (map f l) (map g l).
Proof.
  induction l as [|a l IH]; intro H; cbn [map]; constructor.
  - apply H. left. reflexivity.
  - apply IH. intros a' Ha. apply H. right. exact Ha.
Qed.

Lemma Forall2_Qeq_sym (u v : list Q) : Forall2 Qeq u v -> Forall2 Qeq v u.
Proof.
  induction 1; constructor; [symmetry|]; assumption.
Qed.

(** [X' (X b) = (X'X) b] *)
Lemma transpose_matvec (k : nat) (X : mat) (b : list Q) :
  length b = k ->
  Forall2 Qeq (matvec (transpose k X) (matvec X b)) (matvec (gram k X) b).
Proof.
  intro Hb. unfold gram, matvec. rewrite map_map.
  unfold transpose at 1 3. rewrite !map_map.
  apply Forall2_map_same. intros c _.
  rewrite (gram_row_dot k X b c Hb). apply dot_map_map.
Qed.

Section ExactFit.
Context {L : Lib}.

Lemma lstsq_exact (k : nat) (X G : mat) (y b : list Q) :
  length b = k -> np_inv (gram k X) = Ok G ->
  Forall2 Qeq y (matvec X b) ->
  Forall2 Qeq (np_lstsq k X y) b.
Proof.
  intros Hb HG Hy. unfold np_lstsq. rewrite HG.
  eapply Forall2_Qeq_trans.
  - apply matvec_compat. eapply Forall2_Qeq_trans.
    + apply matvec_compat. exact Hy.
    + apply transpose_matvec. exact Hb.
  - apply (np_inv_left_inverse k); [apply gram_shape|exact HG|exact Hb].
Qed.

Lemma residuals_zero (y y_hat : list Q) :
  Forall2 Qeq y y_hat ->
  Qsum (map (fun e => e * e)
            (map (fun ab => fst ab - snd ab) (combine y y_hat))) == 0.
Proof.
  induction 1 as [|a b y y_hat Hab _ IH]; [reflexivity|].
  cbn [combine map Qsum fold_right fst snd].
  fold (Qsum (map (fun e => e * e)
                  (map (fun ab => fst ab - snd ab) (combine y y_hat)))).
  rewrite IH, Hab. ring.
Qed.

Lemma map_fst_combine_eq {A B : Type} (a : list A) (b : list B) :
  length a = length b -> map fst (combine a b) = a.
Proof.
  revert b. induction a as [|x a IH]; intros [|y b] H; try discriminate;
    [reflexivity|].
  cbn [combine map fst]. f_equal. apply IH. simpl in H. lia.
Qed.

Lemma map_snd_combine_eq {A B : Type} (a : list A) (b : list B) :
  length a = length b -> map snd (combine a b) = b.
Proof.
  revert b. induction a as [|x a IH]; intros [|y b] H; try discriminate;
    [reflexivity|].
  cbn [combine map snd]. f_equal. apply IH. simpl in H. lia.
Qed.

(** What [factor_regression] returns when it returns. *)
Lemma factor_regression_value (port_rets : list (Date * cell))
  (factors : DataFrame) (G : mat) :
  let rows := joined_rows port_rets factors in
  let k := S (length (df_columns factors)) in
  let X := design rows in
  let y := map (hd 0) rows in
  let colnames := "const"%string :: map fst (df_columns factors) in
  let beta := np_lstsq k X y in
  let rss := Qsum (map (fun e => e * e)
                       (map (fun ab => fst ab - snd ab)
                            (combine y (matvec X beta)))) in
  let dfr := (Z.of_nat (length rows) - Z.of_nat k)%Z in
  let se := map (fun i => fsqrt (Fin (rss / inject_Z dfr
                                      * nth i (nth i G []) 0)))
                (seq 0 k) in
  (k < length rows)%nat -> np_inv (gram k X) = Ok G ->
  factor_regression port_rets factors
  = Ok (mkRegression
          (combine colnames beta) (combine colnames se)
          (combine colnames
             (map (fun bs => let t := (Fin (fst bs) / snd bs)%fl in
                             if isfinite t then t else NaN)
                  (combine beta se)))
          (if Qlt_bool 0 (total_sum_squares y)
           then Fin (1 - rss / total_sum_squares y) else NaN)
          dfr).
Proof.
  cbv zeta. intros Hk HG. unfold factor_regression, total_sum_squares.
  destruct (joined_rows port_rets factors) as [|row rows'] eqn:E;
    [simpl in Hk; lia|].
  set (rows := row :: rows') in *.
  change (map (cons 1) (map (@tl Q) rows)) with (design rows).
  assert (Hn : length (design rows) = length rows).
  { unfold design. rewrite !length_map. reflexivity. }
  rewrite Hn.
  destruct (Z.of_nat (length rows)
            - Z.of_nat (S (length (df_columns factors))) <=? 0)%Z eqn:Edf.
  { apply Z.leb_le in Edf. lia. }
  rewrite HG. reflexivity.
Qed.

Lemma np_lstsq_length (k : nat) (X G : mat) (y : list Q) :
  np_inv (gram k X) = Ok G -> length (np_lstsq k X y) = k.
Proof.
  intro HG. unfold np_lstsq. rewrite HG. unfold matvec at 1.
  rewrite length_map. apply (np_inv_shape k (gram k X)); [apply gram_shape|].
  exact HG.
Qed.

(** X1.  A result of [factor_regression] has the shape the caller reads:
    the residual degrees of freedom are the number of joined rows minus
    the number of regressors and are positive; the coefficients, the
    standard errors and the t-statistics each have one entry per
    regressor, labelled [const] and then the factor columns in their
    order; and a t-statistic is a finite number or [NaN], never
    infinite. *)
Theorem regression_result_shape (port_rets : list (Date * cell))
  (factors : DataFrame) (r : RegressionResult) :
  factor_regression port_rets factors = Ok r ->
  let names := "const"%string :: map fst (df_columns factors) in
  df_resid r = (Z.of_nat (length (joined_rows port_rets factors))
                - Z.of_nat (length names))%Z
  /\ (0 < df_resid r)%Z
  /\ map fst (coef r) = names
  /\ map fst (stderr r) = names
  /\ map fst (tstat r) = names
  /\ Forall (fun t => snd t = NaN \/ exists q, snd t = Fin q) (tstat r).
Proof.
  intro Hr. cbv zeta.
  pose proof (factor_regression_cases port_rets factors) as Hc.
  cbv zeta in Hc.
  destruct Hc as [(_ & E) | [(_ & E) | [(_ & _ & E) | (Hk & [G HG] & _)]]];
    try (rewrite E in Hr; discriminate Hr).
  pose proof (factor_regression_value port_rets factors G Hk HG) as Hv.
  cbv zeta in Hv. rewrite Hv in Hr. clear Hv.
  pose proof (np_lstsq_length _ _ G
                (map (hd 0) (joined_rows port_rets factors)) HG) as Hb.
  set (names := "const"%string :: map fst (df_columns factors)) in *.
  set (beta := np_lstsq _ _ _) in *.
  set (se := map (fun i => fsqrt _) _) in *.
  assert (Hnames : length names = S (length (df_columns factors))).
  { unfold names. cbn [length]. rewrite length_map. reflexivity. }
  assert (Hse : length se = S (length (df_columns factors))).
  { unfold se. rewrite length_map, length_seq. reflexivity. }
  apply Ok_inj in Hr. subst r. cbn [df_resid coef stderr tstat].
  split; [rewrite Hnames; reflexivity|]. split; [lia|].
  split; [apply map_fst_combine_eq; lia|].
  split; [apply map_fst_combine_eq; lia|].
  split.
  { apply map_fst_combine_eq. rewrite length_map, length_combine. lia. }
  apply Forall_forall. intros [name t] Hin. cbn [snd].
  apply in_combine_r in Hin. apply in_map_iff in Hin.
  destruct Hin as ([bq s] & <- & _). cbn [fst snd].
  destruct (Fin bq / s)%fl; cbn [isfinite]; eauto.
Qed.

Lemma design_fit (rows : list (list Q)) (b : list Q) :
  Forall (fun row => hd 0 row == dot (1 :: tl row) b) rows ->
  Forall2 Qeq (map (hd 0) rows) (matvec (design rows) b).
Proof.
  unfold design, matvec. rewrite !map_map.
  induction 1 as [|row rows Hrow _ IH]; cbn [map]; constructor; assumption.
Qed.


End ExactFit.


Lemma regression_result_shape_witness :
  exists r,
    factor_regression exact_line moving_factor = Ok r
    /\ df_resid r = 1%Z
    /\ map fst (coef r) = ["const"; "OIL"]%string.
Proof.
  destruct (factor_regression exact_line moving_factor) as [r|e] eqn:E;
    [|vm_compute in E; discriminate E].
  exists r. split; [reflexivity|].
  destruct (regression_result_shape exact_line moving_factor r E)
    as (Hdf & _ & Hc & _).
  split; [exact Hdf|exact Hc].
Defined.

(** ** Scenario shocks *)

Lemma dict_set_fresh {A : Type} (k : string) (v : A) (d : list (string * A)) :
  ~ In k (map fst d) -> dict_set k v d = d ++ [(k, v)].
Proof.
  induction d as [|[k' v'] d IH]; intro H; [reflexivity|].
  cbn [dict_set]. destruct (String.eqb k k') eqn:E.
  - apply String.eqb_eq in E. subst k'. exfalso. apply H. left. reflexivity.
  - cbn [app]. f_equal. apply IH. intro Hin. apply H. right. exact Hin.
Qed.

Lemma dict_update_fresh {A : Type} (e d : list (string * A)) :
  NoDup (map fst (d ++ e)) -> dict_update d e = d ++ e.
Proof.
  unfold dict_update. revert d.
  induction e as [|[k v] e IH]; intros d H; cbn [fold_left fst snd].
  - rewrite app_nil_r. reflexivity.
  - assert (Hk : ~ In k (map fst d)).
    { rewrite map_app in H. cbn [map fst] in H.
      apply NoDup_remove_2 in H. intro Hin. apply H.
      apply in_or_app. left. exact Hin. }
    rewrite (dict_set_fresh k v d Hk).
    rewrite IH; rewrite <- app_assoc; [reflexivity|exact H].
Qed.

Lemma py_sum_from (xs : list Q) (a : Q) :
  fold_left Qplus xs a == a + Qsum xs.
Proof.
  revert a. induction xs as [|x xs IH]; intro a; cbn [fold_left].
  - unfold Qsum. simpl. ring.
  - rewrite IH. unfold Qsum. cbn [fold_right]. ring.
Qed.

Lemma py_sum_Qsum (xs : list Q) : py_sum xs == Qsum xs.
Proof. unfold py_sum. rewrite py_sum_from. ring. Qed.

Lemma factor_names_spec (params : list (string * Q)) (k : string) :
  In k (factor_names params) <-> In k (map fst params) /\ k <> "const"%string.
Proof.
  unfold factor_names. rewrite filter_In, negb_true_iff, String.eqb_neq.
  reflexivity.
Qed.

Lemma factor_names_NoDup (params : list (string * Q)) :
  NoDup (map fst params) -> NoDup (factor_names params).
Proof. intro H. apply NoDup_filter. exact H. Qed.

(** The scenario impact as the dot product the code computes: the
    intercept, and each factor coefficient times its shock. *)
Lemma apply_factor_shocks_dot (params shocks : list (string * Q)) :
  NoDup (map fst params) ->
  apply_factor_shocks params shocks
  == dict_get params "const" 0
     + Qsum (map (fun k => dict_get params k 0 * dict_get shocks k 0)
                 (factor_names params)).
Proof.
  intro Hnd. unfold apply_factor_shocks. fold (factor_names params).
  pose proof (factor_names_NoDup params Hnd) as Hf.
  assert (Hitems : map fst (map (fun k => (k, dict_get shocks k 0))
                                (factor_names params))
                   = factor_names params).
  { rewrite map_map. cbn [fst]. apply map_id. }
  unfold dict_of_items.
  rewrite (dict_update_fresh _ [])
    by (cbn [app]; rewrite Hitems; exact Hf).
  cbn [app].
  rewrite dict_update_fresh.
  - cbn [app map fst snd]. rewrite py_sum_Qsum.
    unfold Qsum at 1. cbn [fold_right]. rewrite map_map. cbn [fst snd].
    fold (Qsum (map (fun k => dict_get params k 0 * dict_get shocks k 0)
                    (factor_names params))).
    ring.
  - cbn [app map fst]. rewrite Hitems. constructor; [|exact Hf].
    intro Hin. apply factor_names_spec in Hin. destruct Hin as [_ Hc].
    apply Hc. reflexivity.
Qed.

(** X3.  [apply_factor_shocks] reads the shocks only at the factors of
    the model: two shock dictionaries that agree there give the same
    impact.  A shock on a name the model does not have, or on [const],
    changes nothing. *)
Theorem shocks_outside_model_ignored (params s1 s2 : list (string * Q)) :
  NoDup (map fst params) ->
  (forall k, In k (factor_names params) ->
     dict_get s1 k 0 == dict_get s2 k 0) ->
  apply_factor_shocks params s1 == apply_factor_shocks params s2.
Proof.
  intros Hnd H. rewrite !apply_factor_shocks_dot by exact Hnd.
  apply Qplus_comp; [reflexivity|]. apply Qsum_map_ext.
  intros k Hk. rewrite (H k Hk). reflexivity.
Qed.

Lemma shocks_outside_model_ignored_witness :
  apply_factor_shocks [("const", 0.01); ("OIL", 0.5)]%string
                      [("OIL", -0.1)]%string
  == apply_factor_shocks [("const", 0.01); ("OIL", 0.5)]%string
                         [("const", 5); ("GOLD", 1); ("OIL", -0.1)]%string.
Proof.
  apply shocks_outside_model_ignored.
  - repeat constructor; simpl; intuition discriminate.
  - intros k Hk. simpl in Hk. destruct Hk as [<-|[]]. reflexivity.
Defined.

(** X4.  With no shock on any factor of the model (an empty dictionary
    in particular) the scenario impact is the intercept of the model, and
    [0] for a model without a [const] coefficient. *)
Theorem no_shock_gives_intercept (params shocks : list (string * Q)) :
  NoDup (map fst params) ->
  (forall k, In k (factor_names params) -> dict_get shocks k 0 == 0) ->
  apply_factor_shocks params shocks == dict_get params "const" 0.
Proof.
  intros Hnd H. rewrite apply_factor_shocks_dot by exact Hnd.
  rewrite Qsum_map_zero; [ring|].
  intros k Hk. rewrite (H k Hk). ring.
Qed.

Lemma no_shock_gives_intercept_witness :
  apply_factor_shocks [("const", 0.01); ("OIL", 0.5)]%string [] == 0.01
  /\ apply_factor_shocks [("OIL", 0.5)]%string [("USD", 0.02)]%string == 0.
Proof.
  split.
  - apply (no_shock_gives_intercept [("const", 0.01); ("OIL", 0.5)]%string []).
    + repeat constructor; simpl; intuition discriminate.
    + intros k _. reflexivity.
  - apply (no_shock_gives_intercept [("OIL", 0.5)]%string
             [("USD", 0.02)]%string).
    + repeat constructor; simpl; intuition discriminate.
    + intros k Hk. simpl in Hk. destruct Hk as [<-|[]]. reflexivity.
Defined.

(** X5.  Beyond the intercept the scenario impact is linear in the
    shocks: a scenario whose shocks are [a s1 + b s2] on the factors of
    the model has the impact [a] times that of [s1] plus [b] times that
    of [s2]. *)
Theorem scenario_impact_linear (params s1 s2 s : list (string * Q))
  (a b : Q) :
  NoDup (map fst params) ->
  (forall k, In k (factor_names params) ->
     dict_get s k 0 == a * dict_get s1 k 0 + b * dict_get s2 k 0) ->
  apply_factor_shocks params s - dict_get params "const" 0
  == a * (apply_factor_shocks params s1 - dict_get params "const" 0)
     + b * (apply_factor_shocks params s2 - dict_get params "const" 0).
Proof.
  intros Hnd H. rewrite !apply_factor_shocks_dot by exact Hnd.
  set (c0 := dict_get params "const" 0).
  set (f1 := fun k => dict_get params k 0 * dict_get s1 k 0).
  set (f2 := fun k => dict_get params k 0 * dict_get s2 k 0).
  rewrite (Qsum_map_ext _ (fun k => a * f1 k + b * f2 k)).
  - rewrite Qsum_map_plus.
    rewrite <- (Qsum_scale_l a f1), <- (Qsum_scale_l b f2). ring.
  - intros k Hk. cbv beta. unfold f1, f2. rewrite (H k Hk). ring.
Qed.

Lemma scenario_impact_linear_witness :
  apply_factor_shocks [("const", 0.01); ("OIL", 0.5); ("USD", -1)]%string
                      [("OIL", -0.2); ("USD", 0.04)]%string
  - 0.01
  == 2 * (apply_factor_shocks
            [("const", 0.01); ("OIL", 0.5); ("USD", -1)]%string
            [("OIL", -0.1)]%string - 0.01)
     + 4 * (apply_factor_shocks
              [("const", 0.01); ("OIL", 0.5); ("USD", -1)]%string
              [("USD", 0.01)]%string - 0.01).
Proof.
  apply (scenario_impact_linear
           [("const", 0.01); ("OIL", 0.5); ("USD", -1)]%string
           [("OIL", -0.1)]%string [("USD", 0.01)]%string
           [("OIL", -0.2); ("USD", 0.04)]%string 2 4).
  - repeat constructor; simpl; intuition discriminate.
  - intros k Hk. simpl in Hk. destruct Hk as [<-|[<-|[]]]; reflexivity.
Defined.

(** A sum over a duplicate-free list, read over a larger one outside of
    which the summand vanishes. *)
Lemma Qsum_subset (h : string -> Q) (l2 : list string) :
  forall l1, NoDup l1 -> NoDup l2 -> incl l1 l2 ->
    (forall n, In n l2 -> ~ In n l1 -> h n == 0) ->
    Qsum (map h l1) == Qsum (map h l2).
Proof.
  induction l2 as [|n l2 IH]; intros l1 H1 H2 Hincl Hz.
  - destruct l1 as [|a l1]; [reflexivity|].
    exfalso. apply (Hincl a). left. reflexivity.
  - apply NoDup_cons_iff in H2. destruct H2 as [Hn H2].
    cbn [map]. unfold Qsum at 2. cbn [fold_right]. fold (Qsum (map h l2)).
    destruct (in_dec string_dec n l1) as [Hin|Hnot].
    + destruct (in_split n l1 Hin) as (a & b & ->).
      pose proof (NoDup_remove_1 _ _ _ H1) as H1'.
      pose proof (NoDup_remove_2 _ _ _ H1) as H1n.
      rewrite map_app. cbn [map]. rewrite Qsum_app.
      unfold Qsum at 2. cbn [fold_right]. fold (Qsum (map h b)).
      rewrite <- (IH (a ++ b) H1' H2).
      * rewrite map_app, Qsum_app. ring.
      * intros x Hx. assert (Hx' : In x (a ++ n :: b)).
        { apply in_app_or in Hx. apply in_or_app.
          destruct Hx; [left|right; right]; assumption. }
        destruct (Hincl x Hx') as [<-|Hl]; [contradiction|exact Hl].
      * intros x Hx Hnx. apply Hz; [right; exact Hx|].
        intro Hx'. apply in_app_or in Hx'.
        destruct Hx' as [Ha|[->|Hb]].
        -- apply Hnx. apply in_or_app. left. exact Ha.
        -- contradiction.
        -- apply Hnx. apply in_or_app. right. exact Hb.
    + rewrite (Hz n (or_introl eq_refl) Hnot).
      rewrite <- (IH l1 H1 H2).
      * ring.
      * intros x Hx. destruct (Hincl x Hx) as [<-|Hl];
          [contradiction|exact Hl].
      * intros x Hx Hnx. apply Hz; [right; exact Hx|exact Hnx].
Qed.

Lemma assoc_none {A : Type} (k : string) (l : list (string * A)) :
  ~ In k (map fst l) -> assoc k l = None.
Proof.
  induction l as [|[k' v] l IH]; intro H; [reflexivity|].
  cbn [assoc]. destruct (String.eqb k k') eqn:E.
  - apply String.eqb_eq in E. subst k'. exfalso. apply H. left. reflexivity.
  - apply IH. intro Hin. apply H. right. exact Hin.
Qed.

(** X6.  The scenario projection the application computes inline from
    the regression coefficients is [apply_factor_shocks] at the four
    slider values, for every coefficient series labelled by distinct
    names among [const], [OIL], [RATES], [USD] and [XLE]. *)
Theorem scenario_prediction_is_factor_shock (coefs : list (string * Q))
  (oil rates usd xle : Q) :
  NoDup (map fst coefs) ->
  incl (map fst coefs) ["const"; "OIL"; "RATES"; "USD"; "XLE"]%string ->
  scenario_prediction coefs oil rates usd xle
  == apply_factor_shocks coefs
       [("OIL", oil); ("RATES", rates); ("USD", usd); ("XLE", xle)]%string.
Proof.
  intros Hnd Hincl. rewrite apply_factor_shocks_dot by exact Hnd.
  set (shocks := [("OIL", oil); ("RATES", rates); ("USD", usd);
                  ("XLE", xle)]%string).
  rewrite (Qsum_subset
             (fun k => dict_get coefs k 0 * dict_get shocks k 0)
             ["OIL"; "RATES"; "USD"; "XLE"]%string).
  - unfold scenario_prediction, Qsum. cbn [map fold_right].
    change (dict_get shocks "OIL" 0) with oil.
    change (dict_get shocks "RATES" 0) with rates.
    change (dict_get shocks "USD" 0) with usd.
    change (dict_get shocks "XLE" 0) with xle. ring.
  - apply factor_names_NoDup. exact Hnd.
  - repeat constructor; simpl; intuition discriminate.
  - intros k Hk. apply factor_names_spec in Hk. destruct Hk as [Hk Hc].
    destruct (Hincl k Hk) as [<-|Hk']; [contradiction Hc; reflexivity|].
    exact Hk'.
  - intros n Hn Hnot. cbv beta.
    assert (Hc : n <> "const"%string).
    { intro E. subst n. simpl in Hn. intuition discriminate. }
    assert (Hout : ~ In n (map fst coefs)).
    { intro Hin. apply Hnot. apply factor_names_spec. split; assumption. }
    unfold dict_get at 1. rewrite (assoc_none n coefs Hout). ring.
Qed.

Lemma scenario_prediction_is_factor_shock_witness :
  scenario_prediction [("const", 0.001); ("OIL", 0.2); ("USD", -0.5)]%string
                      (-0.1) 0.02 0.02 (-0.05)
  == apply_factor_shocks
       [("const", 0.001); ("OIL", 0.2); ("USD", -0.5)]%string
       [("OIL", -0.1); ("RATES", 0.02); ("USD", 0.02);
        ("XLE", -0.05)]%string.
Proof.
  apply scenario_prediction_is_factor_shock.
  - repeat constructor; simpl; intuition discriminate.
  - intros k Hk. simpl in Hk. simpl. intuition.
Defined.

(** ** Hit rate, drawdown and the downside ratio *)

Lemma filter_all {A : Type} (f : A -> bool) (l : list A) :
  Forall (fun a => f a = true) l -> filter f l = l.
Proof.
  induction 1 as [|a l Ha _ IH]; [reflexivity|].
  cbn [filter]. rewrite Ha, IH. reflexivity.
Qed.

Lemma filter_length_all {A : Type} (f : A -> bool) (l : list A) :
  length (filter f l) = length l <-> Forall (fun a => f a = true) l.
Proof.
  split.
  - induction l as [|a l IH]; intro H; [constructor|].
    cbn [filter] in H. pose proof (filter_length_le f l) as Hle.
    destruct (f a) eqn:E; cbn [length] in H; [|lia].
    constructor; [exact E|]. apply IH. lia.
  - intro H. rewrite (filter_all f l H). reflexivity.
Qed.

Lemma filter_length_none {A : Type} (f : A -> bool) (l : list A) :
  length (filter f l) = 0%nat <-> Forall (fun a => f a = false) l.
Proof.
  split.
  - induction l as [|a l IH]; intro H; [constructor|].
    cbn [filter] in H. destruct (f a) eqn:E; [discriminate H|].
    constructor; [exact E|]. apply IH. exact H.
  - induction 1 as [|a l Ha _ IH]; [reflexivity|].
    cbn [filter]. rewrite Ha. exact IH.
Qed.

Lemma count_ratio (c n : nat) :
  (c <= n)%nat -> (0 < n)%nat ->
  let q := inject_Z (Z.of_nat c) / inject_Z (Z.of_nat n) in
  0 <= q /\ q <= 1 /\ (q == 1 <-> c = n) /\ (q == 0 <-> c = 0%nat).
Proof.
  intros Hc Hn. cbv zeta.
  assert (Hn' : 0 < inject_Z (Z.of_nat n)).
  { change 0 with (inject_Z 0). rewrite <- Zlt_Qlt. lia. }
  assert (Hc' : 0 <= inject_Z (Z.of_nat c)).
  { change 0 with (inject_Z 0). rewrite <- Zle_Qle. lia. }
  assert (Hcn : inject_Z (Z.of_nat c) <= inject_Z (Z.of_nat n)).
  { rewrite <- Zle_Qle. lia. }
  assert (Hnz : ~ inject_Z (Z.of_nat n) == 0).
  { intro Hz. rewrite Hz in Hn'. exact (Qlt_irrefl 0 Hn'). }
  split; [apply Qle_shift_div_l; [exact Hn'|rewrite Qmult_0_l; exact Hc']|].
  split; [apply Qle_shift_div_r; [exact Hn'|rewrite Qmult_1_l; exact Hcn]|].
  split; split; intro H.
  - assert (E : inject_Z (Z.of_nat c) == inject_Z (Z.of_nat n)).
    { rewrite <- (Qmult_div_r (inject_Z (Z.of_nat c)) (inject_Z (Z.of_nat n)))
        by exact Hnz.
      rewrite H. ring. }
    rewrite inject_Z_injective in E. lia.
  - subst c. field. exact Hnz.
  - assert (E : inject_Z (Z.of_nat c) == inject_Z 0).
    { rewrite <- (Qmult_div_r (inject_Z (Z.of_nat c)) (inject_Z (Z.of_nat n)))
        by exact Hnz.
      rewrite H. ring. }
    rewrite inject_Z_injective in E. lia.
  - subst c. change (inject_Z (Z.of_nat 0)) with 0. field. exact Hnz.
Qed.

Section MoreMetrics.
Context {L : Lib}.

(** X7.  The hit rate of a non-empty series is a fraction between 0 and
    1; it is 1 exactly when every entry is present and positive, and 0
    exactly when no entry is positive.  A missing entry counts as a
    miss. *)
Theorem hit_rate_range (rets : list cell) :
  rets <> [] ->
  exists q,
    hit_rate rets = Fin q /\ 0 <= q /\ q <= 1
    /\ (q == 1 <-> Forall (fun c => exists x, c = Some x /\ 0 < x) rets)
    /\ (q == 0 <-> Forall (fun c => forall x, c = Some x -> x <= 0) rets).
Proof.
  intro Hne. unfold hit_rate.
  set (positive := map (fun c => fltb (Fin 0) (cell_float c)) rets).
  assert (Hlen : length positive = length rets).
  { unfold positive. apply length_map. }
  assert (Hpos : (0 < length positive)%nat).
  { rewrite Hlen. destruct rets; [contradiction|simpl; lia]. }
  destruct positive as [|b t] eqn:E; [simpl in Hpos; lia|]. rewrite <- E in *.
  pose proof (count_ratio (length (filter id positive)) (length positive)
                (filter_length_le id positive) Hpos) as Hq.
  cbv zeta in Hq. destruct Hq as (H0 & H1 & Hone & Hzero).
  eexists. split; [reflexivity|]. split; [exact H0|]. split; [exact H1|].
  assert (Hcase : forall c : cell,
             (fltb (Fin 0) (cell_float c) = true
              <-> exists x, c = Some x /\ 0 < x)
             /\ (fltb (Fin 0) (cell_float c) = false
                 <-> forall x, c = Some x -> x <= 0)).
  { intros [x|]; cbn [cell_float fltb fleb].
    - rewrite negb_true_iff, negb_false_iff, Qle_bool_false, Qle_bool_iff.
      split; split.
      + intro H. exists x. split; [reflexivity|exact H].
      + intros (y & Ey & Hy). injection Ey as <-. exact Hy.
      + intros H y Ey. injection Ey as <-. exact H.
      + intro H. apply H. reflexivity.
    - split; split.
      + intro H. discriminate H.
      + intros (y & Ey & _). discriminate Ey.
      + intros _ y Ey. discriminate Ey.
      + intros _. reflexivity. }
  split.
  - rewrite Hone, filter_length_all. unfold positive.
    rewrite Forall_map. unfold id.
    split; apply Forall_impl; intros c Hc; apply (proj1 (Hcase c)); exact Hc.
  - rewrite Hzero, filter_length_none. unfold positive.
    rewrite Forall_map. unfold id.
    split; apply Forall_impl; intros c Hc; apply (proj2 (Hcase c)); exact Hc.
Qed.

End MoreMetrics.

Lemma hit_rate_range_witness :
  exists q, hit_rate [Some 0.01; None; Some (-0.02); Some 0.03] = Fin q
            /\ 0 <= q /\ q <= 1.
Proof.
  destruct (hit_rate_range [Some 0.01; None; Some (-0.02); Some 0.03])
    as (q & E & H0 & H1 & _); [discriminate|].
  exists q. split; [exact E|]. split; assumption.
Defined.

Lemma drawdown_from_cons_missing (acc : Q) (m : option Q) (t : list cell) :
  drawdown_from acc m (series_add 1 (None :: t))
  = NaN :: drawdown_from acc m (series_add 1 t).
Proof. reflexivity. Qed.

Lemma drawdown_from_cons_present (acc : Q) (m : option Q) (x : Q)
  (t : list cell) :
  let w := acc * (1 + x) in
  let pk := match m with
            | Some a => if Qle_bool w a then a else w
            | None => w
            end in
  drawdown_from acc m (series_add 1 (Some x :: t))
  = (Fin w / Fin pk - Fin 1)%fl
    :: drawdown_from w (Some pk) (series_add 1 t).
Proof. reflexivity. Qed.

Lemma peak_bounds (w : Q) (m : option Q) :
  0 < w -> (forall a, m = Some a -> 0 < a) ->
  let pk := match m with
            | Some a => if Qle_bool w a then a else w
            | None => w
            end in
  0 < pk /\ w <= pk.
Proof.
  intros Hw Hm. cbv zeta. destruct m as [a|]; [|split; lra].
  destruct (Qle_bool w a) eqn:E.
  - apply Qle_bool_iff in E. split; [apply (Hm a eq_refl)|exact E].
  - split; lra.
Qed.

Lemma ratio_range (w pk : Q) :
  0 < w -> 0 < pk -> w <= pk ->
  exists v, (Fin w / Fin pk - Fin 1)%fl = Fin v /\ -1 < v /\ v <= 0.
Proof.
  intros Hw Hpk Hle. unfold fsub, fdiv, fneg, fadd.
  assert (E : Qeq_bool pk 0 = false) by (apply Qeq_bool_false; lra).
  rewrite E. eexists. split; [reflexivity|].
  assert (H0 : 0 < w / pk) by (apply Qlt_shift_div_l; lra).
  assert (H1 : w / pk <= 1) by (apply Qle_shift_div_r; lra).
  split; lra.
Qed.

Lemma drawdown_from_range (rets : list cell) :
  forall acc m,
    0 < acc -> (forall a, m = Some a -> 0 < a) ->
    (forall r, In (Some r) rets -> -1 < r) ->
    Forall2 drawdown_entry rets (drawdown_from acc m (series_add 1 rets)).
Proof.
  induction rets as [|[x|] t IH]; intros acc m Hacc Hm Hr.
  - constructor.
  - rewrite drawdown_from_cons_present. cbv zeta.
    assert (Hx : -1 < x) by (apply Hr; left; reflexivity).
    assert (Hw : 0 < acc * (1 + x)) by (apply Qmult_lt_0_compat; lra).
    destruct (peak_bounds _ m Hw Hm) as [Hpk Hle].
    constructor.
    + apply ratio_range; assumption.
    + apply IH; [exact Hw| |intros r Hin; apply Hr; right; exact Hin].
      intros a Ea. injection Ea as <-. exact Hpk.
  - rewrite drawdown_from_cons_missing. constructor; [reflexivity|].
    apply IH; [exact Hacc|exact Hm|intros r Hin; apply Hr; right; exact Hin].
Qed.

Lemma fold_fmin2_In (t : list float) (a : float) :
  In (fold_left fmin2 t a) (a :: t).
Proof.
  revert a. induction t as [|b t IH]; intro a; [left; reflexivity|].
  cbn [fold_left]. destruct (IH (fmin2 a b)) as [H|H].
  - rewrite <- H. unfold fmin2. destruct (fleb a b);
      [left|right; left]; reflexivity.
  - right. right. exact H.
Qed.

Lemma pd_min_In (xs : list float) :
  pd_min xs = NaN \/ (In (pd_min xs) xs /\ isnan (pd_min xs) = false).
Proof.
  unfold pd_min. destruct (filter _ xs) as [|a t] eqn:E; [left; reflexivity|].
  right. pose proof (fold_fmin2_In t a) as H. rewrite <- E in H.
  apply filter_In in H. destruct H as [H1 H2].
  split; [exact H1|]. apply negb_true_iff. exact H2.
Qed.

Lemma drawdown_entries_finite (cs : list cell) (ds : list float) :
  Forall2 drawdown_entry cs ds ->
  (forall d, In d ds -> isnan d = false ->
     exists v, d = Fin v /\ -1 < v /\ v <= 0)
  /\ (dropna cs <> [] -> filter (fun a => negb (isnan a)) ds <> []).
Proof.
  induction 1 as [|c d cs ds Hcd _ [IH1 IH2]].
  - split; [intros d []|]. intro H. exfalso. apply H. reflexivity.
  - split.
    + intros e [<-|He] Hnan; [|apply IH1; assumption].
      destruct c; cbn [drawdown_entry] in Hcd; [exact Hcd|].
      subst d. discriminate Hnan.
    + cbn [filter]. destruct c as [x|]; cbn [drawdown_entry dropna] in *.
      * destruct Hcd as (v & -> & _). intros _. discriminate.
      * subst d. exact IH2.
Qed.

Section Drawdown.
Context {L : Lib}.

(** X8.  When no return is -100% or worse, the drawdown path has a
    value exactly where the return series has one, each value is in
    (-1, 0], and the maximum drawdown of a series with a value is in
    (-1, 0] as well. *)
Theorem drawdown_range (rets : list cell) :
  (forall r, In (Some r) rets -> -1 < r) ->
  Forall2 drawdown_entry rets (drawdown rets)
  /\ (dropna rets <> [] ->
      exists v, max_drawdown rets = Fin v /\ -1 < v /\ v <= 0).
Proof.
  intro Hr.
  assert (Hpath : Forall2 drawdown_entry rets (drawdown rets)).
  { rewrite drawdown_unfold. apply drawdown_from_range; [lra| |exact Hr].
    intros a Ea. discriminate Ea. }
  split; [exact Hpath|]. intro Hne. unfold max_drawdown.
  destruct (drawdown_entries_finite _ _ Hpath) as [Hin Hsome].
  destruct (pd_min_In (drawdown rets)) as [Hnone|[H1 H2]];
    [|apply Hin; assumption].
  exfalso. unfold pd_min in Hnone.
  destruct (filter _ (drawdown rets)) as [|a t] eqn:E.
  - apply (Hsome Hne). reflexivity.
  - pose proof (fold_fmin2_In t a) as H. rewrite <- E in H.
    apply filter_In in H. rewrite Hnone in H. destruct H as [_ H].
    discriminate H.
Qed.

End Drawdown.

Lemma drawdown_range_witness :
  Forall2 drawdown_entry [Some 0.1; None; Some (-0.5); Some 0.2]
          (drawdown [Some 0.1; None; Some (-0.5); Some 0.2])
  /\ exists v, max_drawdown [Some 0.1; None; Some (-0.5); Some 0.2] = Fin v
               /\ -1 < v /\ v <= 0.
Proof.
  destruct (drawdown_range [Some 0.1; None; Some (-0.5); Some 0.2])
    as [Hpath Hmin].
  - intros r [E|[E|[E|[E|[]]]]]; try discriminate E;
      injection E as <-; reflexivity.
  - split; [exact Hpath|]. apply Hmin. discriminate.
Defined.

Section Downside.
Context {L : Lib}.

(** X9.  When every return is below the per-period risk-free rate, the
    downside series is the whole excess series and the Sortino ratio is
    the Sharpe ratio. *)
Theorem sortino_is_sharpe_when_all_below (rets : list cell)
  (rf periods_per_year : Q) :
  (forall r, In (Some r) rets -> r < rf / periods_per_year) ->
  sortino rets rf periods_per_year = sharpe rets rf periods_per_year.
Proof.
  intro Hbelow. unfold sortino, sharpe.
  destruct (Qeq_bool periods_per_year 0); [reflexivity|].
  set (excess := series_sub rets (rf / periods_per_year)).
  assert (E : dropna (negative_part excess) = dropna excess).
  { rewrite dropna_negative_part. apply filter_all.
    unfold excess. rewrite dropna_series_sub. apply Forall_map.
    apply Forall_forall. intros x Hx. apply Qlt_bool_iff.
    assert (Hin : In (Some x) rets).
    { clear -Hx. induction rets as [|[y|] t IH]; simpl in *;
        [contradiction| |right; apply IH; exact Hx].
      destruct Hx as [->|Hx]; [left; reflexivity|right; apply IH; exact Hx]. }
    pose proof (Hbelow x Hin). lra. }
  rewrite (pd_std0_dropna _ _ E). reflexivity.
Qed.

End Downside.

Lemma sortino_is_sharpe_when_all_below_witness :
  sortino [Some (-0.01); None; Some (-0.03)] 0 252
  = sharpe [Some (-0.01); None; Some (-0.03)] 0 252.
Proof.
  apply sortino_is_sharpe_when_all_below.
  intros r [E|[E|[E|[]]]]; try discriminate E; injection E as <-; reflexivity.
Defined.

(** ** The empirical quantile *)

Section Quantile.
Context {L : Lib}.

(** The value of [np.quantile] on a sample with a value, between the two
    order statistics it interpolates. *)
Lemma np_quantile_interpolates (a : list Q) (q : Q) :
  a <> [] -> 0 <= q -> q <= 1 ->
  let s := Qsort a in
  let n := length s in
  let h := inject_Z (Z.of_nat (n - 1)) * q in
  let lo := Z.to_nat (Qfloor h) in
  let hi := Nat.min (lo + 1) (n - 1) in
  let gamma := h - inject_Z (Qfloor h) in
  let v := nth lo s 0 + (nth hi s 0 - nth lo s 0) * gamma in
  np_quantile a q = Ok (Fin v)
  /\ (0 <= Qfloor h)%Z /\ (lo <= n - 1)%nat /\ (0 < n)%nat
  /\ 0 <= gamma /\ gamma < 1
  /\ nth lo s 0 <= v /\ v <= nth hi s 0.
Proof.
  intros Hne H0 H1. cbv zeta. unfold np_quantile.
  apply Qle_bool_iff in H0 as E0. apply Qle_bool_iff in H1 as E1.
  rewrite E0, E1. simpl negb. cbv iota.
  destruct a as [|x a]; [congruence|].
  set (s := Qsort (x :: a)).
  set (n := length s).
  set (N := inject_Z (Z.of_nat (n - 1))).
  set (h := N * q).
  assert (Hsorted : StronglySorted Qle s) by apply Qsort_sorted.
  assert (Hn : n = S (length a)).
  { unfold n, s. rewrite Qsort_length. reflexivity. }
  assert (HN : 0 <= N).
  { unfold N. change 0 with (inject_Z 0). rewrite <- Zle_Qle. lia. }
  assert (Hh0 : 0 <= h) by (unfold h; nra).
  assert (Hh1 : h <= N) by (unfold h; nra).
  assert (Hf0 : (0 <= Qfloor h)%Z).
  { change 0%Z with (Qfloor 0). apply Qfloor_resp_le. exact Hh0. }
  assert (Hf1 : (Qfloor h <= Z.of_nat (n - 1))%Z).
  { rewrite <- (Qfloor_Z (Z.of_nat (n - 1))). apply Qfloor_resp_le. exact Hh1. }
  set (lo := Z.to_nat (Qfloor h)).
  set (hi := Nat.min (lo + 1) (n - 1)).
  set (gamma := h - inject_Z (Qfloor h)).
  assert (Hlo : (lo <= n - 1)%nat) by (unfold lo; lia).
  assert (Hg : 0 <= gamma).
  { unfold gamma. pose proof (Qfloor_le h). lra. }
  assert (Hg1 : gamma < 1).
  { unfold gamma. pose proof (Qlt_floor h) as Hlt.
    rewrite inject_Z_plus in Hlt. change (inject_Z 1) with 1 in Hlt. lra. }
  assert (Hlohi : nth lo s 0 <= nth hi s 0).
  { apply sorted_nth_le; [exact Hsorted|]. fold n. unfold hi. lia. }
  split; [reflexivity|]. split; [exact Hf0|]. split; [exact Hlo|].
  split; [lia|]. split; [exact Hg|]. split; [exact Hg1|].
  assert (Hp : 0 <= (nth hi s 0 - nth lo s 0) * gamma).
  { apply Qmult_le_0_compat; [lra|exact Hg]. }
  assert (Hp1 : (nth hi s 0 - nth lo s 0) * gamma
                <= (nth hi s 0 - nth lo s 0) * 1).
  { apply Qmult_le_compat_nonneg; split; lra. }
  split; lra.
Qed.

(** X10.  For a confidence level in [0,1] and a series with a value,
    the historical VaR is a number between the smallest and the largest
    return; at level 1 it is the smallest return and at level 0 the
    largest. *)
Theorem var_historical_within_sample (rets : list cell) (alpha : Q) :
  dropna rets <> [] -> 0 <= alpha -> alpha <= 1 ->
  exists v lo hi,
    var_historical rets alpha = Ok (Fin v)
    /\ In lo (dropna rets) /\ In hi (dropna rets)
    /\ Forall (fun y => lo <= y /\ y <= hi) (dropna rets)
    /\ lo <= v /\ v <= hi
    /\ (alpha == 1 -> v == lo) /\ (alpha == 0 -> v == hi).
Proof.
  intros Hne H0 H1. unfold var_historical.
  assert (Hq0 : 0 <= 1 - alpha) by lra.
  assert (Hq1 : 1 - alpha <= 1) by lra.
  pose proof (np_quantile_interpolates (dropna rets) (1 - alpha) Hne Hq0 Hq1)
    as H.
  cbv zeta in H.
  set (s := Qsort (dropna rets)) in *.
  set (n := length s) in *.
  set (N := inject_Z (Z.of_nat (n - 1))) in *.
  set (h := N * (1 - alpha)) in *.
  set (lo := Z.to_nat (Qfloor h)) in *.
  set (hi := Nat.min (lo + 1) (n - 1)) in *.
  destruct H as (E & Hf0 & Hlo & Hn & Hg0 & Hg1 & Hlow & Hhigh).
  assert (Hsorted : StronglySorted Qle s) by apply Qsort_sorted.
  assert (Hmin : nth 0 s 0 <= nth lo s 0).
  { apply sorted_nth_le; [exact Hsorted|]. fold n. lia. }
  assert (Hmax : nth hi s 0 <= nth (n - 1) s 0).
  { apply sorted_nth_le; [exact Hsorted|]. fold n. unfold hi. lia. }
  eexists. exists (nth 0 s 0), (nth (n - 1) s 0).
  split; [exact E|].
  split; [apply (Qsort_In _ (dropna rets)); apply nth_In; fold s n; lia|].
  split; [apply (Qsort_In _ (dropna rets)); apply nth_In; fold s n; lia|].
  split.
  { apply Forall_forall. intros y Hy.
    apply (Qsort_In _ (dropna rets)) in Hy. fold s in Hy.
    destruct (In_nth s y 0 Hy) as [j [Hj <-]]. fold n in Hj.
    split; apply sorted_nth_le; try exact Hsorted; fold n; lia. }
  split; [lra|]. split; [lra|]. split.
  - intro Ha.
    assert (Hh : h == 0) by (unfold h; rewrite Ha; ring).
    assert (Hfl : Qfloor h = 0%Z) by (rewrite Hh; reflexivity).
    assert (Elo : lo = 0%nat) by (unfold lo; rewrite Hfl; reflexivity).
    rewrite Elo, Hfl, Hh. change (inject_Z 0) with 0. ring.
  - intro Ha.
    assert (Hh : h == N) by (unfold h; rewrite Ha; ring).
    assert (Hfl : Qfloor h = Z.of_nat (n - 1)).
    { rewrite Hh. unfold N. apply Qfloor_Z. }
    assert (Elo : lo = (n - 1)%nat) by (unfold lo; rewrite Hfl; lia).
    assert (Ehi : hi = (n - 1)%nat) by (unfold hi; lia).
    rewrite Ehi, Elo, Hfl, Hh. unfold N. ring.
Qed.

Lemma quantile_monotone (a : list Q) (q q' v v' : Q) :
  a <> [] -> 0 <= q -> q <= q' -> q' <= 1 ->
  np_quantile a q = Ok (Fin v) -> np_quantile a q' = Ok (Fin v') ->
  v <= v'.
Proof.
  intros Hne H0 Hqq H1 Ev Ev'.
  assert (Hq1 : q <= 1) by lra. assert (Hq0' : 0 <= q') by lra.
  pose proof (np_quantile_interpolates a q Hne H0 Hq1) as H.
  pose proof (np_quantile_interpolates a q' Hne Hq0' H1) as H'.
  cbv zeta in H, H'.
  set (s := Qsort a) in *.
  set (n := length s) in *.
  set (N := inject_Z (Z.of_nat (n - 1))) in *.
  set (h := N * q) in *. set (h' := N * q') in *.
  set (lo := Z.to_nat (Qfloor h)) in *.
  set (lo' := Z.to_nat (Qfloor h')) in *.
  set (hi := Nat.min (lo + 1) (n - 1)) in *.
  set (hi' := Nat.min (lo' + 1) (n - 1)) in *.
  destruct H as (E & Hf0 & Hlo & Hn & Hg0 & Hg1 & Hlow & Hhigh).
  destruct H' as (E' & Hf0' & Hlo' & _ & Hg0' & Hg1' & Hlow' & Hhigh').
  rewrite E in Ev. rewrite E' in Ev'.
  apply Ok_inj, Fin_inj in Ev. apply Ok_inj, Fin_inj in Ev'. subst v v'.
  assert (Hsorted : StronglySorted Qle s) by apply Qsort_sorted.
  assert (HN : 0 <= N).
  { unfold N. change 0 with (inject_Z 0). rewrite <- Zle_Qle. lia. }
  assert (Hhh : h <= h') by (unfold h, h'; nra).
  assert (Hfl : (Qfloor h <= Qfloor h')%Z) by (apply Qfloor_resp_le; exact Hhh).
  destruct (Z.eq_dec (Qfloor h) (Qfloor h')) as [Eq|Hneq].
  - assert (Elo : lo' = lo) by (unfold lo, lo'; rewrite Eq; reflexivity).
    assert (Ehi : hi' = hi) by (unfold hi, hi'; rewrite Elo; reflexivity).
    rewrite Ehi, Elo, <- Eq.
    assert (Hd : 0 <= nth hi s 0 - nth lo s 0).
    { assert (nth lo s 0 <= nth hi s 0);
        [apply sorted_nth_le; [exact Hsorted|]; fold n; unfold hi; lia|lra]. }
    assert (Hgg : h - inject_Z (Qfloor h) <= h' - inject_Z (Qfloor h)) by lra.
    pose proof (Qmult_le_compat_nonneg
                  (nth hi s 0 - nth lo s 0) (nth hi s 0 - nth lo s 0)
                  (h - inject_Z (Qfloor h)) (h' - inject_Z (Qfloor h))
                  (conj Hd (Qle_refl _)) (conj Hg0 Hgg)).
    lra.
  - assert (Hstep : nth hi s 0 <= nth lo' s 0).
    { apply sorted_nth_le; [exact Hsorted|]. fold n. unfold hi, lo, lo'. lia. }
    lra.
Qed.

(** X11.  The historical VaR does not increase with the confidence
    level: for levels [alpha <= alpha'] in [0,1] both quantiles exist and
    the one at [alpha'] is at most the one at [alpha]. *)
Theorem var_historical_antitone (rets : list cell) (alpha alpha' : Q) :
  dropna rets <> [] -> 0 <= alpha -> alpha <= alpha' -> alpha' <= 1 ->
  exists v v',
    var_historical rets alpha = Ok (Fin v)
    /\ var_historical rets alpha' = Ok (Fin v')
    /\ v' <= v.
Proof.
  intros Hne H0 Haa H1. unfold var_historical.
  destruct (np_quantile_interpolates (dropna rets) (1 - alpha) Hne)
    as (Ev & _); [lra|lra|].
  destruct (np_quantile_interpolates (dropna rets) (1 - alpha') Hne)
    as (Ev' & _); [lra|lra|].
  cbv zeta in Ev, Ev'.
  eexists. eexists. split; [exact Ev|]. split; [exact Ev'|].
  apply (quantile_monotone (dropna rets) (1 - alpha') (1 - alpha));
    try assumption; lra.
Qed.

End Quantile.

Lemma var_historical_within_sample_witness :
  exists v lo hi,
    var_historical [Some 0.03; None; Some (-0.02); Some 0.01] 0.5
    = Ok (Fin v)
    /\ In lo [0.03; -0.02; 0.01] /\ In hi [0.03; -0.02; 0.01]
    /\ lo <= v /\ v <= hi.
Proof.
  destruct (var_historical_within_sample
              [Some 0.03; None; Some (-0.02); Some 0.01] 0.5)
    as (v & lo & hi & E & Hlo & Hhi & _ & H1 & H2 & _);
    [discriminate|lra|lra|].
  exists v, lo, hi. repeat (split; [assumption|]). assumption.
Defined.

Lemma var_historical_antitone_witness :
  exists v v',
    var_historical [Some 0.03; None; Some (-0.02); Some 0.01] 0.5
    = Ok (Fin v)
    /\ var_historical [Some 0.03; None; Some (-0.02); Some 0.01] 0.99
       = Ok (Fin v')
    /\ v' <= v.
Proof.
  apply var_historical_antitone; [discriminate|lra|lra|lra].
Defined.

(** ** The Cornish-Fisher adjustment *)

Lemma fmul_compat_r (a : float) (x y : Q) :
  x == y -> (a * Fin x)%fl =f= (a * Fin y)%fl.
Proof.
  intro H. destruct a; cbn [fmul feq]; try exact I.
  - rewrite H. reflexivity.
  - unfold fmul_inf.
    assert (E : Qeq_bool x 0 = Qeq_bool y 0) by (rewrite H; reflexivity).
    rewrite E, (Qlt_bool_compat 0 0 x y (Qeq_refl 0) H). apply feq_refl.
  - unfold fmul_inf.
    assert (E : Qeq_bool x 0 = Qeq_bool y 0) by (rewrite H; reflexivity).
    rewrite E, (Qlt_bool_compat 0 0 x y (Qeq_refl 0) H). apply feq_refl.
Qed.

Lemma fadd_compat_r (a b b' : float) :
  b =f= b' -> (a + b)%fl =f= (a + b')%fl.
Proof.
  destruct a, b, b'; cbn [fadd feq]; try contradiction; try (intros; exact I).
  intro H. rewrite H. reflexivity.
Qed.

Section CornishFisher.
Context {L : Lib}.

(** X12.  With zero skewness and zero excess kurtosis, and a finite
    normal quantile, the Cornish-Fisher VaR is the parametric normal
    VaR. *)
Theorem cornish_fisher_without_moments (rets : list cell) (alpha z : Q) :
  _norm_ppf (1 - alpha) = Fin z ->
  pd_skew (dropna rets) =f= Fin 0 ->
  pd_kurt (dropna rets) =f= Fin 0 ->
  var_cornish_fisher rets alpha =f= var_parametric_normal rets alpha.
Proof.
  intros Hz Hs Hk. unfold var_cornish_fisher, var_parametric_normal.
  rewrite Hz.
  destruct (pd_skew (dropna rets)) as [s| | |]; try contradiction.
  destruct (pd_kurt (dropna rets)) as [k| | |]; try contradiction.
  cbn [feq] in Hs, Hk.
  cbn [fmul fsub fadd fneg fdiv].
  change (Qeq_bool 6 0) with false. change (Qeq_bool 24 0) with false.
  change (Qeq_bool 36 0) with false. cbv iota.
  cbn [fadd fneg].
  apply fadd_compat_r. apply fmul_compat_r.
  rewrite Hs, Hk. field.
Qed.

End CornishFisher.

Lemma cornish_fisher_without_moments_witness :
  var_cornish_fisher mesokurtic_returns 0.95
  =f= var_parametric_normal mesokurtic_returns 0.95.
Proof.
  eapply cornish_fisher_without_moments.
  - vm_compute. reflexivity.
  - vm_compute. reflexivity.
  - vm_compute. reflexivity.
Defined.

(** ** The value of a periodic portfolio *)

Section PeriodicValue.
Context {L : Lib}.

(** X13.  The values of a periodically rebalanced portfolio, for a rule
    whose bins are labelled on their closing date with strictly growing
    labels (monthly, quarterly).  When the return matrix is not empty
    and holds a weighted symbol, the result has an entry for each date
    of its index.  On a date before the closing date of its period the
    entry is the compounded portfolio return of the previous period, and
    is missing in the first period of the index; on a closing date it is
    the compounded return of the period that closes. *)
Theorem periodic_rebalance_values (returns : DataFrame) (weights : weights)
  (rebalance : string) (B : Binning) :
  resolves rebalance B ->
  right_labelled B (df_index returns) ->
  strictly_labelled B ->
  let idx := df_index returns in
  let cols := select_columns (normalize_weights weights) returns in
  exists s,
    allocate_static (Some returns) weights (Some rebalance) = Ok s
    /\ (df_empty returns = false -> cols <> [] -> map fst s = idx)
    /\ forall d v, In (d, v) s ->
         (date_lt d (label B (bin B d)) ->
            ((forall d', In d' idx -> (bin B d <= bin B d')%Z) -> v = NaN)
            /\ ((exists d', In d' idx /\ (bin B d' < bin B d)%Z) ->
                v = Fin (period_return B idx cols (bin B d - 1))))
         /\ (date_key d = date_key (label B (bin B d)) ->
             v = Fin (period_return B idx cols (bin B d))).
Proof.
  intros Hrule Hright Hstrict. cbv zeta.
  rewrite (allocate_static_periodic _ _ _ _ Hrule). cbv zeta.
  destruct (df_empty returns).
  { exists []. split; [reflexivity|]. split; [discriminate|]. intros d v []. }
  destruct (select_columns (normalize_weights weights) returns) as [|c0 cols].
  { exists []. split; [reflexivity|].
    split; [intros _ H; congruence|]. intros d v []. }
  eexists. split; [reflexivity|]. split.
  - intros _ _. rewrite map_map. cbn [fst]. apply map_id.
  - intros d v Hin. apply in_map_iff in Hin. destruct Hin as (d' & E & Hd).
    injection E as -> <-. split.
    + intro Hopen. apply periodic_value_open; assumption.
    + intro Hclose. apply periodic_value_close; assumption.
Qed.

End PeriodicValue.

Lemma periodic_rebalance_values_witness :
  exists s,
    allocate_static (Some calendar_2024) [("XLE", 1)]%string (Some "M"%string)
    = Ok s
    /\ map fst s = df_index calendar_2024
    /\ In (mkDate 2024 1 30, NaN) s
    /\ (exists v, In (mkDate 2024 1 31, v) s /\ v =f= Fin 1.25)
    /\ (exists v, In (mkDate 2024 2 1, v) s /\ v =f= Fin 1.25).
Proof.
  destruct (periodic_rebalance_values calendar_2024 [("XLE", 1)]%string
              "M" month_end) as (s & Hs & Hidx & Hv).
  - reflexivity.
  - apply month_end_right_labelled.
    repeat constructor; vm_compute; discriminate.
  - exact month_end_strict.
  - specialize (Hidx eq_refl).
    assert (Hcols : select_columns (normalize_weights [("XLE", 1)]%string)
                      calendar_2024 <> []) by (vm_compute; discriminate).
    specialize (Hidx Hcols).
    assert (Hat : forall d, In d (df_index calendar_2024) ->
                            exists v, In (d, v) s).
    { intros d Hd. apply In_series_index. rewrite Hidx. exact Hd. }
    destruct (Hat (mkDate 2024 1 30)) as [v1 H1]; [vm_compute; tauto|].
    destruct (Hat (mkDate 2024 1 31)) as [v2 H2]; [vm_compute; tauto|].
    destruct (Hat (mkDate 2024 2 1)) as [v3 H3]; [vm_compute; tauto|].
    exists s. split; [exact Hs|]. split; [exact Hidx|].
    split; [|split].
    + destruct (Hv _ _ H1) as [Hopen _].
      destruct (Hopen eq_refl) as [Hfirst _].
      rewrite <- Hfirst; [exact H1|].
      intros d' Hd'. vm_compute in Hd'.
      destruct Hd' as [<-|[<-|[<-|[<-|[]]]]]; vm_compute; discriminate.
    + exists v2. split; [exact H2|].
      destruct (Hv _ _ H2) as [_ Hclose].
      rewrite (Hclose eq_refl). vm_compute. reflexivity.
    + exists v3. split; [exact H3|].
      destruct (Hv _ _ H3) as [Hopen _].
      destruct (Hopen eq_refl) as [_ Hprev]. rewrite Hprev.
      * vm_compute. reflexivity.
      * exists (mkDate 2024 1 30). split; [left; reflexivity|reflexivity].
Defined.

(** ** Weights up to scale *)

Lemma weights_eq_refl (w : weights) : weights_eq w w.
Proof.
  induction w as [|kv w IH]; constructor; [|exact IH].
  split; reflexivity.
Qed.

Lemma weights_eq_map_id (f : string * Q -> string * Q) (w : weights) :
  (forall kv, In kv w -> fst (f kv) = fst kv /\ snd (f kv) == snd kv) ->
  weights_eq (map f w) w.
Proof.
  induction w as [|kv w IH]; intro H; cbn [map]; constructor.
  - apply H. left. reflexivity.
  - apply IH. intros kv' Hin. apply H. right. exact Hin.
Qed.

(** X14.  Normalizing twice is normalizing once. *)
Theorem normalize_weights_idempotent (w : weights) :
  weights_eq (normalize_weights (normalize_weights w)) (normalize_weights w).
Proof.
  destruct (Qeq_dec (wsum w) 0) as [Hz|Hnz].
  - rewrite (normalize_weights_zero_total w Hz).
    rewrite (normalize_weights_zero_total w Hz). apply weights_eq_refl.
  - pose proof (normalize_weights_total w Hnz) as H1.
    set (n := normalize_weights w) in *.
    unfold normalize_weights at 1.
    assert (E : Qeq_bool (wsum n) 0 = false).
    { apply Qeq_bool_false. rewrite H1. discriminate. }
    rewrite E. cbn [negb].
    apply weights_eq_map_id.
    intros kv _. cbn [fst snd]. split; [reflexivity|].
    rewrite H1. field.
Qed.

Lemma wsum_proportional (c : Q) (w' w : weights) :
  Forall2 (fun x y => fst x = fst y /\ snd x == c * snd y) w' w ->
  wsum w' == c * wsum w.
Proof.
  unfold wsum. induction 1 as [|x y w' w [_ Hv] _ IH]; [simpl; ring|].
  cbn [map Qsum fold_right].
  fold (Qsum (map snd w')). fold (Qsum (map snd w)).
  rewrite Hv, IH. ring.
Qed.

Lemma divide_proportional (c t' t : Q) (w' w : weights) :
  ~ c == 0 -> ~ t == 0 -> t' == c * t ->
  Forall2 (fun x y => fst x = fst y /\ snd x == c * snd y) w' w ->
  weights_eq (map (fun kv => (fst kv, snd kv / t')) w')
             (map (fun kv => (fst kv, snd kv / t)) w).
Proof.
  intros Hc Ht Ht' H.
  induction H as [|x y w' w [Hk Hv] _ IH]; cbn [map]; constructor.
  - cbn [fst snd]. split; [exact Hk|].
    rewrite Hv, Ht'. field. split; assumption.
  - exact IH.
Qed.

(** Two weight vectors over the same symbols, the first [c] times the
    second, have the same normalized weights. *)
Lemma normalize_weights_proportional (c : Q) (w' w : weights) :
  ~ c == 0 -> ~ wsum w == 0 ->
  Forall2 (fun x y => fst x = fst y /\ snd x == c * snd y) w' w ->
  weights_eq (normalize_weights w') (normalize_weights w).
Proof.
  intros Hc Hw Hprop.
  pose proof (wsum_proportional c w' w Hprop) as Hsum.
  assert (Hs : ~ wsum w' == 0).
  { rewrite Hsum. intro H. destruct (Qmult_integral _ _ H); contradiction. }
  unfold normalize_weights.
  apply Qeq_bool_false in Hs as E1. apply Qeq_bool_false in Hw as E2.
  rewrite E1, E2. cbn [negb].
  apply (divide_proportional c); assumption.
Qed.

(** X15.  Only the proportions of the weights matter: multiplying every
    weight by a non-zero factor leaves the normalized weights unchanged,
    when the weights do not sum to zero. *)
Theorem normalize_weights_scale_invariant (c : Q) (w : weights) :
  ~ c == 0 -> ~ wsum w == 0 ->
  weights_eq (normalize_weights (scale_weights c w)) (normalize_weights w).
Proof.
  intros Hc Hw.
  apply (normalize_weights_proportional c); [exact Hc|exact Hw|].
  unfold scale_weights. clear Hc Hw.
  induction w as [|kv w IH]; cbn [map]; constructor; [|exact IH].
  cbn [fst snd]. split; reflexivity.
Qed.

Lemma normalize_weights_scale_invariant_witness :
  weights_eq
    (normalize_weights (scale_weights 100 [("SPY", 0.5); ("XLE", 0.25)]%string))
    (normalize_weights [("SPY", 0.5); ("XLE", 0.25)]%string).
Proof.
  apply normalize_weights_scale_invariant; discriminate.
Defined.

Lemma dict_set_map_values (f : Q -> Q) (k : string) (v : Q) (d : weights) :
  dict_set k (f v) (map (fun kv => (fst kv, f (snd kv))) d)
  = map (fun kv => (fst kv, f (snd kv))) (dict_set k v d).
Proof.
  induction d as [|[k' v'] d IH]; [reflexivity|].
  cbn [map dict_set fst snd]. destruct (String.eqb k k'); [reflexivity|].
  cbn [map fst snd]. f_equal. exact IH.
Qed.

Lemma dict_update_map_values (f : Q -> Q) (e d : weights) :
  dict_update (map (fun kv => (fst kv, f (snd kv))) d)
              (map (fun kv => (fst kv, f (snd kv))) e)
  = map (fun kv => (fst kv, f (snd kv))) (dict_update d e).
Proof.
  unfold dict_update. revert d.
  induction e as [|[k v] e IH]; intro d; [reflexivity|].
  cbn [map fold_left fst snd]. rewrite dict_set_map_values. apply IH.
Qed.

Lemma combine_map_r {A B C : Type} (f : B -> C) (a : list A) (b : list B) :
  combine a (map f b) = map (fun kv => (fst kv, f (snd kv))) (combine a b).
Proof.
  revert b. induction a as [|x a IH]; intros [|y b]; try reflexivity.
  cbn [map combine fst snd]. f_equal. apply IH.
Qed.

(** X16.  The application's normalize switch does not change the
    weights [allocate_static] works with: when the entered weights, and
    the weights of the resulting dict, do not sum to zero, the normalized
    weights are the same with the switch on and off. *)
Theorem normalize_toggle_is_immaterial (tickers : list string)
  (weights_vals : list Q) :
  ~ py_sum weights_vals == 0 ->
  ~ wsum (app_weights false tickers weights_vals) == 0 ->
  weights_eq
    (normalize_weights (app_weights true tickers weights_vals))
    (normalize_weights (app_weights false tickers weights_vals)).
Proof.
  intros Hs Hw.
  set (ssum := py_sum weights_vals) in *.
  apply (normalize_weights_proportional (/ ssum)); [|exact Hw|].
  { intro H. apply Hs. apply Qinv_comp in H.
    rewrite Qinv_involutive in H. exact H. }
  unfold app_weights. fold ssum.
  destruct weights_vals as [|x v]; [exfalso; apply Hs; reflexivity|].
  cbn [andb negb]. apply Qeq_bool_false in Hs as E. rewrite E. cbn [negb].
  rewrite combine_map_r. unfold dict_of_items.
  pose proof (dict_update_map_values (fun w => w / ssum)
                (combine tickers (x :: v)) []) as Hmap.
  cbv beta in Hmap.
  change (map (fun kv : string * Q => (fst kv, snd kv / ssum)) [])
    with (@nil (string * Q)) in Hmap.
  rewrite Hmap.
  generalize (dict_update [] (combine tickers (x :: v))). intro d.
  induction d as [|kv d IH]; cbn [map]; constructor; [|exact IH].
  cbn [fst snd]. split; [reflexivity|]. unfold Qdiv. ring.
Qed.

Lemma normalize_toggle_is_immaterial_witness :
  weights_eq
    (normalize_weights
       (app_weights true ["SPY"; "XLE"; "CVX"]%string [2; 1; 1]))
    (normalize_weights
       (app_weights false ["SPY"; "XLE"; "CVX"]%string [2; 1; 1])).
Proof.
  apply normalize_toggle_is_immaterial; discriminate.
Defined.

(** ** The index of a buy-and-hold portfolio *)

Lemma dropna_combine_length (idx : list Date) (l : list float) :
  (length (series_dropna (combine idx l)) <= length idx)%nat.
Proof.
  unfold series_dropna.
  etransitivity; [apply filter_length_le|].
  rewrite length_combine. apply Nat.le_min_l.
Qed.

Lemma dropna_combine_incl (idx : list Date) (l : list float) :
  incl (map fst (series_dropna (combine idx l))) idx.
Proof.
  intros d Hd. apply in_map_iff in Hd. destruct Hd as ([d' v] & <- & Hin).
  unfold series_dropna in Hin. apply filter_In in Hin.
  destruct Hin as [Hin _]. apply in_combine_l in Hin. exact Hin.
Qed.

Lemma dropna_combine_sorted (idx : list Date) (l : list float) :
  StronglySorted date_lt idx ->
  StronglySorted date_lt (map fst (series_dropna (combine idx l))).
Proof.
  intro H. revert l. induction H as [|d idx Hs IH Hd]; intro l.
  - constructor.
  - destruct l as [|v l]; [constructor|].
    cbn [combine series_dropna filter snd].
    fold (series_dropna (combine idx l)).
    destruct (negb (isnan v)); [|apply IH].
    cbn [map fst]. constructor; [apply IH|].
    rewrite Forall_forall in *. intros d' Hd'. apply Hd.
    apply (dropna_combine_incl idx l). exact Hd'.
Qed.

Lemma dropna_no_nan (s : Series) :
  Forall (fun dv => snd dv <> NaN) (series_dropna s).
Proof.
  apply Forall_forall. intros [d v] Hin. unfold series_dropna in Hin.
  apply filter_In in Hin. destruct Hin as [_ H]. cbn [snd] in *.
  intro E. subst v. discriminate H.
Qed.

Section BuyAndHold.
Context {L : Lib}.

(** X17.  A buy-and-hold call always returns.  The index of its result
    lies within the index of the return matrix without its first date,
    in the same order; the result has at most one entry fewer than the
    matrix has rows, and holds no missing value. *)
Theorem buy_and_hold_index (returns : DataFrame) (weights : weights) :
  exists s,
    allocate_static (Some returns) weights None = Ok s
    /\ incl (map fst s) (tl (df_index returns))
    /\ (length s <= length (df_index returns) - 1)%nat
    /\ Forall (fun dv => snd dv <> NaN) s
    /\ (StronglySorted date_lt (df_index returns) ->
        StronglySorted date_lt (map fst s)).
Proof.
  unfold allocate_static.
  assert (Hnil : exists s : Series,
             Ok [] = Ok s
             /\ incl (map fst s) (tl (df_index returns))
             /\ (length s <= length (df_index returns) - 1)%nat
             /\ Forall (fun dv => snd dv <> NaN) s
             /\ (StronglySorted date_lt (df_index returns) ->
                 StronglySorted date_lt (map fst s))).
  { exists []. split; [reflexivity|]. split; [intros d []|].
    split; [simpl; lia|]. split; constructor. }
  destruct (df_empty returns); [exact Hnil|].
  destruct (select_columns (normalize_weights weights) returns) as [|c cols];
    [exact Hnil|].
  clear Hnil. cbn [_to_resample_rule].
  set (wealth := map _ (c :: cols)).
  set (pw := map (weighted_row_sum wealth) (seq 0 (length (df_index returns)))).
  eexists. split; [reflexivity|].
  assert (Hlen : length pw = length (df_index returns)).
  { unfold pw. rewrite length_map, length_seq. reflexivity. }
  destruct (df_index returns) as [|d idx] eqn:Eidx.
  { split; [intros d []|]. split; [simpl; lia|]. split; constructor. }
  destruct pw as [|x t]; [discriminate Hlen|].
  cbn [pct_change combine series_dropna filter snd isnan negb tl length].
  fold (series_dropna (combine idx (pct_change_from x t))).
  split; [apply dropna_combine_incl|].
  split; [pose proof (dropna_combine_length idx (pct_change_from x t)); lia|].
  split; [apply dropna_no_nan|].
  intro Hs. apply dropna_combine_sorted. inversion Hs; assumption.
Qed.

End BuyAndHold.

(** ** A portfolio without weight *)

Lemma select_columns_weights (w : weights) (returns : DataFrame)
  (P : Q -> Prop) :
  Forall (fun kv => P (snd kv)) w ->
  Forall (fun wc => P (fst wc)) (select_columns w returns).
Proof.
  unfold select_columns. induction 1 as [|kv w Hkv _ IH]; [constructor|].
  cbn [flat_map]. destruct (assoc (fst kv) (df_columns returns)).
  - cbn [app]. constructor; [exact Hkv|exact IH].
  - exact IH.
Qed.

Lemma weighted_row_sum_zero (cols : list (Q * list cell)) (t : nat) :
  Forall (fun wc => fst wc == 0) cols -> weighted_row_sum cols t == 0.
Proof.
  intro H. unfold weighted_row_sum. apply Qsum_map_zero.
  intros wc Hin. rewrite Forall_forall in H.
  destruct (nth t (snd wc) None); [|reflexivity].
  rewrite (H wc Hin). ring.
Qed.

Lemma pct_change_from_zero (prev : Q) (xs : list Q) :
  prev == 0 -> Forall (fun x => x == 0) xs ->
  Forall (fun v => v = NaN) (pct_change_from prev xs).
Proof.
  intros Hp H. revert prev Hp.
  induction H as [|x xs Hx _ IH]; intros prev Hp; cbn [pct_change_from];
    constructor.
  - unfold fsub, fdiv. apply Qeq_bool_iff in Hp. apply Qeq_bool_iff in Hx.
    rewrite Hp, Hx. reflexivity.
  - apply IH. exact Hx.
Qed.

Lemma series_dropna_all_nan (idx : list Date) (l : list float) :
  Forall (fun v => v = NaN) l -> series_dropna (combine idx l) = [].
Proof.
  intro H. revert idx. induction H as [|v l Hv _ IH]; intros [|d idx];
    try reflexivity.
  cbn [combine series_dropna filter snd]. subst v. cbn [isnan negb].
  apply IH.
Qed.

Lemma ffill_at_value (periodic : list (Date * Q)) (d : Date) :
  ffill_at periodic d = NaN
  \/ exists lv, In lv periodic /\ ffill_at periodic d = Fin (snd lv).
Proof.
  unfold ffill_at.
  assert (H : forall acc,
             (acc = NaN \/ exists lv, In lv periodic /\ acc = Fin (snd lv)) ->
             forall l, incl l periodic ->
               fold_left (fun acc lv => if date_leb (fst lv) d
                                        then Fin (snd lv) else acc) l acc = NaN
               \/ exists lv, In lv periodic
                    /\ fold_left (fun acc lv => if date_leb (fst lv) d
                                                then Fin (snd lv) else acc)
                                 l acc = Fin (snd lv)).
  { intros acc Hacc l. revert acc Hacc.
    induction l as [|lv l IH]; intros acc Hacc Hl; [exact Hacc|].
    cbn [fold_left]. apply IH.
    - destruct (date_leb (fst lv) d); [|exact Hacc].
      right. exists lv. split; [apply Hl; left; reflexivity|reflexivity].
    - intros x Hx. apply Hl. right. exact Hx. }
  apply H; [left; reflexivity|apply incl_refl].
Qed.

Section ZeroWeights.
Context {L : Lib}.

(** X18.  With every weight zero, buy and hold returns the empty series
    (the wealth is zero and every change is [0/0]), while a periodic
    policy returns a series whose values are missing or zero. *)
Theorem zero_weights_portfolio (returns : DataFrame) (weights : weights) :
  Forall (fun kv => snd kv == 0) weights ->
  allocate_static (Some returns) weights None = Ok []
  /\ forall rebalance s,
       allocate_static (Some returns) weights (Some rebalance) = Ok s ->
       Forall (fun dv => snd dv = NaN \/ snd dv =f= Fin 0) s.
Proof.
  intro Hz.
  assert (Hsum : wsum weights == 0).
  { unfold wsum. rewrite <- (Qsum_map_zero snd weights); [reflexivity|].
    intros kv Hin. rewrite Forall_forall in Hz. apply Hz. exact Hin. }
  unfold allocate_static. rewrite (normalize_weights_zero_total _ Hsum).
  pose proof (select_columns_weights weights returns (fun q => q == 0) Hz)
    as Hcols.
  destruct (df_empty returns).
  { split; [reflexivity|]. intros rebalance s E. apply Ok_inj in E.
    subst s. constructor. }
  destruct (select_columns weights returns) as [|c cols] eqn:Esel.
  { split; [reflexivity|]. intros rebalance s E. apply Ok_inj in E.
    subst s. constructor. }
  split.
  - cbn [_to_resample_rule]. f_equal.
    set (wealth := map _ (c :: cols)).
    assert (Hw : Forall (fun wc => fst wc == 0) wealth).
    { unfold wealth. apply Forall_map. cbn [fst]. exact Hcols. }
    set (pw := map (weighted_row_sum wealth) _).
    assert (Hpw : Forall (fun x => x == 0) pw).
    { unfold pw. apply Forall_map. apply Forall_forall. intros t _.
      apply weighted_row_sum_zero. exact Hw. }
    destruct pw as [|x t]; [destruct (df_index returns); reflexivity|].
    inversion Hpw as [|? ? Hx Ht]; subst.
    destruct (df_index returns) as [|d idx]; [reflexivity|].
    cbn [pct_change combine series_dropna filter snd isnan negb].
    apply (series_dropna_all_nan idx). apply pct_change_from_zero; assumption.
  - intros rebalance s E.
    destruct (_to_resample_rule (Some rebalance)) as [rule|] eqn:Er.
    2: { unfold _to_resample_rule in Er.
         destruct (String.eqb rebalance "M"); [discriminate Er|].
         destruct (String.eqb rebalance "Q"); discriminate Er. }
    destruct (pd_rule rule) as [B|]; [|discriminate E].
    apply Ok_inj in E. subst s. apply Forall_map. apply Forall_forall.
    intros d _. cbn [snd].
    destruct (ffill_at_value (port_periodic B (df_index returns) (c :: cols)) d)
      as [Ev|(lv & Hin & Ev)]; [left; exact Ev|].
    right. rewrite Ev. cbn [feq].
    unfold port_periodic in Hin. apply in_map_iff in Hin.
    destruct Hin as (b & <- & _). cbn [snd].
    apply Qsum_map_zero. intros wc Hwc. rewrite Forall_forall in Hcols.
    rewrite (Hcols wc Hwc). ring.
Qed.

End ZeroWeights.

Lemma zero_weights_portfolio_witness :
  allocate_static (Some sample_returns) [("XLE", 0); ("SPY", 0)]%string None
  = Ok []
  /\ exists s,
       allocate_static (Some sample_returns) [("XLE", 0); ("SPY", 0)]%string
                       (Some "M"%string) = Ok s
       /\ Forall (fun dv => snd dv = NaN \/ snd dv =f= Fin 0) s.
Proof.
  destruct (zero_weights_portfolio sample_returns
              [("XLE", 0); ("SPY", 0)]%string) as [Hhold Hper].
  - repeat constructor.
  - split; [exact Hhold|].
    destruct (allocate_static (Some sample_returns)
                [("XLE", 0); ("SPY", 0)]%string (Some "M"%string))
      as [s|e] eqn:E; [|vm_compute in E; discriminate E].
    exists s. split; [reflexivity|]. apply (Hper "M"%string). exact E.
Defined.

(** ** The beta of a levered position *)

Lemma all_present_affine (a c : Q) (win : list cell) :
  all_present
    (map (fun q => pair_cells (option_map (fun q => a + c * q) q, q)) win)
  = option_map (map (fun q => (a + c * q, q))) (all_present win).
Proof.
  induction win as [|[q|] t IH]; [reflexivity| |reflexivity].
  cbn [map].
  change (pair_cells (option_map (fun q => a + c * q) (Some q), Some q))
    with (Some (a + c * q, q)).
  cbn [all_present]. rewrite IH. destruct (all_present t); reflexivity.
Qed.

Lemma combine_affine (a c : Q) (x : list cell) :
  map pair_cells (combine (affine_series a c x) x)
  = map (fun q => pair_cells (option_map (fun q => a + c * q) q, q)) x.
Proof.
  unfold affine_series. induction x as [|q x IH]; [reflexivity|].
  cbn [map combine]. f_equal. exact IH.
Qed.

Lemma Qsum_affine (a c : Q) (v : list Q) :
  Qsum (map (fun q => a + c * q) v) == a * Qlen v + c * Qsum v.
Proof.
  unfold Qlen. induction v as [|q v IH].
  - simpl. ring.
  - cbn [map Qsum fold_right length].
    fold (Qsum (map (fun q => a + c * q) v)). fold (Qsum v).
    rewrite IH, Nat2Z.inj_succ, <- Z.add_1_r, inject_Z_plus.
    change (inject_Z 1) with 1. ring.
Qed.

Lemma Qmean_affine (a c : Q) (v : list Q) :
  v <> [] -> Qmean (map (fun q => a + c * q) v) == a + c * Qmean v.
Proof.
  intro Hne. unfold Qmean. rewrite Qsum_affine.
  assert (Hl : Qlen (map (fun q => a + c * q) v) = Qlen v).
  { unfold Qlen. rewrite length_map. reflexivity. }
  rewrite Hl. pose proof (Qlen_pos v Hne) as Hpos. field. lra.
Qed.

Lemma Qcov1_affine (a c : Q) (v : list Q) (s : Q) :
  Qvar1 v = Fin s ->
  exists t, Qcov1 (map (fun q => (a + c * q, q)) v) = Fin t /\ t == c * s.
Proof.
  unfold Qvar1, Qcov1. rewrite length_map, !map_map. cbn [fst snd].
  rewrite map_id.
  destruct (length v <=? 1)%nat eqn:E; [discriminate|].
  intro H. apply Fin_inj in H. subst s.
  eexists. split; [reflexivity|].
  assert (Hne : v <> []) by (intro Hv; subst v; discriminate E).
  unfold Qdiv. rewrite Qmult_assoc. apply Qmult_comp; [|reflexivity].
  rewrite (Qsum_scale_l c). apply Qsum_map_ext. intros q _. cbv beta.
  rewrite (Qmean_affine a c v Hne). ring.
Qed.

(** X19.  The beta of [a + c x] against [x] is [c], at every position
    whose window is filled, holds no missing entry and has a non-zero
    sample variance. *)
Theorem rolling_beta_affine (a c : Q) (x : list cell) (w i : nat)
  (v : list Q) (s : Q) :
  (i < length x)%nat -> (w <= i + 1)%nat ->
  all_present (window_at w i x) = Some v ->
  Qvar1 v = Fin s -> ~ s == 0 ->
  nth i (rolling_beta (affine_series a c x) x w) NaN =f= Fin c.
Proof.
  intros Hi Hw Hv Hs Hnz. unfold rolling_beta.
  set (cov := rolling w Qcov1 _).
  set (var := rolling w Qvar1 x).
  assert (Hla : length (affine_series a c x) = length x).
  { unfold affine_series. apply length_map. }
  assert (Hc : length cov = length x).
  { unfold cov. rewrite rolling_length, length_map, length_combine. lia. }
  assert (Hvl : length var = length x) by apply rolling_length.
  rewrite (nth_map_lt _ _ i NaN (NaN, NaN)) by (rewrite length_combine; lia).
  rewrite combine_nth by congruence. cbn [fst snd].
  unfold cov, var.
  rewrite (rolling_nth w Qvar1 x i Hi).
  rewrite (rolling_nth w Qcov1)
    by (rewrite length_map, length_combine; lia).
  apply Nat.leb_le in Hw. rewrite Hw.
  rewrite combine_affine, window_at_map, all_present_affine.
  unfold cell in *. rewrite Hv. cbn [option_map].
  destruct (Qcov1_affine a c v s Hs) as (t & -> & Ht).
  rewrite Hs. cbn [fdiv]. apply Qeq_bool_false in Hnz as E. rewrite E.
  cbn [feq]. rewrite Ht. field. apply Qeq_bool_false. exact E.
Qed.

Lemma rolling_beta_affine_witness :
  nth 2 (rolling_beta
           (affine_series 0.001 2 [Some 0.01; Some (-0.02); Some 0.03])
           [Some 0.01; Some (-0.02); Some 0.03] 2) NaN
  =f= Fin 2.
Proof.
  eapply (rolling_beta_affine 0.001 2 [Some 0.01; Some (-0.02); Some 0.03]
            2 2).
  - simpl. lia.
  - lia.
  - reflexivity.
  - reflexivity.
  - discriminate.
Defined.

(** ** Ticker aliases *)

Lemma append_length (a b : string) :
  String.length (a ++ b) = (String.length a + String.length b)%nat.
Proof. induction a as [|c a IH]; simpl; [reflexivity|]. rewrite IH. reflexivity. Qed.

Lemma append_suffix_neq (a b : string) : b <> ""%string -> a <> (a ++ b)%string.
Proof.
  intros Hb E. apply (f_equal String.length) in E.
  rewrite append_length in E. destruct b; [contradiction|]. simpl in E. lia.
Qed.

Lemma ticker_char_plain (c : ascii) :
  ticker_char c = true -> Ascii.eqb c "^" = false /\ Ascii.eqb c "=" = false.
Proof.
  intro H. split.
  - destruct (Ascii.eqb c "^") eqn:E; [|reflexivity].
    apply Ascii.eqb_eq in E. subst c. discriminate H.
  - destruct (Ascii.eqb c "=") eqn:E; [|reflexivity].
    apply Ascii.eqb_eq in E. subst c. discriminate H.
Qed.

(** X21.  A ticker that matches the pattern [[A-Z0-9.\-]+] holds
    neither [^] nor [=]: the second half of the test of
    [_stooq_aliases] never decides. *)
Theorem pattern_excludes_caret_and_equals (s : string) :
  fullmatch_ticker s = true ->
  existsb (fun ch => contains_char ch s) ["^"; "="]%char = false.
Proof.
  unfold fullmatch_ticker. intro H. apply andb_true_iff in H.
  destruct H as [_ H]. cbn [existsb]. rewrite orb_false_r.
  assert (Hc : forall ch, (forall c, ticker_char c = true ->
                                     Ascii.eqb c ch = false) ->
                          contains_char ch s = false).
  { intros ch Hch. unfold contains_char. apply negb_false_iff.
    induction s as [|c r IH]; [reflexivity|].
    cbn [str_all] in *. apply andb_true_iff in H. destruct H as [Hc Hr].
    rewrite (Hch c Hc). cbn [negb andb]. apply IH. exact Hr. }
  rewrite (Hc "^"%char), (Hc "="%char); [reflexivity| |];
    intros c Hcc; apply ticker_char_plain; exact Hcc.
Qed.

Lemma pattern_excludes_caret_and_equals_witness :
  existsb (fun ch => contains_char ch "BRK-B"%string) ["^"; "="]%char = false.
Proof.
  apply pattern_excludes_caret_and_equals. reflexivity.
Defined.

(** X20.  [_stooq_aliases] always proposes at least one symbol and at
    most three, never the same symbol twice; and for a ticker that is
    not one of the special symbols and is not a mapped [.TO] ticker, the
    first symbol proposed is the ticker in upper case. *)
Theorem stooq_aliases_candidates (t : string) (map_tsx_to_us : bool) :
  let l := _stooq_aliases t map_tsx_to_us in
  l <> [] /\ (length l <= 3)%nat /\ NoDup l
  /\ (assoc (str_upper t) specials = None ->
      endswith (str_upper t) ".TO" && map_tsx_to_us = false ->
      hd ""%string l = str_upper t).
Proof.
  cbv zeta. unfold _stooq_aliases.
  set (t0 := str_upper t).
  destruct (assoc t0 specials) as [aliases|] eqn:Es.
  - assert (Hin : In aliases (map snd specials)).
    { clear -Es. revert Es. generalize specials.
      induction l as [|[k v] l IH]; [discriminate|].
      cbn [assoc map snd]. destruct (String.eqb t0 k).
      - intro E. injection E as <-. left. reflexivity.
      - intro E. right. apply IH. exact E. }
    cbn [specials map snd In] in Hin.
    destruct Hin as [<-|[<-|[<-|[<-|[]]]]];
      (split; [discriminate|]; split; [simpl; lia|]; split;
       [repeat constructor; simpl; intuition discriminate|discriminate]).
  - destruct (endswith t0 ".TO" && map_tsx_to_us) eqn:Eto.
    + split; [discriminate|]. split; [simpl; lia|]. split; [|discriminate].
      constructor; [|repeat constructor; intros []].
      intros [E|[]]. symmetry in E. revert E. apply append_suffix_neq.
      discriminate.
    + destruct (existsb (endswith t0) _STQ_SUFFIXES).
      * split; [discriminate|]. split; [simpl; lia|].
        split; [repeat constructor; intros []|reflexivity].
      * destruct (fullmatch_ticker t0 && _).
        -- split; [discriminate|]. split; [simpl; lia|].
           split; [|reflexivity].
           constructor; [|repeat constructor; intros []].
           intros [E|[]]. symmetry in E. revert E. apply append_suffix_neq.
           discriminate.
        -- split; [discriminate|]. split; [simpl; lia|].
           split; [repeat constructor; intros []|reflexivity].
Qed.

Lemma before_first_append (sep : ascii) (y r : string) :
  contains_char sep y = false ->
  before_first sep (y ++ String sep r) = y.
Proof.
  unfold contains_char. rewrite negb_false_iff.
  induction y as [|c y IH]; intro H; cbn [append before_first].
  - rewrite Ascii.eqb_refl. reflexivity.
  - cbn [str_all] in H. apply andb_true_iff in H. destruct H as [Hc Hy].
    apply negb_true_iff in Hc. rewrite Hc, (IH Hy). reflexivity.
Qed.

Lemma contains_char_append (sep : ascii) (y r : string) :
  contains_char sep (y ++ String sep r) = true.
Proof.
  unfold contains_char. rewrite negb_true_iff.
  induction y as [|c y IH]; cbn [append str_all].
  - rewrite Ascii.eqb_refl. reflexivity.
  - rewrite IH. apply andb_false_r.
Qed.

Lemma specials_have_no_dot (t0 : string) :
  contains_char "." t0 = true -> assoc t0 specials = None.
Proof.
  intro H. unfold specials. cbn [assoc].
  repeat match goal with
  | |- context [String.eqb t0 ?k] =>
      let E := fresh "E" in
      destruct (String.eqb t0 k) eqn:E;
        [apply String.eqb_eq in E; subst t0; discriminate H|]
  end.
  reflexivity.
Qed.

(** X22.  With the mapping on, an upper-case ticker that ends in [.TO]
    is looked up under the text before its first dot, and that text
    followed by [.US]; what stands between the first dot and [.TO] (a
    share class, as in [TECK.B.TO]) is dropped. *)
Theorem tsx_alias_is_text_before_first_dot (y r : string) :
  is_ascii (y ++ String "." r) = true ->
  contains_char "." y = false ->
  str_upper (y ++ String "." r) = (y ++ String "." r)%string ->
  endswith (y ++ String "." r) ".TO" = true ->
  _stooq_aliases (y ++ String "." r) true = [y; (y ++ ".US")%string].
Proof.
  intros _ Hy Hup Hto. unfold _stooq_aliases. rewrite Hup.
  rewrite (specials_have_no_dot _ (contains_char_append "." y r)).
  rewrite Hto. cbn [andb]. rewrite (before_first_append "." y r Hy).
  reflexivity.
Qed.

Lemma tsx_alias_is_text_before_first_dot_witness :
  _stooq_aliases "IMO.TO" true = ["IMO"; "IMO.US"]%string
  /\ _stooq_aliases "TECK.B.TO" true = ["TECK"; "TECK.US"]%string.
Proof.
  split.
  - apply (tsx_alias_is_text_before_first_dot "IMO" "TO"); reflexivity.
  - apply (tsx_alias_is_text_before_first_dot "TECK" "B.TO"); reflexivity.
Defined.

(** ** The column of the prices *)

Lemma assoc_dict_set {A : Type} (k k' : string) (v : A)
  (d : list (string * A)) :
  assoc k' (dict_set k v d)
  = if String.eqb k' k then Some v else assoc k' d.
Proof.
  induction d as [|[k0 v0] d IH]; cbn [dict_set assoc]; [reflexivity|].
  destruct (String.eqb k k0) eqn:E.
  - apply String.eqb_eq in E. subst k0. cbn [assoc].
    destruct (String.eqb k' k); reflexivity.
  - cbn [assoc]. rewrite IH.
    destruct (String.eqb k' k0) eqn:E0; [|reflexivity].
    apply String.eqb_eq in E0. subst k0.
    rewrite String.eqb_sym in E. rewrite E. reflexivity.
Qed.

(** A key of an updated dict holds the value of its last item. *)
Lemma assoc_dict_update {A : Type} (k : string) (e d : list (string * A)) :
  assoc k (dict_update d e)
  = match assoc k (rev e) with
    | Some v => Some v
    | None => assoc k d
    end.
Proof.
  unfold dict_update. revert d.
  induction e as [|[k1 v1] e IH]; intro d; [reflexivity|].
  cbn [fold_left fst snd rev]. rewrite IH.
  assert (Happ : forall l : list (string * A),
             assoc k (l ++ [(k1, v1)])
             = match assoc k l with
               | Some v => Some v
               | None => if String.eqb k k1 then Some v1 else None
               end).
  { induction l as [|[k0 v0] l IHl]; cbn [app assoc]; [reflexivity|].
    destruct (String.eqb k k0); [reflexivity|exact IHl]. }
  rewrite Happ. destruct (assoc k (rev e)); [reflexivity|].
  rewrite assoc_dict_set. destruct (String.eqb k k1); reflexivity.
Qed.

Lemma assoc_In {A : Type} (k : string) (v : A) (l : list (string * A)) :
  assoc k l = Some v -> In (k, v) l.
Proof.
  induction l as [|[k0 v0] l IH]; cbn [assoc]; [discriminate|].
  destruct (String.eqb k k0) eqn:E.
  - apply String.eqb_eq in E. subst k0. intro H. injection H as <-.
    left. reflexivity.
  - intro H. right. apply IH. exact H.
Qed.

Lemma assoc_some {A : Type} (k : string) (l : list (string * A)) :
  In k (map fst l) -> exists v, assoc k l = Some v.
Proof.
  induction l as [|[k0 v0] l IH]; cbn [map fst assoc]; [intros []|].
  intro H. destruct (String.eqb k k0) eqn:E; [eexists; reflexivity|].
  destruct H as [H|H]; [|apply IH; exact H].
  subst k0. rewrite String.eqb_refl in E. discriminate E.
Qed.

Lemma lower_index_lookup (cols : list string) (key : string) :
  (forall c, assoc key (lower_index cols) = Some c ->
     In c cols /\ str_lower c = key)
  /\ (assoc key (lower_index cols) = None <->
      forall c, In c cols -> str_lower c <> key).
Proof.
  unfold lower_index, dict_of_items. rewrite assoc_dict_update.
  cbn [assoc]. set (items := map (fun c => (str_lower c, c)) cols).
  assert (Hitems : forall k c, In (k, c) (rev items) <->
                               In c cols /\ str_lower c = k).
  { intros k c. rewrite <- in_rev. unfold items. rewrite in_map_iff. split.
    - intros (c' & E & Hc). injection E as <- <-. split; [exact Hc|reflexivity].
    - intros [Hc <-]. exists c. split; [reflexivity|exact Hc]. }
  destruct (assoc key (rev items)) as [c|] eqn:E.
  - split.
    + intros c' Ec. injection Ec as <-. apply Hitems. apply assoc_In. exact E.
    + split; [discriminate|]. intro Hnone. exfalso.
      apply assoc_In in E. apply Hitems in E. destruct E as [Hc Hl].
      exact (Hnone c Hc Hl).
  - split; [discriminate|]. split; [|reflexivity].
    intros _ c Hc Hl.
    destruct (assoc_some key (rev items)) as [v Hv]; [|congruence].
    apply in_map_iff. exists (key, c). split; [reflexivity|].
    apply Hitems. split; assumption.
Qed.

Lemma first_key_spec (keys : list string) (cols : list string) :
  (forall c, first_key keys (lower_index cols) = Some c ->
     In c cols /\ In (str_lower c) keys)
  /\ (first_key keys (lower_index cols) = None <->
      forall c, In c cols -> ~ In (str_lower c) keys).
Proof.
  induction keys as [|key keys [IH1 IH2]]; cbn [first_key].
  - split; [discriminate|]. split; [intros _ c _ []|reflexivity].
  - destruct (lower_index_lookup cols key) as [Hs Hn].
    destruct (assoc key (lower_index cols)) as [c0|] eqn:E.
    + split.
      * intros c Ec. injection Ec as <-. destruct (Hs c0 eq_refl) as [Hc Hl].
        split; [exact Hc|left; symmetry; exact Hl].
      * split; [discriminate|]. intro H. exfalso.
        destruct (Hs c0 eq_refl) as [Hc Hl].
        apply (H c0 Hc). left. symmetry. exact Hl.
    + split.
      * intros c Ec. destruct (IH1 c Ec) as [Hc Hl].
        split; [exact Hc|right; exact Hl].
      * rewrite IH2. split.
        -- intros H c Hc [Hk|Hk]; [|exact (H c Hc Hk)].
           exact (proj1 Hn eq_refl c Hc (eq_sym Hk)).
        -- intros H c Hc Hk. apply (H c Hc). right. exact Hk.
Qed.

(** X23.  The column [_series_from_df] reads.  The fallback on a column
    named [Close] never fires: the loop over the keys has found it as
    [close].  The column picked is a column of the table whose
    lower-case name is one of the four keys; no column is picked
    exactly when no column has such a name; and a column named
    [adj close] in any case is preferred to every other. *)
Theorem pick_column_spec (cols : list string) :
  pick_column cols = first_key price_keys (lower_index cols)
  /\ (forall c, pick_column cols = Some c ->
        In c cols /\ In (str_lower c) price_keys)
  /\ (pick_column cols = None <->
      forall c, In c cols -> ~ In (str_lower c) price_keys)
  /\ (forall c, In c cols -> str_lower c = "adj close"%string ->
      exists p, pick_column cols = Some p
                /\ str_lower p = "adj close"%string).
Proof.
  destruct (first_key_spec price_keys cols) as [Hsome Hnone].
  assert (Hdead : pick_column cols = first_key price_keys (lower_index cols)).
  { unfold pick_column.
    destruct (first_key price_keys (lower_index cols)) eqn:E; [reflexivity|].
    destruct (existsb (String.eqb "Close") cols) eqn:Ec; [|reflexivity].
    exfalso. apply existsb_exists in Ec. destruct Ec as (c & Hc & Eq).
    apply String.eqb_eq in Eq. subst c.
    apply (proj1 Hnone eq_refl "Close"%string Hc).
    right. right. left. reflexivity. }
  rewrite Hdead. split; [reflexivity|]. split; [exact Hsome|].
  split; [exact Hnone|].
  intros c Hc Hl. cbn [price_keys first_key].
  destruct (lower_index_lookup cols "adj close") as [Hs Hn].
  destruct (assoc "adj close" (lower_index cols)) as [p|] eqn:E.
  - exists p. split; [reflexivity|]. apply (Hs p eq_refl).
  - exfalso. exact (proj1 Hn eq_refl c Hc Hl).
Qed.

(** ** The cleaned price series *)

Lemma date_eqb_key (a b : Date) :
  date_eqb a b = true <-> date_key a = date_key b.
Proof. unfold date_eqb. apply Z.eqb_eq. Qed.

Lemma existsb_date_compat (a b : Date) (l : list Date) :
  date_eqb a b = true ->
  existsb (date_eqb a) l = existsb (date_eqb b) l.
Proof.
  intro H. apply date_eqb_key in H.
  induction l as [|x l IH]; [reflexivity|].
  cbn [existsb]. rewrite IH. unfold date_eqb. rewrite H. reflexivity.
Qed.

Lemma drop_duplicated_first (s : Series) :
  forall seen d v,
    In (d, v) (drop_duplicated seen s) ->
    lookup_date d s = Some v /\ existsb (date_eqb d) seen = false.
Proof.
  induction s as [|[d0 v0] t IH]; intros seen d v Hin; [destruct Hin|].
  cbn [drop_duplicated] in Hin. cbn [lookup_date].
  destruct (existsb (date_eqb d0) seen) eqn:Eseen.
  - destruct (IH seen d v Hin) as [Hl Hs]. split; [|exact Hs].
    destruct (date_eqb d d0) eqn:E; [|exact Hl].
    rewrite (existsb_date_compat d d0 seen E) in Hs. congruence.
  - destruct Hin as [E|Hin].
    + injection E as <- <-. split; [|exact Eseen].
      assert (Er : date_eqb d0 d0 = true) by (apply date_eqb_key; reflexivity).
      rewrite Er. reflexivity.
    + destruct (IH (d0 :: seen) d v Hin) as [Hl Hs].
      cbn [existsb] in Hs. apply orb_false_iff in Hs.
      destruct Hs as [Hd Hs]. rewrite Hd. split; assumption.
Qed.

Lemma drop_duplicated_keeps (s : Series) :
  forall seen d v,
    lookup_date d s = Some v -> existsb (date_eqb d) seen = false ->
    exists d', date_eqb d d' = true /\ In (d', v) (drop_duplicated seen s).
Proof.
  induction s as [|[d0 v0] t IH]; intros seen d v Hl Hs; [discriminate Hl|].
  cbn [lookup_date] in Hl. cbn [drop_duplicated].
  destruct (date_eqb d d0) eqn:E.
  - injection Hl as <-.
    rewrite (existsb_date_compat d d0 seen E) in Hs. rewrite Hs.
    exists d0. split; [exact E|left; reflexivity].
  - destruct (existsb (date_eqb d0) seen).
    + apply IH; assumption.
    + destruct (IH (d0 :: seen) d v Hl) as (d' & Ed & Hin).
      * cbn [existsb]. rewrite E, Hs. reflexivity.
      * exists d'. split; [exact Ed|right; exact Hin].
Qed.

Lemma drop_duplicated_distinct (s : Series) :
  forall seen,
    NoDup (map (fun dv => date_key (fst dv)) (drop_duplicated seen s)).
Proof.
  induction s as [|[d0 v0] t IH]; intro seen; [constructor|].
  cbn [drop_duplicated].
  destruct (existsb (date_eqb d0) seen); [apply IH|].
  cbn [map fst]. constructor; [|apply IH].
  intro Hin. apply in_map_iff in Hin. destruct Hin as ([d v] & Ek & Hin).
  cbn [fst] in Ek. apply drop_duplicated_first in Hin.
  destruct Hin as [_ Hs]. cbn [existsb] in Hs. apply orb_false_iff in Hs.
  destruct Hs as [Hd _]. apply date_eqb_key in Ek. congruence.
Qed.

Lemma insert_by_date_In (x y : Date * float) (l : Series) :
  In y (insert_by_date x l) <-> y = x \/ In y l.
Proof.
  induction l as [|z l IH]; cbn [insert_by_date].
  - simpl. intuition.
  - destruct (date_leb (fst x) (fst z)).
    + simpl. intuition.
    + cbn [In]. rewrite IH. intuition.
Qed.

Lemma sort_index_In (y : Date * float) (s : Series) :
  In y (sort_index s) <-> In y s.
Proof.
  unfold sort_index. induction s as [|x s IH]; [reflexivity|].
  cbn [fold_right]. rewrite insert_by_date_In, IH. simpl. intuition.
Qed.

Lemma insert_by_date_sorted (x : Date * float) (l : Series) :
  StronglySorted dated_before l ->
  ~ In (date_key (fst x)) (map (fun dv => date_key (fst dv)) l) ->
  StronglySorted dated_before (insert_by_date x l).
Proof.
  induction 1 as [|z l Hs IH Hz]; intro Hx; cbn [insert_by_date].
  - constructor; constructor.
  - assert (Hne : date_key (fst x) <> date_key (fst z)).
    { intro E. apply Hx. left. symmetry. exact E. }
    destruct (date_leb (fst x) (fst z)) eqn:E.
    + apply Z.leb_le in E.
      assert (Hlt : dated_before x z) by (unfold dated_before, date_lt; lia).
      constructor; [constructor; assumption|].
      constructor; [exact Hlt|].
      eapply Forall_impl; [|exact Hz].
      intros a Ha. unfold dated_before, date_lt in *. lia.
    + apply Z.leb_gt in E. constructor.
      * apply IH. intro Hin. apply Hx. right. exact Hin.
      * apply Forall_forall. intros a Ha. apply insert_by_date_In in Ha.
        destruct Ha as [->|Ha]; [unfold dated_before, date_lt; lia|].
        rewrite Forall_forall in Hz. apply Hz. exact Ha.
Qed.

Lemma sort_index_sorted (s : Series) :
  NoDup (map (fun dv => date_key (fst dv)) s) ->
  StronglySorted dated_before (sort_index s).
Proof.
  induction s as [|x s IH]; intro H; [constructor|].
  cbn [map] in H. apply NoDup_cons_iff in H. destruct H as [Hx Hs].
  change (sort_index (x :: s)) with (insert_by_date x (sort_index s)).
  apply insert_by_date_sorted; [apply IH; exact Hs|].
  intro Hin. apply Hx. apply in_map_iff in Hin.
  destruct Hin as (y & Ey & Hy). apply (proj1 (sort_index_In y s)) in Hy.
  apply in_map_iff. exists y. split; assumption.
Qed.

Lemma filter_sorted {A : Type} (R : A -> A -> Prop) (p : A -> bool)
  (l : list A) :
  StronglySorted R l -> StronglySorted R (filter p l).
Proof.
  induction 1 as [|a l Hs IH Ha]; [constructor|].
  cbn [filter]. destruct (p a); [|exact IH].
  constructor; [exact IH|].
  apply Forall_forall. intros b Hb. apply filter_In in Hb.
  rewrite Forall_forall in Ha. apply Ha. apply Hb.
Qed.

Lemma clean_series_content (s : Series) :
  StronglySorted dated_before (clean_series s) /\ first_prices s (clean_series s).
Proof.
  unfold first_prices, clean_series, series_dropna. split; [|split].
  - apply filter_sorted. apply sort_index_sorted.
    apply drop_duplicated_distinct.
  - intros d v Hin. apply filter_In in Hin. destruct Hin as [Hin Hv].
    apply (proj1 (sort_index_In _ _)) in Hin.
    apply drop_duplicated_first in Hin.
    split; [apply Hin|]. cbn [snd] in Hv. intro E. subst v. discriminate Hv.
  - intros d v Hl Hv.
    destruct (drop_duplicated_keeps s [] d v Hl eq_refl) as (d' & Ed & Hin).
    exists d'. split; [exact Ed|]. apply filter_In. split.
    + apply sort_index_In. exact Hin.
    + cbn [snd]. destruct v; try reflexivity. contradiction Hv. reflexivity.
Qed.

(** X24.  The series [_series_from_df] returns is strictly increasing in
    its dates and holds no [NaN]; it is empty for no input and for a
    table without a price column; otherwise it holds, for each date of
    the source, the first value the source has on that date, unless that
    value is [NaN], in which case the date is dropped even when a later
    row of the same date has a value. *)
Theorem series_from_df_spec (df : price_input) :
  let out := _series_from_df df in
  StronglySorted dated_before out
  /\ match df with
     | NoInput => out = []
     | SeriesInput s => first_prices s out
     | FrameInput index columns =>
         match pick_column (map fst columns) with
         | None => out = []
         | Some pick =>
             forall col, assoc pick columns = Some col ->
               first_prices (match index with
                             | [] => []
                             | _ => combine index col
                             end) out
         end
     end.
Proof.
  cbv zeta. destruct df as [|s|index columns]; cbn [_series_from_df].
  - split; [constructor|reflexivity].
  - destruct s as [|x s]; [|apply clean_series_content].
    split; [constructor|]. exact (proj2 (clean_series_content [])).
  - destruct index as [|d index].
    + split; [constructor|].
      destruct (pick_column (map fst columns)); [|reflexivity].
      intros col _. exact (proj2 (clean_series_content [])).
    + destruct (pick_column (map fst columns)) as [pick|];
        [|split; [constructor|reflexivity]].
      destruct (assoc pick columns) as [col|].
      * destruct (clean_series_content (combine (d :: index) col)) as [H1 H2].
        split; [exact H1|]. intros col' E. injection E as <-. exact H2.
      * split; [constructor|]. intros col E. discriminate E.
Qed.

(** A table with a duplicated date whose first row has no price: the
    date is lost, although its second row has one. *)
Lemma series_from_df_spec_witness :
  ~ In (mkDate 2024 1 3, Fin 11)
       (_series_from_df
          (FrameInput [mkDate 2024 1 3; mkDate 2024 1 2; mkDate 2024 1 3]
                      [("Open", [Fin 9; Fin 9; Fin 9]);
                       ("Close", [NaN; Fin 10; Fin 11])]%string)).
Proof.
  intro Hin.
  destruct (series_from_df_spec
              (FrameInput [mkDate 2024 1 3; mkDate 2024 1 2; mkDate 2024 1 3]
                          [("Open", [Fin 9; Fin 9; Fin 9]);
                           ("Close", [NaN; Fin 10; Fin 11])]%string))
    as [_ Hcontent].
  cbn in Hcontent. destruct (Hcontent _ eq_refl) as [Hsound _].
  destruct (Hsound _ _ Hin) as [Hl Hv]. cbn in Hl. congruence.
Defined.

(** ** Log returns *)

Lemma nth_seq_id {A : Type} (l : list A) (d : A) :
  map (fun i => nth i l d) (seq 0 (length l)) = l.
Proof.
  induction l as [|a l IH]; [reflexivity|].
  cbn [length]. rewrite <- cons_seq, <- seq_shift. cbn [map nth].
  rewrite map_map. cbn [nth]. f_equal. exact IH.
Qed.

Lemma sort_index_sorted_id {A : Type} (l : list (Date * A)) :
  StronglySorted dated_before l -> sort_index l = l.
Proof.
  induction 1 as [|x l Hs IH Hx]; [reflexivity|].
  change (sort_index (x :: l)) with (insert_by_date x (sort_index l)).
  rewrite IH. destruct l as [|y l]; [reflexivity|].
  cbn [insert_by_date]. inversion Hx as [|? ? Hxy _]; subst.
  unfold dated_before, date_lt in Hxy. unfold date_leb.
  assert (E : (date_key (fst x) <=? date_key (fst y))%Z = true)
    by (apply Z.leb_le; lia).
  rewrite E. reflexivity.
Qed.

Lemma combine_sorted {A : Type} (idx : list Date) (l : list A) :
  StronglySorted date_lt idx -> StronglySorted dated_before (combine idx l).
Proof.
  intro H. revert l. induction H as [|d idx Hs IH Hd]; intro l;
    [constructor|].
  destruct l as [|a l]; [constructor|]. cbn [combine].
  constructor; [apply IH|].
  apply Forall_forall. intros [d' a'] Hin. apply in_combine_l in Hin.
  rewrite Forall_forall in Hd. exact (Hd d' Hin).
Qed.

Lemma map_snd_combine_seq (idx : list Date) :
  map snd (combine idx (seq 0 (length idx))) = seq 0 (length idx).
Proof.
  apply map_snd_combine_eq. rewrite length_seq. reflexivity.
Qed.

Lemma frame_sort_index_sorted (f : FloatFrame) :
  StronglySorted date_lt (ff_index f) ->
  Forall (fun c => length (snd c) = length (ff_index f)) (ff_columns f) ->
  frame_sort_index f = f.
Proof.
  intros Hs Hc. unfold frame_sort_index.
  rewrite (sort_index_sorted_id _ (combine_sorted _ _ Hs)).
  rewrite map_snd_combine_seq, nth_seq_id.
  destruct f as [idx cols]. cbn [ff_index ff_columns] in *. f_equal.
  induction Hc as [|[name col] cols Hcol _ IH]; [reflexivity|].
  cbn [map fst snd] in *. rewrite <- Hcol, nth_seq_id, Hcol, IH. reflexivity.
Qed.

Section LogReturns.
Context {L : Lib}.

Lemma log_change_cons (p : float) (t : list float) :
  log_change (p :: t) = NaN :: log_path p t.
Proof.
  unfold log_change, shift1.
  assert (H : forall prev l,
             map (fun pq => flog (fst pq / snd pq)%fl)
                 (combine l (removelast (prev :: l)))
             = log_path prev l).
  { intros prev l. revert prev.
    induction l as [|q l IH]; intro prev; [reflexivity|].
    change (removelast (prev :: q :: l)) with (prev :: removelast (q :: l)).
    cbn [combine map fst snd log_path]. rewrite IH. reflexivity. }
  cbn [combine map fst snd]. rewrite H.
  destruct p; reflexivity.
Qed.

Lemma log_path_finite (prev : float) (col : list float) :
  (exists q, prev = Fin q /\ 0 < q) -> positive_prices col ->
  length (log_path prev col) = length col
  /\ Forall (fun r => isfinite r = true) (log_path prev col).
Proof.
  intros Hp Hc. revert prev Hp.
  induction Hc as [|p t Hpos _ IH]; intros prev Hp; [split; constructor|].
  cbn [log_path length]. destruct (IH p Hpos) as [Hl Hf].
  split; [rewrite Hl; reflexivity|]. constructor; [|exact Hf].
  destruct Hp as (q' & -> & Hq'). destruct Hpos as (q & -> & Hq).
  cbn [fdiv]. assert (E : Qeq_bool q' 0 = false) by (apply Qeq_bool_false; lra).
  rewrite E. unfold flog.
  assert (Hr : 0 < q / q') by (apply Qlt_shift_div_l; lra).
  assert (E1 : Qlt_bool (q / q') 0 = false).
  { destruct (Qlt_bool (q / q') 0) eqn:E1; [|reflexivity].
    apply Qlt_bool_iff in E1. lra. }
  assert (E2 : Qeq_bool (q / q') 0 = false) by (apply Qeq_bool_false; lra).
  rewrite E1, E2. reflexivity.
Qed.

Lemma keep_rows_tail {A : Type} (x : A) (l : list A) (mask : list bool) :
  length mask = length l -> Forall (fun b => b = true) mask ->
  keep_rows (false :: mask) (x :: l) = l.
Proof.
  intros Hlen Hall. unfold keep_rows. cbn [combine filter snd].
  rewrite filter_all.
  - apply map_fst_combine_eq. symmetry. exact Hlen.
  - apply Forall_forall. intros [a b] Hin. cbn [snd].
    apply in_combine_r in Hin. rewrite Forall_forall in Hall.
    apply Hall. exact Hin.
Qed.

(** X25.  Log returns of clean prices.  For a non-empty table of
    positive prices without missing entries, over strictly increasing
    dates, [pct_returns] with the method [log] (in any case) returns a
    table over the dates but the first, with the same columns; each
    return is the log of the ratio of two consecutive prices, and all
    of them are finite. *)
Theorem log_returns_of_positive_prices
  (pd_pct_change : FloatFrame -> FloatFrame) (prices : FloatFrame)
  (method : string) :
  str_lower method = "log"%string ->
  ff_empty prices = false ->
  StronglySorted date_lt (ff_index prices) ->
  Forall (fun c => length (snd c) = length (ff_index prices)
                   /\ positive_prices (snd c)) (ff_columns prices) ->
  let rets := pct_returns pd_pct_change (Some prices) method in
  ff_index rets = tl (ff_index prices)
  /\ ff_columns rets
     = map (fun c => (fst c, match snd c with
                             | [] => []
                             | p :: t => log_path p t
                             end)) (ff_columns prices)
  /\ Forall (fun c => length (snd c) = length (ff_index rets)
                      /\ Forall (fun r => isfinite r = true) (snd c))
            (ff_columns rets).
Proof.
  intros Hm Hne Hs Hc. cbv zeta. unfold pct_returns. rewrite Hne, Hm.
  rewrite frame_sort_index_sorted;
    [|exact Hs|eapply Forall_impl; [|exact Hc]; intros c H; apply H].
  change (String.eqb "log" "log") with true. cbv iota.
  destruct prices as [idx cols]. cbn [ff_index ff_columns] in *.
  unfold ff_empty in Hne. cbn [ff_index ff_columns] in Hne.
  destruct idx as [|d0 idx]; [discriminate Hne|].
  destruct cols as [|c0 cols]; [discriminate Hne|].
  assert (Hcols : Forall (fun c => exists p t,
                     snd c = p :: t /\ length t = length idx
                     /\ length (log_path p t) = length idx
                     /\ Forall (fun r => isfinite r = true) (log_path p t))
                         (c0 :: cols)).
  { eapply Forall_impl; [|exact Hc]. intros [name col] [Hl Hp].
    cbn [snd] in *. destruct col as [|p t]; [discriminate Hl|].
    inversion Hp as [|? ? Hp0 Ht]; subst.
    destruct (log_path_finite p t Hp0 Ht) as [Hlen Hfin].
    exists p, t. cbn [length] in Hl.
    split; [reflexivity|]. split; [lia|]. split; [lia|exact Hfin]. }
  clear Hc Hs Hne.
  set (rcols := map (fun c => (fst c, log_change (snd c))) (c0 :: cols)).
  unfold dropna_all. cbn [ff_index ff_columns].
  set (mask := map (row_has_value rcols) (seq 0 (length (d0 :: idx)))).
  assert (Hmask : exists m, mask = false :: m /\ length m = length idx
                            /\ Forall (fun b => b = true) m).
  { unfold mask. cbn [length seq map].
    exists (map (row_has_value rcols) (seq 1 (length idx))).
    split; [|split].
    - f_equal. unfold row_has_value, rcols.
      apply not_true_is_false. intro E. apply existsb_exists in E.
      destruct E as (rc & Hin & E). apply in_map_iff in Hin.
      destruct Hin as (c & <- & Hin). cbn [snd] in E.
      rewrite Forall_forall in Hcols.
      destruct (Hcols c Hin) as (p & t & Ec & _).
      rewrite Ec, log_change_cons in E. discriminate E.
    - rewrite length_map, length_seq. reflexivity.
    - apply Forall_map. apply Forall_forall. intros i Hi.
      apply in_seq in Hi. unfold row_has_value, rcols.
      cbn [map existsb fst snd].
      inversion Hcols as [|? ? (p & t & Ec & Hlt & Hll & Hfin) _]; subst.
      rewrite Ec, log_change_cons.
      destruct i as [|i]; [lia|]. cbn [nth].
      rewrite Forall_forall in Hfin.
      assert (Hin : In (nth i (log_path p t) NaN) (log_path p t))
        by (apply nth_In; lia).
      apply Hfin in Hin. destruct (nth i (log_path p t) NaN);
        try discriminate Hin. reflexivity. }
  destruct Hmask as (m & -> & Hml & Hmt).
  assert (Hcolumns :
            map (fun c => (fst c, keep_rows (false :: m) (snd c))) rcols
            = map (fun c => (fst c, match snd c with
                                    | [] => []
                                    | p :: t => log_path p t
                                    end)) (c0 :: cols)).
  { unfold rcols. rewrite map_map. cbn [fst snd].
    apply map_ext_in. intros c Hin. rewrite Forall_forall in Hcols.
    destruct (Hcols c Hin) as (p & t & Ec & Hlt & Hll & _).
    rewrite Ec, log_change_cons. f_equal.
    apply keep_rows_tail; [lia|exact Hmt]. }
  split; [apply keep_rows_tail; [exact Hml|exact Hmt]|].
  split; [exact Hcolumns|].
  rewrite Hcolumns. apply Forall_map. cbn [snd tl].
  rewrite (keep_rows_tail d0 idx m Hml Hmt).
  eapply Forall_impl; [|exact Hcols].
  intros c (p & t & -> & _ & Hll & Hfin). split; assumption.
Qed.

End LogReturns.

Lemma log_returns_of_positive_prices_witness :
  let rets := pct_returns (fun f => f) (Some sample_prices) "LOG" in
  ff_index rets = [mkDate 2024 1 3; mkDate 2024 1 4]
  /\ Forall (fun c => length (snd c) = 2%nat
                      /\ Forall (fun r => isfinite r = true) (snd c))
            (ff_columns rets).
Proof.
  destruct (log_returns_of_positive_prices (fun f => f) sample_prices "LOG")
    as (Hidx & _ & Hcols).
  - reflexivity.
  - reflexivity.
  - repeat constructor.
  - repeat constructor; eexists; (split; [reflexivity|reflexivity]).
  - cbv zeta. split; [exact Hidx|]. rewrite Hidx in Hcols. exact Hcols.
Defined.

(** ** The normal equations *)

Lemma augment_nth (k : nat) (M : mat) (i : nat) :
  square k M -> (i < k)%nat ->
  nth i (augment M) [] = nth i M [] ++ nth i (identity k) [].
Proof.
  intros [Hk _] Hi. unfold augment. rewrite Hk.
  destruct (identity_shape k) as [Hil _].
  rewrite (nth_map_lt _ _ i [] ([], []))
    by (rewrite length_combine, Hil, Hk, Nat.min_id; exact Hi).
  rewrite combine_nth by (rewrite Hil; exact Hk). reflexivity.
Qed.

Lemma Forall2_Qeq_at (u v : list Q) (i : nat) :
  Forall2 Qeq u v -> nth i u 0 == nth i v 0.
Proof.
  intro H. revert i. induction H as [|a b u v Hab _ IH]; intro i.
  - destruct i; reflexivity.
  - destruct i as [|i]; [exact Hab|apply IH].
Qed.

(** The matrix that [np.linalg.inv] returns is a right inverse as well. *)
Lemma np_inv_right_inverse (k : nat) (M G : mat) (u : list Q) :
  square k M -> np_inv M = Ok G -> length u = k ->
  Forall2 Qeq (matvec M (matvec G u)) u.
Proof.
  intros Hsq HG Hu.
  pose proof (np_inv_shape k M G Hsq HG) as HGlen.
  pose proof Hsq as [Hk HM].
  destruct (augment_shape k M Hsq) as [Hlen Hrows].
  unfold np_inv in HG. rewrite Hk in HG.
  destruct (gauss_jordan k 0 [] (augment M)) as [rows|] eqn:Egj;
    [|discriminate].
  apply Ok_inj in HG. subst G.
  assert (Hnil : same_length (k + k) []) by constructor.
  destruct (gauss_jordan_some (k + k) k 0 [] (augment M) rows
              Hnil Hrows Hlen (reduced_start _) Egj)
    as (Hshape & (Hcount & Hid & _) & Hsame).
  simpl in Hcount. rewrite length_map in HGlen.
  set (Gu := matvec (map (skipn k) rows) u).
  assert (HGu : length Gu = k).
  { unfold Gu, matvec. rewrite !length_map. exact Hcount. }
  set (x := map Qopp Gu ++ u).
  unfold same_length in Hshape. rewrite Forall_forall in Hshape.
  assert (Hfinal : in_kernel rows x).
  { unfold in_kernel. apply Forall_forall. intros row Hin.
    destruct (In_nth rows row [] Hin) as (j & Hj & <-).
    pose proof (Hshape _ Hin) as Hl. clear Hin.
    rewrite <- (firstn_skipn k (nth j rows [])). unfold x.
    rewrite dot_app by (rewrite length_firstn, length_map; lia).
    rewrite (dot_unit (firstn k (nth j rows [])) (map Qopp Gu) j).
    - rewrite (nth_map_lt Qopp Gu j 0 0) by lia.
      unfold Gu, matvec. rewrite map_map.
      rewrite (nth_map_lt _ rows j 0 []) by exact Hj. ring.
    - rewrite length_map. lia.
    - intros c Hc. rewrite length_map, HGu in Hc.
      rewrite <- (Hid j c) by lia.
      rewrite <- (firstn_skipn k (nth j rows [])) at 2.
      rewrite app_nth1 by (rewrite length_firstn; lia). reflexivity. }
  apply (Hsame x) in Hfinal. cbn [app] in Hfinal.
  unfold in_kernel in Hfinal. rewrite Forall_forall in Hfinal.
  apply Forall2_Qeq_nth.
  - unfold matvec. rewrite length_map. lia.
  - intros i Hi. unfold matvec in Hi. rewrite length_map, Hk in Hi.
    unfold matvec at 1. rewrite (nth_map_lt _ M i 0 []) by lia.
    assert (Hin : In (nth i (augment M) []) (augment M))
      by (apply nth_In; lia).
    pose proof (Hfinal _ Hin) as H0.
    rewrite (augment_nth k M i Hsq Hi) in H0. unfold x in H0.
    unfold same_length in HM. rewrite Forall_forall in HM.
    rewrite dot_app in H0
      by (rewrite length_map, HGu; apply HM; apply nth_In; lia).
    rewrite dot_opp_r in H0.
    rewrite (dot_unit (nth i (identity k) []) u i) in H0.
    + fold Gu. lra.
    + lia.
    + intros c Hc. rewrite nth_identity by lia. reflexivity.
Qed.

Lemma dot_sub (u y z : list Q) :
  length y = length z ->
  dot u (map (fun ab => fst ab - snd ab) (combine y z)) == dot u y - dot u z.
Proof.
  revert y z. induction u as [|a u IH]; intros y z Hlen.
  - unfold dot. simpl. ring.
  - destruct y as [|b y], z as [|c z]; try discriminate Hlen.
    + cbn [combine map]. rewrite !dot_nil_r. ring.
    + cbn [combine map fst snd]. rewrite !dot_cons, IH by (simpl in Hlen; lia).
      ring.
Qed.

Lemma residuals_by_row (rows : list (list Q)) (b : list Q) :
  map (fun ab => fst ab - snd ab)
      (combine (map (hd 0) rows) (matvec (design rows) b))
  = map (residual b) rows.
Proof.
  unfold matvec, design. rewrite !map_map.
  induction rows as [|row rows IH]; [reflexivity|].
  cbn [map combine fst snd]. rewrite IH. reflexivity.
Qed.

Section NormalEquations.
Context {L : Lib}.

(** [X'X b = X'y] for the coefficients of the least-squares fit. *)
Lemma lstsq_normal_equations (k : nat) (X G : mat) (y : list Q) :
  np_inv (gram k X) = Ok G ->
  Forall2 Qeq (matvec (gram k X) (np_lstsq k X y))
              (matvec (transpose k X) y).
Proof.
  intro HG. unfold np_lstsq. rewrite HG.
  apply (np_inv_right_inverse k); [apply gram_shape|exact HG|].
  unfold matvec, transpose. rewrite !length_map, length_seq. reflexivity.
Qed.

(** Each regressor is orthogonal to the residuals. *)
Lemma residuals_orthogonal_to_column (k : nat) (rows : list (list Q))
  (G : mat) (c : nat) :
  np_inv (gram k (design rows)) = Ok G -> (c < k)%nat ->
  let b := np_lstsq k (design rows) (map (hd 0) rows) in
  Qsum (map (fun row => nth c (1 :: tl row) 0 * residual b row) rows) == 0.
Proof.
  intros HG Hc. cbv zeta.
  set (X := design rows). set (y := map (hd 0) rows).
  set (b := np_lstsq k X y).
  pose proof (lstsq_normal_equations k X G y HG) as Hn. fold b in Hn.
  assert (Hb : length b = k) by (apply (np_lstsq_length k X G y HG)).
  pose proof (transpose_matvec k X b Hb) as Ht.
  pose proof (Forall2_Qeq_trans _ _ _ Ht Hn) as Hcol.
  apply (Forall2_Qeq_at _ _ c) in Hcol.
  unfold matvec at 1 3 in Hcol. unfold transpose in Hcol.
  rewrite !map_map in Hcol.
  rewrite !(nth_map_lt _ (seq 0 k) c 0 0%nat) in Hcol
    by (rewrite length_seq; exact Hc).
  rewrite seq_nth in Hcol by exact Hc. cbn [Nat.add] in Hcol.
  set (col := map (fun r => nth c r 0) X) in *.
  assert (Hres : Qsum (map (fun row => nth c (1 :: tl row) 0
                                      * residual b row) rows)
                 == dot col (map (residual b) rows)).
  { unfold col, X, design. rewrite !map_map.
    rewrite dot_map_map. reflexivity. }
  rewrite Hres, <- residuals_by_row. fold X y.
  rewrite dot_sub.
  - rewrite Hcol. ring.
  - unfold y, matvec, X, design. rewrite !length_map. reflexivity.
Qed.

End NormalEquations.

Section Fit.
Context {L : Lib}.

Lemma fit_decomposition (k : nat) (rows : list (list Q)) (G : mat) :
  np_inv (gram k (design rows)) = Ok G -> (0 < k)%nat ->
  let b := np_lstsq k (design rows) (map (hd 0) rows) in
  let rss := Qsum (map (fun row => residual b row * residual b row) rows) in
  0 <= rss /\ rss <= total_sum_squares (map (hd 0) rows).
Proof.
  intros HG Hk. cbv zeta.
  set (b := np_lstsq k (design rows) (map (hd 0) rows)).
  set (m := Qmean (map (hd 0) rows)).
  assert (Hb : length b = k) by (apply (np_lstsq_length k _ G _ HG)).
  assert (Horth : forall c, (c < k)%nat ->
            Qsum (map (fun row => nth c (1 :: tl row) 0 * residual b row) rows)
            == 0).
  { intros c Hc. apply (residuals_orthogonal_to_column k rows G c HG Hc). }
  assert (S1 : Qsum (map (residual b) rows) == 0).
  { rewrite <- (Horth 0%nat Hk). apply Qsum_map_ext.
    intros row _. cbn [nth]. ring. }
  assert (S2 : Qsum (map (fun row => residual b row * dot (1 :: tl row) b) rows)
               == 0).
  { rewrite (Qsum_map_ext _
               (fun row => Qsum (map (fun c => nth c b 0
                                               * (nth c (1 :: tl row) 0
                                                  * residual b row))
                                     (seq 0 k)))).
    - rewrite Qsum_exchange. apply Qsum_map_zero. intros c Hc.
      apply in_seq in Hc. rewrite <- Qsum_scale_l, Horth by lia. ring.
    - intros row _. cbv beta.
      rewrite (dot_as_sum (1 :: tl row) b), Hb.
      rewrite (Qsum_scale_l (residual b row)). apply Qsum_map_ext.
      intros c _. ring. }
  split.
  - apply Qsum_nonneg. apply Forall_map. apply Forall_forall.
    intros row _. apply Qsquare_nonneg.
  - unfold total_sum_squares. fold m. rewrite map_map.
    set (ess := Qsum (map (fun row => (dot (1 :: tl row) b - m)
                                      * (dot (1 :: tl row) b - m)) rows)).
    assert (Hess : 0 <= ess).
    { apply Qsum_nonneg. apply Forall_map. apply Forall_forall.
      intros row _. apply Qsquare_nonneg. }
    assert (Hsplit :
              Qsum (map (fun row => (hd 0 row - m) * (hd 0 row - m)) rows)
              == Qsum (map (fun row => residual b row * residual b row) rows)
                 + (ess
                    + (2 * Qsum (map (fun row => residual b row
                                                 * dot (1 :: tl row) b) rows)
                       + (- (2 * m)) * Qsum (map (residual b) rows)))).
    { unfold ess.
      rewrite (Qsum_scale_l 2), (Qsum_scale_l (- (2 * m))).
      rewrite <- !Qsum_map_plus. apply Qsum_map_ext.
      intros row _. unfold residual. ring. }
    rewrite Hsplit, S1, S2. lra.
Qed.

(** X26.  The residuals of a regression that returns are orthogonal to
    every regressor: they sum to zero (the intercept), and so does their
    product with each factor over the joined rows. *)
Theorem residuals_orthogonal (port_rets : list (Date * cell))
  (factors : DataFrame) (r : RegressionResult) :
  factor_regression port_rets factors = Ok r ->
  let rows := joined_rows port_rets factors in
  let b := map snd (coef r) in
  Qsum (map (residual b) rows) == 0
  /\ forall c, (c < S (length (df_columns factors)))%nat ->
       Qsum (map (fun row => nth c (1 :: tl row) 0 * residual b row) rows)
       == 0.
Proof.
  intro Hr. cbv zeta.
  pose proof (factor_regression_cases port_rets factors) as Hc.
  cbv zeta in Hc.
  destruct Hc as [(_ & E) | [(_ & E) | [(_ & _ & E) | (Hk & [G HG] & _)]]];
    try (rewrite E in Hr; discriminate Hr).
  pose proof (factor_regression_value port_rets factors G Hk HG) as Hv.
  cbv zeta in Hv. rewrite Hv in Hr. clear Hv.
  pose proof (np_lstsq_length _ _ G
                (map (hd 0) (joined_rows port_rets factors)) HG) as Hb.
  set (names := "const"%string :: map fst (df_columns factors)) in *.
  set (beta := np_lstsq _ _ _) in *.
  assert (Hnames : length names = S (length (df_columns factors))).
  { unfold names. cbn [length]. rewrite length_map. reflexivity. }
  apply Ok_inj in Hr. subst r. cbn [coef].
  rewrite map_snd_combine_eq by lia.
  assert (Horth : forall c, (c < S (length (df_columns factors)))%nat ->
            Qsum (map (fun row => nth c (1 :: tl row) 0 * residual beta row)
                      (joined_rows port_rets factors)) == 0).
  { intros c Hlt. apply (residuals_orthogonal_to_column _ _ G c HG Hlt). }
  split; [|exact Horth].
  rewrite <- (Horth 0%nat) by lia. apply Qsum_map_ext.
  intros row _. cbn [nth]. ring.
Qed.

(** X27.  The [R2] of a regression that returns is [NaN] (a constant
    portfolio return) or a number between 0 and 1. *)
Theorem r2_between_0_and_1 (port_rets : list (Date * cell))
  (factors : DataFrame) (r : RegressionResult) :
  factor_regression port_rets factors = Ok r ->
  r2 r = NaN \/ exists q, r2 r = Fin q /\ 0 <= q /\ q <= 1.
Proof.
  intro Hr.
  pose proof (factor_regression_cases port_rets factors) as Hc.
  cbv zeta in Hc.
  destruct Hc as [(_ & E) | [(_ & E) | [(_ & _ & E) | (Hk & [G HG] & _)]]];
    try (rewrite E in Hr; discriminate Hr).
  pose proof (factor_regression_value port_rets factors G Hk HG) as Hv.
  cbv zeta in Hv. rewrite Hv in Hr. clear Hv.
  destruct (fit_decomposition _ _ G HG (Nat.lt_0_succ _)) as [H0 H1].
  cbv zeta in H0, H1.
  set (beta := np_lstsq _ _ _) in *.
  rewrite residuals_by_row in Hr. rewrite map_map in Hr.
  set (rss := Qsum _) in *.
  set (tss := total_sum_squares _) in *.
  apply Ok_inj in Hr. subst r. cbn [r2].
  destruct (Qlt_bool 0 tss) eqn:Et; [|left; reflexivity].
  right. apply Qlt_bool_iff in Et. eexists. split; [reflexivity|].
  assert (Hq0 : 0 <= rss / tss)
    by (apply Qle_shift_div_l; [exact Et|rewrite Qmult_0_l; exact H0]).
  assert (Hq1 : rss / tss <= 1)
    by (apply Qle_shift_div_r; [exact Et|rewrite Qmult_1_l; exact H1]).
  split; lra.
Qed.

End Fit.

Lemma residuals_orthogonal_witness :
  exists r,
    factor_regression three_days moving_factor = Ok r
    /\ Qsum (map (residual (map snd (coef r)))
                 (joined_rows three_days moving_factor)) == 0.
Proof.
  destruct (factor_regression three_days moving_factor) as [r|e] eqn:E;
    [|vm_compute in E; discriminate E].
  exists r. split; [reflexivity|].
  exact (proj1 (residuals_orthogonal three_days moving_factor r E)).
Defined.

Lemma r2_between_0_and_1_witness :
  exists r,
    factor_regression three_days moving_factor = Ok r
    /\ (r2 r = NaN \/ exists q, r2 r = Fin q /\ 0 <= q /\ q <= 1).
Proof.
  destruct (factor_regression three_days moving_factor) as [r|e] eqn:E;
    [|vm_compute in E; discriminate E].
  exists r. split; [reflexivity|].
  exact (r2_between_0_and_1 three_days moving_factor r E).
Defined.

(** ** The warm-up of a rolling beta *)

Lemma rolling_beta_nth (a b : list cell) (w i : nat) :
  length a = length b -> (i < length b)%nat ->
  nth i (rolling_beta a b w) NaN
  = (nth i (rolling w Qcov1 (map pair_cells (combine a b))) NaN
     / nth i (rolling w Qvar1 b) NaN)%fl.
Proof.
  intros Hlen Hi. unfold rolling_beta.
  set (cov := rolling w Qcov1 _). set (var := rolling w Qvar1 b).
  assert (Hc : length cov = length b).
  { unfold cov. rewrite rolling_length, length_map, length_combine.
    unfold cell in *. lia. }
  assert (Hv : length var = length b) by apply rolling_length.
  unfold cell in *.
  rewrite (nth_map_lt _ _ i NaN (NaN, NaN)) by (rewrite length_combine; lia).
  rewrite combine_nth by congruence. reflexivity.
Qed.

Lemma all_present_missing {A : Type} (l : list (option A)) :
  In None l -> all_present l = None.
Proof.
  induction l as [|[x|] l IH]; intro H; [destruct H| |reflexivity].
  cbn [all_present]. rewrite IH; [reflexivity|].
  destruct H as [H|H]; [discriminate H|exact H].
Qed.

Lemma nth_skipn_shift {A : Type} (s n : nat) (l : list A) (d : A) :
  nth n (skipn s l) d = nth (s + n) l d.
Proof.
  revert l. induction s as [|s IH]; intro l; [reflexivity|].
  destruct l as [|x l]; [destruct n; reflexivity|]. cbn [skipn Nat.add nth].
  apply IH.
Qed.

Lemma nth_firstn_lt {A : Type} (w n : nat) (l : list A) (d : A) :
  (n < w)%nat -> nth n (firstn w l) d = nth n l d.
Proof.
  revert n l. induction w as [|w IH]; intros n l H; [lia|].
  destruct l as [|x l]; [reflexivity|].
  destruct n as [|n]; [reflexivity|]. cbn [firstn nth]. apply IH. lia.
Qed.

(** An entry of the series inside the window that ends at [i]. *)
Lemma window_at_In {A : Type} (w i j : nat) (xs : list A) (d : A) :
  (i < length xs)%nat -> (w <= i + 1)%nat -> (i + 1 - w <= j <= i)%nat ->
  In (nth j xs d) (window_at w i xs).
Proof.
  intros Hi Hw Hj. unfold window_at.
  replace j with ((i + 1 - w) + (j - (i + 1 - w)))%nat at 1 by lia.
  rewrite <- nth_skipn_shift.
  rewrite <- (nth_firstn_lt w) by lia.
  apply nth_In. rewrite length_firstn, length_skipn. lia.
Qed.

(** X28.  For two series over one index, the rolling beta has an entry
    per date, and the entry is missing before the window has filled and
    whenever either series misses a value inside the window. *)
Theorem rolling_beta_warmup (asset_rets bench_rets : list cell)
  (window : nat) :
  length asset_rets = length bench_rets ->
  length (rolling_beta asset_rets bench_rets window) = length bench_rets
  /\ forall i, (i < length bench_rets)%nat ->
       ((i + 1 < window)%nat
        \/ exists j, (i + 1 - window <= j <= i)%nat
                     /\ (nth j asset_rets None = None
                         \/ nth j bench_rets None = None)) ->
       nth i (rolling_beta asset_rets bench_rets window) NaN = NaN.
Proof.
  intro Hlen. split.
  - unfold rolling_beta. rewrite length_map, length_combine.
    rewrite !rolling_length, length_map, length_combine.
    unfold cell in *. lia.
  - intros i Hi Hcase. rewrite (rolling_beta_nth _ _ _ _ Hlen Hi).
    rewrite (rolling_nth window Qvar1 bench_rets i Hi).
    rewrite (rolling_nth window Qcov1)
      by (rewrite length_map, length_combine; unfold cell in *; lia).
    destruct (window <=? i + 1)%nat eqn:Ew; [|reflexivity].
    apply Nat.leb_le in Ew.
    destruct Hcase as [Hw|(j & Hj & Hmissing)]; [lia|].
    destruct Hmissing as [Ha|Hb].
    + match goal with
      | |- context [all_present (window_at window i (map pair_cells ?l))] =>
          assert (Hwin : all_present (window_at window i (map pair_cells l))
                         = None)
      end.
      { apply all_present_missing.
        assert (Hp : nth j (map pair_cells (combine asset_rets bench_rets))
                         None = None).
        { rewrite (nth_map_lt pair_cells _ j None (None, None))
            by (rewrite length_combine; unfold cell in *; lia).
          rewrite combine_nth by exact Hlen. unfold cell in Ha.
          rewrite Ha. reflexivity. }
        rewrite <- Hp. apply window_at_In; [|exact Ew|exact Hj].
        rewrite length_map, length_combine. unfold cell in *. lia. }
      rewrite Hwin. destruct (all_present _); reflexivity.
    + match goal with
      | |- (_ / match all_present ?v with Some _ => _ | None => _ end)%fl
           = NaN =>
          assert (Hwin : all_present v = None)
      end.
      { apply all_present_missing. unfold cell in Hb. rewrite <- Hb.
        apply window_at_In; assumption. }
      rewrite Hwin. apply fdiv_NaN_r.
Qed.

Lemma rolling_beta_warmup_witness :
  length (rolling_beta [Some 0.01; Some 0.02; None; Some 0.01]
                       [Some 0.02; Some 0.01; Some 0.03; Some 0.02] 2)
  = 4%nat
  /\ nth 0 (rolling_beta [Some 0.01; Some 0.02; None; Some 0.01]
                         [Some 0.02; Some 0.01; Some 0.03; Some 0.02] 2) NaN
     = NaN
  /\ nth 3 (rolling_beta [Some 0.01; Some 0.02; None; Some 0.01]
                         [Some 0.02; Some 0.01; Some 0.03; Some 0.02] 2) NaN
     = NaN.
Proof.
  destruct (rolling_beta_warmup [Some 0.01; Some 0.02; None; Some 0.01]
              [Some 0.02; Some 0.01; Some 0.03; Some 0.02] 2 eq_refl)
    as [Hl Hnan].
  split; [exact Hl|]. split.
  - apply Hnan; [simpl; lia|left; lia].
  - apply Hnan; [simpl; lia|]. right. exists 2%nat.
    split; [lia|left; reflexivity].
Defined.
